(* ===================================================================== *)
(*  HOLA: a 4x4 letter sudoku (script.js).                               *)
(*                                                                       *)
(*  The file has five parts.                                             *)
(*   1. Code.    The functions of SudokuCore, written in a state and     *)
(*      error monad over a heap of JS arrays.  A board is an array of    *)
(*      references to row arrays, so that aliasing and                   *)
(*      JSON.parse(JSON.stringify(board)) mean what they mean in JS.     *)
(*      Then GameManager and what UIManager does besides writing to the  *)
(*      document, in the same monad over a larger state: the fields of   *)
(*      GameManager, the timers, localStorage and the calls made to the  *)
(*      screen.                                                          *)
(*   2. Model.   Grids as 4x4 matrices of strings, the searches as       *)
(*      functions on grids, the constraints and the completions; what    *)
(*      it is for a game to be in order.                                 *)
(*   3. Lemmas.  The code refines the model; the model is sound and      *)
(*      complete for the constraints; the runs of GameManager.           *)
(*   4. Theorems on SudokuCore, one per claim of the specification.      *)
(*   5. More theorems on SudokuCore, and theorems on the game.           *)
(* ===================================================================== *)

From Stdlib Require Import List String Arith ZArith Lia Bool Permutation.
From Stdlib Require Import Ascii DecimalString.
Import ListNotations.

(* ---------------------------------------------------------------------- *)
(** * Constants (script.js, lines 6-9)                                    *)
(* ---------------------------------------------------------------------- *)

Definition LETTERS : list string := ["H"; "O"; "L"; "A"]%string.
(** The empty string. *)
Definition EMPTY : string := EmptyString.
Definition SIZE : nat := 4.
Definition BLOCK_SIZE : nat := 2.

(* ---------------------------------------------------------------------- *)
(** * JS values, arrays and the heap                                      *)
(* ---------------------------------------------------------------------- *)

(** What an element of a row array can be.  [JNull] is what
    JSON.stringify writes for an undefined array element. *)
Inductive jsval : Type :=
| JUndefined
| JNull
| JString (s : string).

(** [x === val] where [val] is a string. *)
Definition strictEq (x : jsval) (val : string) : bool :=
  match x with
  | JString s => String.eqb s val
  | _ => false
  end.

Definition loc := nat.

(** A row is a JS array of cell values; it lives in the heap and is
    mutated in place.  A board is the outer array: the code never assigns
    to [board[row]] and never compares boards by identity, so the outer
    array is the list of the references it holds. *)
Definition rowArray := list jsval.
Definition boardRef := list loc.

(** The source of randomness.  The code uses [Math.random()] only as
    [Math.floor(Math.random() * k)] with [k] an integer; [tape] lists the
    successive draws and [cursor] counts the draws made so far. *)
Record rng : Type := mkRng { tape : nat -> nat; cursor : nat }.

Record state : Type := mkState { heap : list rowArray; gen : rng }.

(** Replace element [i]; nothing happens when [i] is out of range. *)
Fixpoint update {A : Type} (l : list A) (i : nat) (x : A) : list A :=
  match l, i with
  | [], _ => []
  | _ :: l', 0 => x :: l'
  | y :: l', S i' => y :: update l' i' x
  end.

(** [cells[col] = v] on a JS array: inside the array the element is
    replaced, beyond its end the array grows and the gap is undefined. *)
Definition arraySet (cells : rowArray) (col : nat) (v : jsval) : rowArray :=
  if col <? List.length cells then update cells col v
  else (cells ++ repeat JUndefined (col - List.length cells) ++ [v])%list.

(* ---------------------------------------------------------------------- *)
(** * The monad: state, with TypeError as the only exception              *)
(* ---------------------------------------------------------------------- *)

(** [OutOfFuel] is not a JS outcome: the recursive searches carry a bound
    on their depth, and [solve_refines] and [countSolutions_refines] show
    that on a 4x4 board the bound the entry points pass is never reached. *)
Inductive res (A : Type) : Type :=
| Ok (a : A)
| TypeError
| OutOfFuel.

Arguments Ok {A} a.
Arguments TypeError {A}.
Arguments OutOfFuel {A}.

Definition M (A : Type) : Type := state -> res A * state.

Definition ret {A : Type} (a : A) : M A := fun s => (Ok a, s).

Definition bind {A B : Type} (m : M A) (k : A -> M B) : M B :=
  fun s =>
    match m s with
    | (Ok a, s') => k a s'
    | (TypeError, s') => (TypeError, s')
    | (OutOfFuel, s') => (OutOfFuel, s')
    end.

Definition outOfFuel {A : Type} : M A := fun s => (OutOfFuel, s).

Declare Scope js_scope.
Delimit Scope js_scope with js.
Notation "x <- m ;; k" := (bind m (fun x => k))
  (at level 100, m at next level, right associativity) : js_scope.
Notation "m ;;; k" := (bind m (fun _ => k))
  (at level 100, right associativity) : js_scope.
Open Scope js_scope.

(** A computation that only touches the random source. *)
Definition liftRng {A : Type} (f : rng -> A * rng) : M A :=
  fun s => let (a, g) := f (gen s) in (Ok a, mkState (heap s) g).

(** [board[row][col]]: indexing the missing row [undefined] throws; an
    index beyond the row reads [undefined].  Indices are naturals: the
    code only ever computes such indices.  A reference always points to a
    live array in JS; the model throws on a dangling one. *)
Definition readCell (board : boardRef) (row col : nat) : M jsval :=
  fun s =>
    match nth_error board row with
    | None => (TypeError, s)
    | Some l =>
        match nth_error (heap s) l with
        | None => (TypeError, s)
        | Some cells => (Ok (nth col cells JUndefined), s)
        end
    end.

(** [board[row][col] = v]. *)
Definition writeCell (board : boardRef) (row col : nat) (v : jsval) : M unit :=
  fun s =>
    match nth_error board row with
    | None => (TypeError, s)
    | Some l =>
        match nth_error (heap s) l with
        | None => (TypeError, s)
        | Some cells =>
            (Ok tt, mkState (update (heap s) l (arraySet cells col v)) (gen s))
        end
    end.

(** A new array in the heap. *)
Definition allocRow (cells : rowArray) : M loc :=
  fun s => (Ok (List.length (heap s)), mkState (heap s ++ [cells])%list (gen s)).

Definition readRow (l : loc) : M rowArray :=
  fun s =>
    match nth_error (heap s) l with
    | None => (TypeError, s)
    | Some cells => (Ok cells, s)
    end.

Fixpoint mapM {A B : Type} (f : A -> M B) (l : list A) : M (list B) :=
  match l with
  | [] => ret []
  | x :: l' => y <- f x ;; ys <- mapM f l' ;; ret (y :: ys)
  end.

(** What a value is after JSON.stringify and JSON.parse. *)
Definition jsonValue (v : jsval) : jsval :=
  match v with
  | JUndefined => JNull
  | other => other
  end.

(** [JSON.parse(JSON.stringify(board))]: new row arrays, new outer array. *)
Definition jsonCopy (board : boardRef) : M boardRef :=
  mapM (fun l => cells <- readRow l ;; allocRow (map jsonValue cells)) board.

(** [Array.from({ length: SIZE }, () => Array(SIZE).fill(EMPTY))]. *)
Definition emptyBoard : M boardRef :=
  mapM (fun _ => allocRow (repeat (JString EMPTY) SIZE)) (seq 0 SIZE).

(* ---------------------------------------------------------------------- *)
(** * Randomness and the Fisher-Yates loop (lines 57-60 and 135-138)      *)
(* ---------------------------------------------------------------------- *)

(** [Math.floor(Math.random() * k)]: some integer of [0, k-1] when
    [k > 0], and of [k, 0] otherwise ([Math.random()] is in [0, 1)). *)
Definition randomBelow (k : Z) (g : rng) : Z * rng :=
  let t := Z.of_nat (tape g (cursor g)) in
  ((if 0 <? k then t mod k else - (t mod (1 - k)))%Z,
   mkRng (tape g) (S (cursor g))).

(** [[a[i], a[j]] = [a[j], a[i]]] with both indices inside the array. *)
Definition swap {A : Type} (l : list A) (i j : nat) : list A :=
  match nth_error l i, nth_error l j with
  | Some x, Some y => update (update l i y) j x
  | _, _ => l
  end.

(** [for (let i = ...; i > 0; i--) { j = floor(random() * (i + 1)); swap }],
    entered with the current value of [i]. *)
Fixpoint shuffleFrom {A : Type} (i : nat) (l : list A) (g : rng) : list A * rng :=
  match i with
  | 0 => (l, g)
  | S i' =>
      let (j, g') := randomBelow (Z.of_nat (i + 1)) g in
      shuffleFrom i' (swap l i (Z.to_nat j)) g'
  end.

Definition shuffle {A : Type} (l : list A) (g : rng) : list A * rng :=
  shuffleFrom (List.length l - 1) l g.

(* ---------------------------------------------------------------------- *)
(** * SudokuCore.isValid (lines 24-42)                                    *)
(* ---------------------------------------------------------------------- *)

(** A [for] loop whose body returns from the function when its test holds:
    the result tells whether it did. *)
Fixpoint existsM {A : Type} (p : A -> M bool) (l : list A) : M bool :=
  match l with
  | [] => ret false
  | x :: l' => b <- p x ;; if b then ret true else existsM p l'
  end.

Definition isValid (board : boardRef) (row col : nat) (val : string) : M bool :=
  rowHit <- existsM (fun c =>
              x <- readCell board row c ;;
              ret (strictEq x val && negb (c =? col))) (seq 0 SIZE) ;;
  if rowHit then ret false else
  colHit <- existsM (fun r =>
              x <- readCell board r col ;;
              ret (strictEq x val && negb (r =? row))) (seq 0 SIZE) ;;
  if colHit then ret false else
  let startRow := row / BLOCK_SIZE * BLOCK_SIZE in
  let startCol := col / BLOCK_SIZE * BLOCK_SIZE in
  blockHit <- existsM (fun r =>
                existsM (fun c =>
                  x <- readCell board (startRow + r) (startCol + c) ;;
                  ret (strictEq x val &&
                       (negb (startRow + r =? row) || negb (startCol + c =? col))))
                (seq 0 BLOCK_SIZE)) (seq 0 BLOCK_SIZE) ;;
  if blockHit then ret false else ret true.

(* ---------------------------------------------------------------------- *)
(** * SudokuCore.solve (lines 50-75)                                      *)
(* ---------------------------------------------------------------------- *)

(** A [for] loop that leaves at the first element on which [f] answers. *)
Fixpoint firstM {A B : Type} (f : A -> M (option B)) (l : list A) : M (option B) :=
  match l with
  | [] => ret None
  | x :: l' =>
      o <- f x ;;
      match o with
      | Some b => ret (Some b)
      | None => firstM f l'
      end
  end.

(** The two scanning loops of [solve] and [solveInternal]: the body of
    [if (board[row][col] === EMPTY)] always returns, so the loops stop at
    the first empty cell in row-major order, or run to their end. *)
Definition firstEmpty (board : boardRef) : M (option (nat * nat)) :=
  firstM (fun row =>
    firstM (fun col =>
      x <- readCell board row col ;;
      ret (if strictEq x EMPTY then Some (row, col) else None))
    (seq 0 SIZE)) (seq 0 SIZE).

(** [for (const val of candidates) { ... } return false;] with [recur]
    the recursive call [this.solve(board, randomized)]. *)
Fixpoint tryCandidates (recur : M bool) (board : boardRef) (row col : nat)
    (candidates : list string) : M bool :=
  match candidates with
  | [] => ret false
  | val :: rest =>
      ok <- isValid board row col val ;;
      if ok then
        writeCell board row col (JString val) ;;;
        solved <- recur ;;
        if solved then ret true
        else
          writeCell board row col (JString EMPTY) ;;;
          tryCandidates recur board row col rest
      else tryCandidates recur board row col rest
  end.

Fixpoint solve_fuel (fuel : nat) (board : boardRef) (randomized : bool) : M bool :=
  match fuel with
  | 0 => outOfFuel
  | S fuel' =>
      pos <- firstEmpty board ;;
      match pos with
      | None => ret true
      | Some (row, col) =>
          candidates <- (if randomized then liftRng (shuffle LETTERS)
                         else ret LETTERS) ;;
          tryCandidates (solve_fuel fuel' board randomized) board row col candidates
      end
  end.

(** Each nested call has filled one more of the SIZE * SIZE scanned cells. *)
Definition solve (board : boardRef) (randomized : bool) : M bool :=
  solve_fuel (S (SIZE * SIZE)) board randomized.

(* ---------------------------------------------------------------------- *)
(** * SudokuCore.countSolutions (lines 82-106)                            *)
(* ---------------------------------------------------------------------- *)

(** [count] is a variable of the enclosing call that [solveInternal]
    increments: it is passed in and handed back. *)
Fixpoint countCandidates (recur : nat -> M nat) (currentBoard : boardRef)
    (row col : nat) (vals : list string) (count : nat) : M nat :=
  match vals with
  | [] => ret count
  | val :: rest =>
      ok <- isValid currentBoard row col val ;;
      if ok then
        writeCell currentBoard row col (JString val) ;;;
        count' <- recur count ;;
        writeCell currentBoard row col (JString EMPTY) ;;;
        if 1 <? count' then ret count'
        else countCandidates recur currentBoard row col rest count'
      else countCandidates recur currentBoard row col rest count
  end.

Fixpoint solveInternal_fuel (fuel : nat) (currentBoard : boardRef) (count : nat)
    : M nat :=
  match fuel with
  | 0 => outOfFuel
  | S fuel' =>
      pos <- firstEmpty currentBoard ;;
      match pos with
      | None => ret (count + 1)
      | Some (row, col) =>
          countCandidates (solveInternal_fuel fuel' currentBoard)
            currentBoard row col LETTERS count
      end
  end.

Definition solveInternal (currentBoard : boardRef) (count : nat) : M nat :=
  solveInternal_fuel (S (SIZE * SIZE)) currentBoard count.

Definition countSolutions (board : boardRef) : M nat :=
  copy <- jsonCopy board ;;
  solveInternal copy 0.

(* ---------------------------------------------------------------------- *)
(** * SudokuCore.generateFullBoard and generatePuzzle (lines 112-156)     *)
(* ---------------------------------------------------------------------- *)

Definition generateFullBoard : M boardRef :=
  board <- emptyBoard ;;
  solve board true ;;;
  ret board.

(** [for (r...) for (c...) positions.push([r, c])]. *)
Definition allPositions : list (nat * nat) :=
  flat_map (fun r => map (fun c => (r, c)) (seq 0 SIZE)) (seq 0 SIZE).

(** The hole-digging loop (lines 140-153); it hands back what is left of
    [cellsToRemove] when it ends. *)
Fixpoint digHoles (puzzle : boardRef) (positions : list (nat * nat))
    (cellsToRemove : Z) : M Z :=
  match positions with
  | [] => ret cellsToRemove
  | (r, c) :: rest =>
      if (cellsToRemove <=? 0)%Z then ret cellsToRemove
      else
        backup <- readCell puzzle r c ;;
        writeCell puzzle r c (JString EMPTY) ;;;
        solutions <- countSolutions puzzle ;;
        if negb (solutions =? 1) then
          writeCell puzzle r c backup ;;;
          digHoles puzzle rest cellsToRemove
        else digHoles puzzle rest (cellsToRemove - 1)%Z
  end.

(** The body of [generatePuzzle] up to its [return], with the last value
    of [cellsToRemove] kept. *)
Definition generatePuzzle_dig (minClues maxClues : Z)
    : M (boardRef * boardRef * Z) :=
  solution <- generateFullBoard ;;
  puzzle <- jsonCopy solution ;;
  j <- liftRng (randomBelow (maxClues - minClues + 1)) ;;
  let cellsToRemove := (Z.of_nat (SIZE * SIZE) - (j + minClues))%Z in
  positions <- liftRng (shuffle allPositions) ;;
  remaining <- digHoles puzzle positions cellsToRemove ;;
  ret (puzzle, solution, remaining).

Definition generatePuzzle (minClues maxClues : Z) : M (boardRef * boardRef) :=
  r <- generatePuzzle_dig minClues maxClues ;;
  ret (fst (fst r), snd (fst r)).

(** [generatePuzzle()] with the default arguments. *)
Definition generatePuzzle_default : M (boardRef * boardRef) := generatePuzzle 6 8.

(* ---------------------------------------------------------------------- *)
(** * The page around SudokuCore: fields, timers, storage, screen         *)
(* ---------------------------------------------------------------------- *)

Definition MAX_HINTS : Z := 999.

(** [x === y] on the values a cell can hold. *)
Definition sameValue (x y : jsval) : bool :=
  match y with
  | JString v => strictEq x v
  | JUndefined => match x with JUndefined => true | _ => false end
  | JNull => match x with JNull => true | _ => false end
  end.

(** The fields of the object [GameManager] (lines 163-169).  [seconds] and
    [hintsLeft] are JS numbers that the code only sets to whole numbers
    and moves by one: they are integers here, which is what JS computes
    below 2^53.  [timerInterval] is [null] or the id that [setInterval]
    gave; [selectedCell] is [null] or an object [{row, col}]. *)
Record fields : Type := mkFields {
  puzzle : boardRef;
  solution : boardRef;
  userGrid : boardRef;
  timerInterval : option nat;
  seconds : Z;
  selectedCell : option (nat * nat);
  hintsLeft : Z
}.

(** One cell element as [renderGrid] makes it (lines 391-400). *)
Record cellView : Type := mkCellView {
  dataRow : nat;
  dataCol : nat;
  textContent : jsval;
  isFixed : bool
}.

(** What the page shows.  The DOM is not modelled: a call that only
    writes to the document, [alert] and [navigator.vibrate] are recorded
    with the values they are handed, texts as the code builds them.  The
    page is taken to have the elements that the script looks up. *)
Inductive uiCall : Type :=
| UpdateTimer (text : string)
| UpdateBestScore (time : option string)
| UpdateHintDisplay (count : Z)
| RenderGrid (cells : list cellView)
| UpdateCell (row col : nat) (val : jsval)
| SelectCell (row col : nat) (val : jsval)
| TriggerShake (row col : nat)
| Vibrate (ms : Z)
| ShowWinModal (text : string)
| HideWinModal
| StartConfetti
| AlertNoHints.

(** The browser as the script sees it.  [shown] holds the calls above,
    the latest first.  [intervals] are the ids of the intervals that are
    running and [nextTimer] the id that the next [setInterval] or
    [setTimeout] gives.  The two items of [localStorage] are kept parsed:
    ['hola_sudoku_best'] as the number whose decimal form [setItem]
    stored, ['hola_hints'] as the [date] and [count] of the object that
    [JSON.stringify] wrote; a storage holding other text under these keys
    is outside the model, and so is one that refuses to read or write.
    [today] is [new Date().toDateString()] and [canVibrate] is
    ['vibrate' in navigator]. *)
Record browser : Type := mkBrowser {
  shown : list uiCall;
  intervals : list nat;
  nextTimer : nat;
  best : option Z;
  hints : option (string * Z);
  today : string;
  canVibrate : bool
}.

Record world : Type := mkWorld { js : state; me : fields; env : browser }.

Definition G (A : Type) : Type := world -> res A * world.

Definition done {A : Type} (a : A) : G A := fun w => (Ok a, w).

Definition andThen {A B : Type} (m : G A) (k : A -> G B) : G B :=
  fun w =>
    match m w with
    | (Ok a, w') => k a w'
    | (TypeError, w') => (TypeError, w')
    | (OutOfFuel, w') => (OutOfFuel, w')
    end.

Declare Scope page_scope.
Delimit Scope page_scope with page.
Notation "x <- m ;; k" := (andThen m (fun x => k))
  (at level 100, m at next level, right associativity) : page_scope.
Notation "m ;;; k" := (andThen m (fun _ => k))
  (at level 100, right associativity) : page_scope.

(** A call into SudokuCore, or any access to the boards. *)
Definition core {A : Type} (m : M A) : G A :=
  fun w => let (r, s) := m (js w) in (r, mkWorld s (me w) (env w)).

(** [this] in GameManager, and assignments to its fields. *)
Definition this : G fields := fun w => (Ok (me w), w).

Definition assign (change : fields -> fields) : G unit :=
  fun w => (Ok tt, mkWorld (js w) (change (me w)) (env w)).

Definition setPuzzle (b : boardRef) (f : fields) : fields :=
  mkFields b (solution f) (userGrid f) (timerInterval f) (seconds f)
           (selectedCell f) (hintsLeft f).
Definition setSolution (b : boardRef) (f : fields) : fields :=
  mkFields (puzzle f) b (userGrid f) (timerInterval f) (seconds f)
           (selectedCell f) (hintsLeft f).
Definition setUserGrid (b : boardRef) (f : fields) : fields :=
  mkFields (puzzle f) (solution f) b (timerInterval f) (seconds f)
           (selectedCell f) (hintsLeft f).
Definition setTimerInterval (t : option nat) (f : fields) : fields :=
  mkFields (puzzle f) (solution f) (userGrid f) t (seconds f)
           (selectedCell f) (hintsLeft f).
Definition setSeconds (n : Z) (f : fields) : fields :=
  mkFields (puzzle f) (solution f) (userGrid f) (timerInterval f) n
           (selectedCell f) (hintsLeft f).
Definition setSelectedCell (c : option (nat * nat)) (f : fields) : fields :=
  mkFields (puzzle f) (solution f) (userGrid f) (timerInterval f) (seconds f)
           c (hintsLeft f).
Definition setHintsLeft (n : Z) (f : fields) : fields :=
  mkFields (puzzle f) (solution f) (userGrid f) (timerInterval f) (seconds f)
           (selectedCell f) n.

Definition browserDo {A : Type} (f : browser -> A * browser) : G A :=
  fun w => let (a, e) := f (env w) in (Ok a, mkWorld (js w) (me w) e).

Definition show (c : uiCall) : G unit :=
  browserDo (fun e =>
    (tt, mkBrowser (c :: shown e) (intervals e) (nextTimer e) (best e) (hints e)
                   (today e) (canVibrate e))).

(** [setInterval(callback, 1000)]: a new id, now running.  The callback
    is [tick] below. *)
Definition setInterval : G nat :=
  browserDo (fun e =>
    (nextTimer e,
     mkBrowser (shown e) (nextTimer e :: intervals e) (S (nextTimer e)) (best e)
               (hints e) (today e) (canVibrate e))).

(** [setTimeout(...)]: takes an id from the same pool. *)
Definition setTimeout : G unit :=
  browserDo (fun e =>
    (tt, mkBrowser (shown e) (intervals e) (S (nextTimer e)) (best e) (hints e)
                   (today e) (canVibrate e))).

(** [clearInterval(id)]: nothing happens on [null] or on an id that is not
    running. *)
Definition clearInterval (id : option nat) : G unit :=
  browserDo (fun e =>
    (tt,
     match id with
     | None => e
     | Some i =>
         mkBrowser (shown e) (filter (fun j => negb (j =? i)) (intervals e))
                   (nextTimer e) (best e) (hints e) (today e) (canVibrate e)
     end)).

Definition getBest : G (option Z) := browserDo (fun e => (best e, e)).

Definition setBest (time : Z) : G unit :=
  browserDo (fun e =>
    (tt, mkBrowser (shown e) (intervals e) (nextTimer e) (Some time) (hints e)
                   (today e) (canVibrate e))).

Definition getHints : G (option (string * Z)) := browserDo (fun e => (hints e, e)).

Definition setHints (date : string) (count : Z) : G unit :=
  browserDo (fun e =>
    (tt, mkBrowser (shown e) (intervals e) (nextTimer e) (best e)
                   (Some (date, count)) (today e) (canVibrate e))).

Definition toDateString : G string := browserDo (fun e => (today e, e)).

Definition vibrateInNavigator : G bool := browserDo (fun e => (canVibrate e, e)).

(** [n.toString()] for a whole number. *)
Definition toString (n : Z) : string := NilZero.string_of_int (Z.to_int n).

(** [s.padStart(2, '0')]. *)
Definition padStart2 (s : string) : string :=
  match String.length s with
  | 0 => "00"%string
  | 1 => String "0"%char s
  | _ => s
  end.

(** A loop that pushes the elements on which the test holds. *)
Fixpoint filterM {A : Type} (p : A -> M bool) (l : list A) : M (list A) :=
  match l with
  | [] => ret []
  | x :: l' =>
      b <- p x ;;
      rest <- filterM p l' ;;
      ret (if b then x :: rest else rest)
  end.

(** [SudokuCore.isValid] as it runs when [val] need not be a string:
    [handleInput] passes on whatever it is given.  On a string it is
    [isValid] (lemma [isValidValue_string]). *)
Definition isValidValue (board : boardRef) (row col : nat) (val : jsval) : M bool :=
  rowHit <- existsM (fun c =>
              x <- readCell board row c ;;
              ret (sameValue x val && negb (c =? col))) (seq 0 SIZE) ;;
  if rowHit then ret false else
  colHit <- existsM (fun r =>
              x <- readCell board r col ;;
              ret (sameValue x val && negb (r =? row))) (seq 0 SIZE) ;;
  if colHit then ret false else
  let startRow := row / BLOCK_SIZE * BLOCK_SIZE in
  let startCol := col / BLOCK_SIZE * BLOCK_SIZE in
  blockHit <- existsM (fun r =>
                existsM (fun c =>
                  x <- readCell board (startRow + r) (startCol + c) ;;
                  ret (sameValue x val &&
                       (negb (startRow + r =? row) || negb (startCol + c =? col))))
                (seq 0 BLOCK_SIZE)) (seq 0 BLOCK_SIZE) ;;
  if blockHit then ret false else ret true.

(* ---------------------------------------------------------------------- *)
(** * UIManager: what reaches past the document (lines 344-546)           *)
(* ---------------------------------------------------------------------- *)

Module UIManager.
Local Open Scope page_scope.

(** The text [`${min}:${sec}`] of [updateTimer], [updateBestScore] and
    [showWinModal] (lines 473-475, 480-482, 493-495): [Math.floor] of the
    quotient, and [%], whose sign is that of [seconds]. *)
Definition timeText (seconds : Z) : string :=
  let min := padStart2 (toString (seconds / 60)) in
  let sec := padStart2 (toString (Z.rem seconds 60)) in
  (min ++ ":" ++ sec)%string.

Definition updateTimer (seconds : Z) : G unit := show (UpdateTimer (timeText seconds)).

(** [updateBestScore(seconds)] with what [getItem] gave: [null], or a
    string, and a string of digits is truthy, also ["0"]. *)
Definition updateBestScore (seconds : option Z) : G unit :=
  show (UpdateBestScore (option_map timeText seconds)).

Definition updateHintDisplay (count : Z) : G unit := show (UpdateHintDisplay count).

Definition updateCell (row col : nat) (val : jsval) : G unit :=
  show (UpdateCell row col val).

Definition triggerShake (row col : nat) : G unit := show (TriggerShake row col).

Definition showWinModal (seconds : Z) : G unit :=
  show (ShowWinModal (timeText seconds)).

(** The four nested loops of [renderGrid] (lines 353-422): block by
    block, one [setTimeout] and then the four cells of the block, each
    read from [userGrid] and then from [puzzle]. *)
Definition blockCells (puzzle userGrid : boardRef) (br bc : nat) : G (list cellView) :=
  setTimeout ;;;
  core (mapM (fun rc =>
          let globalRow := br * 2 + fst rc in
          let globalCol := bc * 2 + snd rc in
          (cellVal <- readCell userGrid globalRow globalCol ;;
           p <- readCell puzzle globalRow globalCol ;;
           ret (mkCellView globalRow globalCol cellVal (negb (strictEq p EMPTY))))%js)
        [(0, 0); (0, 1); (1, 0); (1, 1)]).

Definition renderGrid (puzzle userGrid : boardRef) : G unit :=
  b0 <- blockCells puzzle userGrid 0 0 ;;
  b1 <- blockCells puzzle userGrid 0 1 ;;
  b2 <- blockCells puzzle userGrid 1 0 ;;
  b3 <- blockCells puzzle userGrid 1 1 ;;
  show (RenderGrid (b0 ++ b1 ++ b2 ++ b3)%list).

(** [selectCell] (lines 438-450).  It is called from the click listener
    of a cell that [renderGrid] made (line 403), so the cell element is
    found and the value under it is read. *)
Definition selectCell (row col : nat) : G unit :=
  assign (setSelectedCell (Some (row, col))) ;;;
  f <- this ;;
  val <- core (readCell (userGrid f) row col) ;;
  show (SelectCell row col val).

(** [startConfetti] (lines 499-545): 150 particles, eight calls of
    [Math.random()] for each; the animation only paints. *)
Definition startConfetti : G unit :=
  core (liftRng (fun g => (tt, mkRng (tape g) (cursor g + 150 * 8)))) ;;;
  show StartConfetti.

End UIManager.

(* ---------------------------------------------------------------------- *)
(** * GameManager (lines 162-339)                                         *)
(* ---------------------------------------------------------------------- *)

Module GameManager.
Local Open Scope page_scope.

Definition loadBestScore : G unit :=
  best <- getBest ;;
  UIManager.updateBestScore best.

(** [!currentBest || time < parseInt(currentBest)]. *)
Definition saveBestScore (time : Z) : G unit :=
  currentBest <- getBest ;;
  if match currentBest with
     | None => true
     | Some b => (time <? b)%Z
     end
  then setBest time ;;; loadBestScore
  else done tt.

Definition saveHints : G unit :=
  today <- toDateString ;;
  f <- this ;;
  setHints today (hintsLeft f).

(** [saved && saved.date === today]. *)
Definition loadHints : G unit :=
  saved <- getHints ;;
  today <- toDateString ;;
  match saved with
  | Some (date, count) =>
      if String.eqb date today then assign (setHintsLeft count)
      else assign (setHintsLeft MAX_HINTS) ;;; saveHints
  | None => assign (setHintsLeft MAX_HINTS) ;;; saveHints
  end.

Definition stopTimer : G unit :=
  f <- this ;;
  clearInterval (timerInterval f).

(** The callback handed to [setInterval] (lines 221-224). *)
Definition tick : G unit :=
  f <- this ;;
  assign (setSeconds (seconds f + 1)) ;;;
  f <- this ;;
  UIManager.updateTimer (seconds f).

Definition startTimer : G unit :=
  assign (setSeconds 0) ;;;
  UIManager.updateTimer 0 ;;;
  f <- this ;;
  clearInterval (timerInterval f) ;;;
  id <- setInterval ;;
  assign (setTimerInterval (Some id)).

Definition checkWin : G bool :=
  f <- this ;;
  differ <- core (existsM (fun r =>
              existsM (fun c =>
                (u <- readCell (userGrid f) r c ;;
                 v <- readCell (solution f) r c ;;
                 ret (negb (sameValue u v)))%js)
              (seq 0 SIZE)) (seq 0 SIZE)) ;;
  done (negb differ).

Definition gameWon : G unit :=
  stopTimer ;;;
  f <- this ;;
  saveBestScore (seconds f) ;;;
  f <- this ;;
  UIManager.showWinModal (seconds f) ;;;
  UIManager.startConfetti.

Definition handleInput (val : jsval) : G unit :=
  f <- this ;;
  match selectedCell f with
  | None => done tt
  | Some (row, col) =>
      p <- core (readCell (puzzle f) row col) ;;
      if negb (strictEq p EMPTY) then done tt else
      core (writeCell (userGrid f) row col val) ;;;
      UIManager.updateCell row col val ;;;
      (if negb (sameValue val (JString EMPTY)) then
         isValid <- core (isValidValue (userGrid f) row col val) ;;
         if negb isValid then
           UIManager.triggerShake row col ;;;
           canVibrate <- vibrateInNavigator ;;
           if canVibrate then show (Vibrate 200) else done tt
         else done tt
       else done tt) ;;;
      won <- checkWin ;;
      if won then gameWon else done tt
  end.

Definition useHint : G unit :=
  f <- this ;;
  if (hintsLeft f <=? 0)%Z then show AlertNoHints else
  emptyCells <- core (filterM (fun rc =>
                  (x <- readCell (userGrid f) (fst rc) (snd rc) ;;
                   ret (strictEq x EMPTY))%js) allPositions) ;;
  if List.length emptyCells =? 0 then done tt else
  i <- core (liftRng (randomBelow (Z.of_nat (List.length emptyCells)))) ;;
  match nth_error emptyCells (Z.to_nat i) with
  | None => fun w => (TypeError, w)
  | Some rand =>
      val <- core (readCell (solution f) (fst rand) (snd rand)) ;;
      assign (setSelectedCell (Some rand)) ;;;
      handleInput val ;;;
      f <- this ;;
      assign (setHintsLeft (hintsLeft f - 1)) ;;;
      saveHints ;;;
      f <- this ;;
      UIManager.updateHintDisplay (hintsLeft f)
  end.

Definition initGame : G unit :=
  gameData <- core generatePuzzle_default ;;
  assign (setPuzzle (fst gameData)) ;;;
  assign (setSolution (snd gameData)) ;;;
  f <- this ;;
  copy <- core (jsonCopy (puzzle f)) ;;
  assign (setUserGrid copy) ;;;
  assign (setSelectedCell None) ;;;
  stopTimer ;;;
  startTimer ;;;
  f <- this ;;
  UIManager.renderGrid (puzzle f) (userGrid f) ;;;
  f <- this ;;
  UIManager.updateHintDisplay (hintsLeft f).


(** What the page can be asked to do once [init] has run: the listeners
    of lines 177-178, 193-196, 402-404 and 549-553, and the callback of a
    running interval.  The tutorial buttons only show and hide a panel. *)
Inductive event : Type :=
| ClickNewGame
| ClickHint
| ClickRestart
| ClickCell (row col : nat)
| ClickInput (val : jsval)
| Interval (id : nat).

Definition listener (e : event) : G unit :=
  match e with
  | ClickNewGame => initGame
  | ClickHint => useHint
  | ClickRestart => initGame ;;; show HideWinModal
  | ClickCell row col => UIManager.selectCell row col
  | ClickInput val => handleInput val
  | Interval id =>
      running <- browserDo (fun e => (existsb (Nat.eqb id) (intervals e), e)) ;;
      if running then tick else done tt
  end.

End GameManager.

(* ====================================================================== *)
(** * Grids: the 4x4 matrices a board stands for                          *)
(* ====================================================================== *)

(** The contents of a board, row by row. *)
Definition grid := list (list string).

(** A cell as a JS read sees it, and as a string where it exists. *)
Definition look (g : grid) (r c : nat) : jsval :=
  nth c (map JString (nth r g [])) JUndefined.

Definition cell (g : grid) (r c : nat) : string := nth c (nth r g []) EMPTY.

Definition setCell (g : grid) (r c : nat) (v : string) : grid :=
  update g r (update (nth r g []) c v).

(** SIZE rows of SIZE cells. *)
Definition square (g : grid) : Prop :=
  List.length g = SIZE /\ Forall (fun cells => List.length cells = SIZE) g.

(** The Grid of the data model: every cell is empty or a letter. *)
Definition isGrid (g : grid) : Prop :=
  square g /\
  forall r c, r < SIZE -> c < SIZE -> cell g r c = EMPTY \/ In (cell g r c) LETTERS.

(** Board [b] holds grid [g] in heap [h]: row [r] of [b] points to an
    array whose elements are the strings of row [r] of [g]. *)
Definition repr (h : list rowArray) (b : boardRef) (g : grid) : Prop :=
  Forall2 (fun l cells => nth_error h l = Some (map JString cells)) b g.

Definition emptyGrid : grid := repeat (repeat EMPTY SIZE) SIZE.

(* ====================================================================== *)
(** * The model: the scans and searches as functions on grids             *)
(* ====================================================================== *)

Definition isValid_model (g : grid) (row col : nat) (val : string) : bool :=
  let startRow := row / BLOCK_SIZE * BLOCK_SIZE in
  let startCol := col / BLOCK_SIZE * BLOCK_SIZE in
  negb (existsb (fun c => strictEq (look g row c) val && negb (c =? col))
          (seq 0 SIZE)) &&
  negb (existsb (fun r => strictEq (look g r col) val && negb (r =? row))
          (seq 0 SIZE)) &&
  negb (existsb (fun r =>
          existsb (fun c =>
            strictEq (look g (startRow + r) (startCol + c)) val &&
            (negb (startRow + r =? row) || negb (startCol + c =? col)))
          (seq 0 BLOCK_SIZE)) (seq 0 BLOCK_SIZE)).

Fixpoint firstSome {A B : Type} (q : A -> option B) (l : list A) : option B :=
  match l with
  | [] => None
  | x :: l' =>
      match q x with
      | Some b => Some b
      | None => firstSome q l'
      end
  end.

Definition firstEmpty_model (g : grid) : option (nat * nat) :=
  firstSome (fun row =>
    firstSome (fun col =>
      if strictEq (look g row col) EMPTY then Some (row, col) else None)
    (seq 0 SIZE)) (seq 0 SIZE).

(** [solve]: [Some g'] is success with the board left as [g']; on [None]
    the board is back to what it was. *)
Fixpoint tryCandidates_model (recur : grid -> rng -> option grid * rng)
    (row col : nat) (candidates : list string) (g : grid) (rnd : rng)
    : option grid * rng :=
  match candidates with
  | [] => (None, rnd)
  | val :: rest =>
      if isValid_model g row col val then
        match recur (setCell g row col val) rnd with
        | (Some g', rnd') => (Some g', rnd')
        | (None, rnd') => tryCandidates_model recur row col rest g rnd'
        end
      else tryCandidates_model recur row col rest g rnd
  end.

Fixpoint solve_model (fuel : nat) (randomized : bool) (g : grid) (rnd : rng)
    : option grid * rng :=
  match fuel with
  | 0 => (None, rnd)
  | S fuel' =>
      match firstEmpty_model g with
      | None => (Some g, rnd)
      | Some (row, col) =>
          let (candidates, rnd') :=
            if randomized then shuffle LETTERS rnd else (LETTERS, rnd) in
          tryCandidates_model (solve_model fuel' randomized) row col candidates g rnd'
      end
  end.

(** [solveInternal]: the new value of [count]; the board is always back
    to what it was. *)
Fixpoint countCandidates_model (recur : grid -> nat -> nat) (row col : nat)
    (vals : list string) (g : grid) (count : nat) : nat :=
  match vals with
  | [] => count
  | val :: rest =>
      if isValid_model g row col val then
        let count' := recur (setCell g row col val) count in
        if 1 <? count' then count'
        else countCandidates_model recur row col rest g count'
      else countCandidates_model recur row col rest g count
  end.

Fixpoint solveInternal_model (fuel : nat) (g : grid) (count : nat) : nat :=
  match fuel with
  | 0 => count
  | S fuel' =>
      match firstEmpty_model g with
      | None => count + 1
      | Some (row, col) =>
          countCandidates_model (solveInternal_model fuel') row col LETTERS g count
      end
  end.

Definition countSolutions_model (g : grid) : nat :=
  solveInternal_model (S (SIZE * SIZE)) g 0.

Fixpoint digHoles_model (positions : list (nat * nat)) (g : grid)
    (cellsToRemove : Z) : grid * Z :=
  match positions with
  | [] => (g, cellsToRemove)
  | (r, c) :: rest =>
      if (cellsToRemove <=? 0)%Z then (g, cellsToRemove)
      else if negb (countSolutions_model (setCell g r c EMPTY) =? 1)
      then digHoles_model rest g cellsToRemove
      else digHoles_model rest (setCell g r c EMPTY) (cellsToRemove - 1)%Z
  end.

(** All completions of a grid, by the search without the early exit. *)
Fixpoint completions_fuel (fuel : nat) (g : grid) : list grid :=
  match fuel with
  | 0 => []
  | S fuel' =>
      match firstEmpty_model g with
      | None => [g]
      | Some (row, col) =>
          flat_map (fun val =>
            if isValid_model g row col val
            then completions_fuel fuel' (setCell g row col val)
            else []) LETTERS
      end
  end.

Definition completions (g : grid) : list grid :=
  completions_fuel (S (SIZE * SIZE)) g.

(* ====================================================================== *)
(** * The constraints                                                     *)
(* ====================================================================== *)

Definition sameBlock (r c r' c' : nat) : Prop :=
  r' / BLOCK_SIZE = r / BLOCK_SIZE /\ c' / BLOCK_SIZE = c / BLOCK_SIZE.

(** [(r', c')] is another cell of the row, the column or the block of
    [(r, c)]. *)
Definition peers (r c r' c' : nat) : Prop :=
  (r', c') <> (r, c) /\ (r' = r \/ c' = c \/ sameBlock r c r' c').

(** The filled cells satisfy the uniqueness constraints: no filled cell
    has its value repeated in its row, column or block. *)
Definition noConflict (g : grid) : Prop :=
  forall r c r' c',
    r < SIZE -> c < SIZE -> r' < SIZE -> c' < SIZE ->
    peers r c r' c' -> cell g r c <> EMPTY -> cell g r' c' <> cell g r c.

(** The rows, columns and blocks, as lists of positions. *)
Definition rowPositions (r : nat) : list (nat * nat) :=
  map (fun c => (r, c)) (seq 0 SIZE).

Definition colPositions (c : nat) : list (nat * nat) :=
  map (fun r => (r, c)) (seq 0 SIZE).

Definition blockPositions (br bc : nat) : list (nat * nat) :=
  flat_map (fun r =>
    map (fun c => (br * BLOCK_SIZE + r, bc * BLOCK_SIZE + c)) (seq 0 BLOCK_SIZE))
  (seq 0 BLOCK_SIZE).

Definition units : list (list (nat * nat)) :=
  map rowPositions (seq 0 SIZE) ++
  map colPositions (seq 0 SIZE) ++
  flat_map (fun br => map (blockPositions br) (seq 0 (SIZE / BLOCK_SIZE)))
    (seq 0 (SIZE / BLOCK_SIZE)).

Definition cellsAt (g : grid) (ps : list (nat * nat)) : list string :=
  map (fun p => cell g (fst p) (snd p)) ps.

(** Each letter exactly once. *)
Definition onceEach (cells : list string) : Prop :=
  forall v, In v LETTERS -> count_occ string_dec cells v = 1.

(** A fully solved grid: every row, every column and every block holds
    each letter exactly once. *)
Definition solvedGrid (g : grid) : Prop :=
  square g /\ forall u, In u units -> onceEach (cellsAt g u).

(** [G] keeps every filled cell of [g]. *)
Definition agrees (g G : grid) : Prop :=
  forall r c, r < SIZE -> c < SIZE -> cell g r c <> EMPTY -> cell G r c = cell g r c.

(** [G] is a completion of [g]. *)
Definition completion (g G : grid) : Prop := solvedGrid G /\ agrees g G.

Definition emptyCount (g : grid) : nat :=
  List.length (filter (fun p => String.eqb (cell g (fst p) (snd p)) EMPTY) allPositions).

(** The number of clues: the cells that are not empty. *)
Definition clueCount (g : grid) : nat :=
  List.length (filter (fun p => negb (String.eqb (cell g (fst p) (snd p)) EMPTY)) allPositions).

Definition posEqb (p q : nat * nat) : bool :=
  (fst p =? fst q) && (snd p =? snd q).

Definition peersb (r c r' c' : nat) : bool :=
  negb ((r' =? r) && (c' =? c)) &&
  ((r' =? r) || (c' =? c) ||
   ((r' / BLOCK_SIZE =? r / BLOCK_SIZE) && (c' / BLOCK_SIZE =? c / BLOCK_SIZE))).

(** The three answers of the counter, in terms of completions. *)
Definition noCompletion (g : grid) : Prop := forall G, ~ completion g G.

Definition oneCompletion (g : grid) : Prop :=
  exists G, completion g G /\ forall G', completion g G' -> G' = G.

Definition twoCompletions (g : grid) : Prop :=
  exists G1 G2, G1 <> G2 /\ completion g G1 /\ completion g G2.

(* ====================================================================== *)
(** * How a run of the code relates to the model                          *)
(* ====================================================================== *)

(** Only the rows of [b] may differ between the two heaps. *)
Definition unchangedOutside (b : boardRef) (h h' : list rowArray) : Prop :=
  List.length h' = List.length h /\
  forall l, ~ In l b -> nth_error h' l = nth_error h l.

(** Everything allocated in [h] is the same in [h']. *)
Definition heapGrows (h h' : list rowArray) : Prop :=
  forall l, l < List.length h -> nth_error h' l = nth_error h l.

(** Old arrays other than the rows of [b] are the same in [h']. *)
Definition keepsOthers (b : boardRef) (h h' : list rowArray) : Prop :=
  List.length h <= List.length h' /\
  forall l, l < List.length h -> ~ In l b -> nth_error h' l = nth_error h l.

(** Whatever [m] returns or throws, it leaves the random source alone and
    writes at most to the rows of [b]. *)
Definition writesOnly {A : Type} (b : boardRef) (m : M A) : Prop :=
  forall s, gen (snd (m s)) = gen s /\ unchangedOutside b (heap s) (heap (snd (m s))).

(** What a run may write when it may also draw random numbers. *)
Definition touchesOnly {A : Type} (b : boardRef) (m : M A) : Prop :=
  forall s, tape (gen (snd (m s))) = tape (gen s) /\
            unchangedOutside b (heap s) (heap (snd (m s))).

(** What a run of the model of [solve] on [g] must satisfy. *)
Definition solveSpec (g : grid) (out : option grid * rng) : Prop :=
  match fst out with
  | Some g' => completion g g'
  | None => forall G, ~ completion g G
  end.

(** A run of [m] from [s], where board [b] holds [g], goes as [out] says:
    it returns whether [out] has a grid, leaves the random source as in
    [out], leaves in [b] the grid of [out] (or [g] again when there is
    none), and touches no other array. *)
Definition runsAs (b : boardRef) (m : M bool) (s : state) (g : grid)
    (out : option grid * rng) : Prop :=
  exists s',
    m s = (Ok (match fst out with Some _ => true | None => false end), s') /\
    gen s' = snd out /\
    repr (heap s') b (match fst out with Some g' => g' | None => g end) /\
    unchangedOutside b (heap s) (heap s').

(** A run of [m] from [s], where board [b] holds [g], returns [n], leaves
    [g] in [b] and touches neither another array nor the random source. *)
Definition countsAs (b : boardRef) (m : M nat) (s : state) (g : grid) (n : nat)
    : Prop :=
  exists s',
    m s = (Ok n, s') /\ gen s' = gen s /\ repr (heap s') b g /\
    unchangedOutside b (heap s) (heap s').

(** What a run of an allocating [mapM] gives: new, distinct rows that
    hold [g], and the old heap untouched. *)
Definition allocates (s : state) (g : grid) (b' : boardRef) (s' : state) : Prop :=
  gen s' = gen s /\ repr (heap s') b' g /\ NoDup b' /\
  (forall l, In l b' -> List.length (heap s) <= l) /\
  heapGrows (heap s) (heap s').

(** The invariant of the digging loop: the puzzle is a grid, it agrees
    with the solution, and its count of solutions is one. *)
Definition puzzleOf (solution g : grid) : Prop :=
  isGrid g /\ agrees g solution /\ countSolutions_model g = 1.

(* ====================================================================== *)
(** * Concrete boards                                                     *)
(* ====================================================================== *)

(** The grid that [solve] without randomization builds from nothing. *)
Definition firstSolution : grid :=
  [["H"; "O"; "L"; "A"]; ["L"; "A"; "H"; "O"];
   ["O"; "H"; "A"; "L"]; ["A"; "L"; "O"; "H"]]%string.

(** A heap that holds just one grid, in rows 0 to 3. *)
Definition heapOf (g : grid) : list rowArray := map (map JString) g.
Definition boardOf (g : grid) : boardRef := seq 0 (List.length g).
Definition stateOf (g : grid) : state := mkState (heapOf g) (mkRng (fun n => n) 0).

(** A grid without conflict and without completion: cell (0,3) can only
    take A, which column 3 already has. *)
Definition deadEnd : grid :=
  [["H"; "O"; "L"; EMPTY]; [EMPTY; EMPTY; EMPTY; EMPTY];
   [EMPTY; EMPTY; EMPTY; "A"]; [EMPTY; EMPTY; EMPTY; EMPTY]]%string.

(** A full grid that breaks every constraint. *)
Definition allH : grid := repeat (repeat "H"%string SIZE) SIZE.

(** [firstSolution] without its first two cells: it can only be refilled
    as it was. *)
Definition onePuzzle : grid :=
  [[EMPTY; EMPTY; "L"; "A"]; ["L"; "A"; "H"; "O"];
   ["O"; "H"; "A"; "L"]; ["A"; "L"; "O"; "H"]]%string.

(* ====================================================================== *)
(** * The game in progress                                                *)
(* ====================================================================== *)

(** What [checkWin] computes on the grids that the two boards hold. *)
Definition checkWin_model (gu gs : grid) : bool :=
  negb (existsb (fun r =>
          existsb (fun c => negb (sameValue (look gu r c) (look gs r c)))
            (seq 0 SIZE)) (seq 0 SIZE)).

(** The page between two events of a game: the three boards hold the
    puzzle [gp], its solution [gs] and the player's grid [gu] in twelve
    different row arrays; [gs] is solved and is the one completion of
    [gp]; [gu] is [gp] with some of its empty cells written; and the
    selected cell, if any, is on the board. *)
Record playing (w : world) (gp gs gu : grid) : Prop := mkPlaying {
  play_puzzle : repr (heap (js w)) (puzzle (me w)) gp;
  play_solution : repr (heap (js w)) (solution (me w)) gs;
  play_user : repr (heap (js w)) (userGrid (me w)) gu;
  play_rows : NoDup (puzzle (me w) ++ solution (me w) ++ userGrid (me w));
  play_solved : solvedGrid gs;
  play_puzzleOf : puzzleOf gs gp;
  play_square : square gu;
  play_clues : forall r c, r < SIZE -> c < SIZE ->
                 cell gp r c <> EMPTY -> cell gu r c = cell gp r c;
  play_selected : forall r c, selectedCell (me w) = Some (r, c) ->
                    r < SIZE /\ c < SIZE
}.

(** No interval runs but the one whose id [timerInterval] holds. *)
Definition oneTimer (w : world) : Prop :=
  intervals (env w) = [] \/
  exists id, intervals (env w) = [id] /\ timerInterval (me w) = Some id.


(** The listeners run one after the other. *)
Fixpoint listeners (es : list GameManager.event) : G unit :=
  match es with
  | [] => done tt
  | e :: rest => andThen (GameManager.listener e) (fun _ => listeners rest)
  end.

(** The calls to the screen made from [w] to [w']. *)
Definition callsBetween (w w' : world) (calls : list uiCall) : Prop :=
  shown (env w') = (calls ++ shown (env w))%list.

(** A page with a game in progress: [onePuzzle] with nothing written
    yet, its first cell selected, no timer. *)
Definition oneBrowser : browser :=
  mkBrowser [] [] 1 None None "Sun Nov 01 2026" false.

Definition oneGame : world :=
  mkWorld (mkState (heapOf (onePuzzle ++ firstSolution ++ onePuzzle))
                   (mkRng (fun n => n) 0))
          (mkFields [0; 1; 2; 3] [4; 5; 6; 7] [8; 9; 10; 11] None 0
                    (Some (0, 0)) MAX_HINTS)
          oneBrowser.


(** [!currentBest || time < parseInt(currentBest)]. *)
Definition improves (time : Z) (currentBest : option Z) : bool :=
  match currentBest with
  | None => true
  | Some b => (time <? b)%Z
  end.

(** The calls to the screen that [gameWon] makes, the latest first. *)
Definition winCalls (seconds : Z) (currentBest : option Z) : list uiCall :=
  StartConfetti :: ShowWinModal (UIManager.timeText seconds) ::
  (if improves seconds currentBest
   then [UpdateBestScore (Some (UIManager.timeText seconds))] else []).

(** The calls that [handleInput] makes on a conflict, the latest first. *)
Definition shakeCalls (canVibrate : bool) (row col : nat) : list uiCall :=
  ((if canVibrate then [Vibrate 200] else []) ++ [TriggerShake row col])%list.

(** The intervals left by [clearInterval(id)]. *)
Definition cleared (id : option nat) (running : list nat) : list nat :=
  match id with
  | None => running
  | Some i => filter (fun j => negb (j =? i)) running
  end.

(** The browser after some more calls to the screen. *)
Definition withShown (calls : list uiCall) (e : browser) : browser :=
  mkBrowser (calls ++ shown e) (intervals e) (nextTimer e) (best e) (hints e)
            (today e) (canVibrate e).

(** The order in which [renderGrid] makes the cells: block by block. *)
Definition renderOrder : list (nat * nat) :=
  flat_map (fun b =>
    map (fun rc => (fst b * 2 + fst rc, snd b * 2 + snd rc))
        [(0, 0); (0, 1); (1, 0); (1, 1)])
    [(0, 0); (0, 1); (1, 0); (1, 1)].

(** The cells that [renderGrid] makes for a puzzle and a player's grid. *)
Definition renderCells (gp gu : grid) : list cellView :=
  map (fun p => mkCellView (fst p) (snd p) (look gu (fst p) (snd p))
                  (negb (strictEq (look gp (fst p) (snd p)) EMPTY)))
      renderOrder.

(** The page on the day whose [toDateString()] is [date]. *)
Definition onDay (date : string) (w : world) : world :=
  mkWorld (js w) (me w)
    (mkBrowser (shown (env w)) (intervals (env w)) (nextTimer (env w)) (best (env w))
       (hints (env w)) date (canVibrate (env w))).


(** The digit [k] as a character, a number below one hundred in two
    digits, and the five characters of a time below one hundred minutes. *)
Definition digit (k : Z) : ascii := ascii_of_nat (48 + Z.to_nat k).

Definition twoDigits (k : Z) : string :=
  String (digit (k / 10)) (String (digit (k mod 10)) EmptyString).

Definition clockText (seconds : Z) : string :=
  (twoDigits (seconds / 60) ++ ":" ++ twoDigits (seconds mod 60))%string.

(** [firstSolution] with its first cell still to fill, and a page where
    the player has come that far on [onePuzzle]. *)
Definition oneLeft : grid :=
  [[EMPTY; "O"; "L"; "A"]; ["L"; "A"; "H"; "O"];
   ["O"; "H"; "A"; "L"]; ["A"; "L"; "O"; "H"]]%string.

Definition almostDone : world :=
  mkWorld (mkState (heapOf (onePuzzle ++ firstSolution ++ oneLeft))
                   (mkRng (fun n => n) 0))
          (mkFields [0; 1; 2; 3] [4; 5; 6; 7] [8; 9; 10; 11] (Some 1) 75
                    (Some (0, 0)) MAX_HINTS)
          (mkBrowser [] [1] 6 (Some 90%Z) None "Sun Nov 01 2026" false).

Ltac in_cases H := simpl in H; repeat (destruct H as [<-|H]); try contradiction.

(* ====================================================================== *)
(** * Lists: [update] and [swap]                                          *)
(* ====================================================================== *)

Section ListFacts.
Context {A : Type}.
Implicit Types (l : list A) (i j : nat) (x y d : A).

Lemma nth_error_Some_lt l i x : nth_error l i = Some x -> i < List.length l.
Proof. intros H. apply nth_error_Some. congruence. Qed.

Lemma update_length l i x : List.length (update l i x) = List.length l.
Proof.
  revert i; induction l as [|a l IH]; intros [|i]; simpl; auto.
Qed.

Lemma nth_error_update_eq l i x :
  i < List.length l -> nth_error (update l i x) i = Some x.
Proof.
  revert i; induction l as [|a l IH]; intros [|i] H; simpl in *; try lia; auto.
  apply IH; lia.
Qed.

Lemma nth_error_update_neq l i j x :
  i <> j -> nth_error (update l i x) j = nth_error l j.
Proof.
  revert i j; induction l as [|a l IH]; intros [|i] [|j] H; simpl; auto;
    try congruence.
Qed.

Lemma nth_update_eq l i x d : i < List.length l -> nth i (update l i x) d = x.
Proof.
  revert i; induction l as [|a l IH]; intros [|i] H; simpl in *; try lia; auto.
  apply IH; lia.
Qed.

Lemma nth_update_neq l i j x d : i <> j -> nth j (update l i x) d = nth j l d.
Proof.
  revert i j; induction l as [|a l IH]; intros [|i] [|j] H; simpl; auto;
    try congruence.
Qed.

Lemma update_update l i x y : update (update l i x) i y = update l i y.
Proof.
  revert i; induction l as [|a l IH]; intros [|i]; simpl; auto.
  now rewrite IH.
Qed.

Lemma update_same l i x : nth_error l i = Some x -> update l i x = l.
Proof.
  revert i; induction l as [|a l IH]; intros [|i] H; simpl in *; auto;
    try congruence.
  now rewrite IH.
Qed.

Lemma update_out l i x : List.length l <= i -> update l i x = l.
Proof.
  revert i; induction l as [|a l IH]; intros [|i] H; simpl in *; auto; try lia.
  rewrite IH; auto; lia.
Qed.

Lemma update_perm_swap l i j x y :
  i <> j -> nth_error l i = Some x -> nth_error l j = Some y ->
  Permutation (update (update l i y) j x) l.
Proof.
  revert i j; induction l as [|a l IH]; intros [|i] [|j] Hij Hi Hj;
    simpl in *; try discriminate; try congruence.
  - injection Hi as ->.
    clear IH Hij. revert j Hj. induction l as [|b l IH]; intros [|j] Hj;
      simpl in *; try discriminate.
    + injection Hj as ->. apply perm_swap.
    + specialize (IH j Hj).
      eapply perm_trans; [apply perm_swap|].
      eapply perm_trans; [|apply perm_swap].
      now apply perm_skip.
  - injection Hj as ->.
    clear IH Hij. revert i Hi. induction l as [|b l IH]; intros [|i] Hi;
      simpl in *; try discriminate.
    + injection Hi as ->. apply perm_swap.
    + specialize (IH i Hi).
      eapply perm_trans; [apply perm_swap|].
      eapply perm_trans; [|apply perm_swap].
      now apply perm_skip.
  - apply perm_skip. apply IH; auto.
Qed.

Lemma swap_perm l i j : Permutation (swap l i j) l.
Proof.
  unfold swap.
  destruct (nth_error l i) as [x|] eqn:Hi; [|reflexivity].
  destruct (nth_error l j) as [y|] eqn:Hj; [|reflexivity].
  destruct (Nat.eq_dec i j) as [->|Hij].
  - rewrite update_update. rewrite Hi in Hj; injection Hj as ->.
    now rewrite (update_same _ _ _ Hi).
  - now apply update_perm_swap.
Qed.

Lemma shuffleFrom_perm i l g : Permutation (fst (shuffleFrom i l g)) l.
Proof.
  revert l g; induction i as [|i IH]; intros l g; simpl; [reflexivity|].
  eapply perm_trans; [apply IH | apply swap_perm].
Qed.

Lemma shuffle_perm l g : Permutation (fst (shuffle l g)) l.
Proof. apply shuffleFrom_perm. Qed.
End ListFacts.

(* ====================================================================== *)
(** * Facts on grids and on the boards that hold them                     *)
(* ====================================================================== *)

Lemma square_row g r : square g -> r < SIZE -> List.length (nth r g []) = SIZE.
Proof.
  intros [Hl Hr] H. rewrite Forall_forall in Hr. apply Hr, nth_In. lia.
Qed.

Lemma look_cell g r c :
  square g -> r < SIZE -> c < SIZE -> look g r c = JString (cell g r c).
Proof.
  intros Hs Hr Hc. unfold look, cell.
  rewrite <- (map_nth JString). apply nth_indep.
  rewrite length_map, square_row; auto.
Qed.

Lemma look_outside g r c : square g -> r < SIZE -> SIZE <= c -> look g r c = JUndefined.
Proof.
  intros Hs Hr Hc. unfold look. apply nth_overflow.
  rewrite length_map, square_row; auto.
Qed.

Lemma square_setCell g r c v : square g -> square (setCell g r c v).
Proof.
  intros [Hl Hr]. unfold setCell. split; [now rewrite update_length|].
  rewrite Forall_forall in *. intros cells Hin.
  apply In_nth_error in Hin as [i Hi].
  destruct (Nat.eq_dec r i) as [->|Hne].
  - assert (Hlt : i < List.length g).
    { apply nth_error_Some_lt in Hi. now rewrite update_length in Hi. }
    rewrite nth_error_update_eq in Hi by auto. injection Hi as <-.
    rewrite update_length. apply Hr, nth_In; auto.
  - rewrite nth_error_update_neq in Hi by auto.
    apply Hr. eapply nth_error_In; eauto.
Qed.

Lemma cell_setCell g r c v r' c' :
  square g -> r < SIZE -> c < SIZE ->
  cell (setCell g r c v) r' c' =
    if (r' =? r) && (c' =? c) then v else cell g r' c'.
Proof.
  intros Hs Hr Hc. unfold cell, setCell.
  destruct (Nat.eqb_spec r' r) as [->|Hne]; simpl.
  - rewrite nth_update_eq by (destruct Hs; lia).
    destruct (Nat.eqb_spec c' c) as [->|Hne].
    + apply nth_update_eq. rewrite square_row; auto.
    + apply nth_update_neq; auto.
  - rewrite nth_update_neq; auto.
Qed.

Lemma cell_setCell_eq g r c v :
  square g -> r < SIZE -> c < SIZE -> cell (setCell g r c v) r c = v.
Proof. intros. rewrite cell_setCell, !Nat.eqb_refl; auto. Qed.

Lemma cell_setCell_neq g r c v r' c' :
  square g -> r < SIZE -> c < SIZE -> (r', c') <> (r, c) ->
  cell (setCell g r c v) r' c' = cell g r' c'.
Proof.
  intros Hs Hr Hc Hne. rewrite cell_setCell by auto.
  destruct (Nat.eqb_spec r' r), (Nat.eqb_spec c' c); simpl; auto.
  subst; congruence.
Qed.

(** Two square grids with the same cells are the same grid. *)
Lemma nth_ext_len {A : Type} (l l' : list A) d :
  List.length l = List.length l' ->
  (forall i, i < List.length l -> nth i l d = nth i l' d) -> l = l'.
Proof.
  revert l'; induction l as [|a l IH]; intros [|a' l'] Hl H; simpl in *;
    try discriminate; auto.
  f_equal.
  - apply (H 0); lia.
  - apply IH; [lia|]. intros i Hi. apply (H (S i)); lia.
Qed.

Lemma grid_ext g g' :
  square g -> square g' ->
  (forall r c, r < SIZE -> c < SIZE -> cell g r c = cell g' r c) -> g = g'.
Proof.
  intros Hs Hs' H.
  apply (nth_ext_len _ _ []); [destruct Hs, Hs'; congruence|].
  intros r Hr. assert (r < SIZE) by (destruct Hs; lia).
  apply (nth_ext_len _ _ EMPTY); [now rewrite !square_row|].
  intros c Hc. rewrite square_row in Hc by auto. now apply H.
Qed.

Lemma setCell_restore g r c v :
  square g -> r < SIZE -> c < SIZE ->
  setCell (setCell g r c v) r c (cell g r c) = g.
Proof.
  intros Hs Hr Hc. apply grid_ext; auto using square_setCell.
  intros r' c' Hr' Hc'.
  rewrite !cell_setCell by auto using square_setCell.
  destruct (Nat.eqb_spec r' r), (Nat.eqb_spec c' c); simpl; subst; auto.
Qed.

(* ---------------------------------------------------------------------- *)
(** ** Reading and writing a represented board                            *)
(* ---------------------------------------------------------------------- *)

Lemma repr_length h b g : repr h b g -> List.length b = List.length g.
Proof. apply Forall2_length. Qed.

Lemma repr_row h b g r l :
  repr h b g -> nth_error b r = Some l ->
  nth_error h l = Some (map JString (nth r g [])).
Proof.
  intros H; revert r; induction H as [|l0 cells b g H0 H IH]; intros [|r] Hr;
    simpl in *; try discriminate.
  - now injection Hr as <-.
  - now apply IH.
Qed.

Lemma repr_bound h b g l : repr h b g -> In l b -> l < List.length h.
Proof.
  intros H Hin. apply In_nth_error in Hin as [r Hr].
  eapply nth_error_Some_lt, repr_row; eauto.
Qed.

Lemma repr_same h h' b g :
  repr h b g -> (forall l, In l b -> nth_error h' l = nth_error h l) -> repr h' b g.
Proof.
  intros H; induction H as [|l cells b g H0 H IH]; intros Heq; constructor.
  - rewrite Heq; simpl; auto.
  - apply IH. intros; apply Heq; simpl; auto.
Qed.

Lemma repr_grows h h' b g : repr h b g -> heapGrows h h' -> repr h' b g.
Proof.
  intros H Hg. eapply repr_same; eauto.
  intros l Hin. apply Hg. eapply repr_bound; eauto.
Qed.

Lemma repr_inj h b g g' : repr h b g -> repr h b g' -> g = g'.
Proof.
  intros H; revert g'; induction H as [|l cells b g H0 H IH]; intros g' H';
    inversion H'; subst; auto.
  f_equal; auto.
  match goal with
  | H1 : nth_error h l = Some (map JString ?y) |- _ =>
      rewrite H0 in H1; injection H1 as H1; revert H1
  end.
  clear. revert y. induction cells as [|x cells IH]; intros [|y ys] E;
    simpl in *; try discriminate; auto.
  injection E as -> E. f_equal; auto.
Qed.

Lemma readCell_repr s b g r c :
  repr (heap s) b g -> r < List.length g ->
  readCell b r c s = (Ok (look g r c), s).
Proof.
  intros H Hr. unfold readCell.
  destruct (nth_error b r) as [l|] eqn:E.
  - now rewrite (repr_row _ _ _ _ _ H E).
  - apply nth_error_None in E. rewrite (repr_length _ _ _ H) in E. lia.
Qed.

Lemma readCell_missing_row s b g r c :
  repr (heap s) b g -> List.length g <= r ->
  readCell b r c s = (TypeError, s).
Proof.
  intros H Hr. unfold readCell.
  rewrite (proj2 (nth_error_None b r)); auto.
  now rewrite (repr_length _ _ _ H).
Qed.

Lemma map_update {A B : Type} (f : A -> B) l i x :
  map f (update l i x) = update (map f l) i (f x).
Proof.
  revert i; induction l as [|a l IH]; intros [|i]; simpl; auto.
  now rewrite IH.
Qed.

Lemma repr_update h b g r l cells :
  repr h b g -> NoDup b -> nth_error b r = Some l ->
  repr (update h l (map JString cells)) b (update g r cells).
Proof.
  intros H; revert r; induction H as [|l0 cells0 b g H0 H IH]; intros [|r] Hnd Hr;
    simpl in *; try discriminate.
  - injection Hr as ->. inversion Hnd; subst.
    constructor.
    + apply nth_error_update_eq. eapply nth_error_Some_lt; eauto.
    + eapply repr_same; eauto.
      intros l' Hin. apply nth_error_update_neq. congruence.
  - inversion Hnd; subst. constructor.
    + rewrite nth_error_update_neq; auto.
      intros ->. apply nth_error_In in Hr. contradiction.
    + apply IH; auto.
Qed.

Lemma writeCell_repr s b g r c v :
  repr (heap s) b g -> NoDup b -> square g -> r < SIZE -> c < SIZE ->
  exists s',
    writeCell b r c (JString v) s = (Ok tt, s') /\
    gen s' = gen s /\
    repr (heap s') b (setCell g r c v) /\
    unchangedOutside b (heap s) (heap s').
Proof.
  intros H Hnd Hs Hr Hc. unfold writeCell.
  destruct (nth_error b r) as [l|] eqn:E.
  2:{ apply nth_error_None in E. rewrite (repr_length _ _ _ H) in E.
      destruct Hs; lia. }
  rewrite (repr_row _ _ _ _ _ H E).
  eexists; split; [reflexivity|]. simpl.
  assert (Ha : arraySet (map JString (nth r g [])) c (JString v)
               = map JString (update (nth r g []) c v)).
  { unfold arraySet. rewrite length_map, square_row by auto.
    destruct (Nat.ltb_spec c SIZE); [|lia]. now rewrite map_update. }
  rewrite Ha. repeat split.
  - now apply repr_update.
  - apply update_length.
  - intros l' Hl'. apply nth_error_update_neq.
    intros ->. apply Hl'. eapply nth_error_In; eauto.
Qed.

(* ====================================================================== *)
(** * The scans of the code and their models                              *)
(* ====================================================================== *)

(* ---------------------------------------------------------------------- *)
(** ** Running monadic code                                               *)
(* ---------------------------------------------------------------------- *)

Lemma bind_Ok {A B : Type} (m : M A) (k : A -> M B) s a s' :
  m s = (Ok a, s') -> bind m k s = k a s'.
Proof. intros H. unfold bind. now rewrite H. Qed.

Lemma bind_TypeError {A B : Type} (m : M A) (k : A -> M B) s s' :
  m s = (TypeError, s') -> bind m k s = (TypeError, s').
Proof. intros H. unfold bind. now rewrite H. Qed.

Lemma existsM_pure {A : Type} (p : A -> M bool) (q : A -> bool) l s :
  (forall x, In x l -> p x s = (Ok (q x), s)) ->
  existsM p l s = (Ok (existsb q l), s).
Proof.
  induction l as [|x l IH]; intros H; simpl; [reflexivity|].
  rewrite (bind_Ok _ _ _ _ _ (H x (or_introl eq_refl))).
  destruct (q x); simpl; [reflexivity|].
  apply IH. intros; apply H; simpl; auto.
Qed.

Lemma firstM_pure {A B : Type} (f : A -> M (option B)) (q : A -> option B) l s :
  (forall x, In x l -> f x s = (Ok (q x), s)) ->
  firstM f l s = (Ok (firstSome q l), s).
Proof.
  induction l as [|x l IH]; intros H; simpl; [reflexivity|].
  rewrite (bind_Ok _ _ _ _ _ (H x (or_introl eq_refl))).
  destruct (q x); simpl; [reflexivity|].
  apply IH. intros; apply H; simpl; auto.
Qed.

Lemma firstSome_Some {A B : Type} (q : A -> option B) l b :
  firstSome q l = Some b -> exists x, In x l /\ q x = Some b.
Proof.
  induction l as [|x l IH]; simpl; [discriminate|].
  destruct (q x) as [b'|] eqn:E.
  - intros [= <-]. eauto.
  - intros H. destruct (IH H) as (y & Hy & Hq). eauto.
Qed.

Lemma firstSome_None {A B : Type} (q : A -> option B) l :
  firstSome q l = None -> forall x, In x l -> q x = None.
Proof.
  induction l as [|x l IH]; simpl; [tauto|].
  destruct (q x) as [b'|] eqn:E; [discriminate|].
  intros H y [<-|Hy]; auto.
Qed.

Lemma block_start_lt r i : r < SIZE -> i < BLOCK_SIZE -> r / BLOCK_SIZE * BLOCK_SIZE + i < SIZE.
Proof.
  unfold SIZE, BLOCK_SIZE. intros Hr Hi.
  do 4 (destruct r as [|r]; [simpl; lia|]). lia.
Qed.

(** [isValid] reads the board and changes nothing. *)
Lemma isValid_refines s b g row col val :
  repr (heap s) b g -> List.length g = SIZE -> row < SIZE ->
  isValid b row col val s = (Ok (isValid_model g row col val), s).
Proof.
  intros H Hl Hr. unfold isValid, isValid_model.
  erewrite bind_Ok.
  2:{ apply existsM_pure with
        (q := fun c => strictEq (look g row c) val && negb (c =? col)).
      intros c _. erewrite bind_Ok by (apply readCell_repr; eauto; lia).
      reflexivity. }
  destruct (existsb _ (seq 0 SIZE)); cbn [negb andb]; [reflexivity|].
  erewrite bind_Ok.
  2:{ apply existsM_pure with
        (q := fun r => strictEq (look g r col) val && negb (r =? row)).
      intros r Hin. apply in_seq in Hin.
      erewrite bind_Ok by (apply readCell_repr; eauto; lia).
      reflexivity. }
  destruct (existsb _ (seq 0 SIZE)); cbn [negb andb]; [reflexivity|].
  erewrite bind_Ok.
  2:{ apply existsM_pure with
        (q := fun r => existsb (fun c =>
                strictEq (look g (row / BLOCK_SIZE * BLOCK_SIZE + r)
                                 (col / BLOCK_SIZE * BLOCK_SIZE + c)) val &&
                (negb (row / BLOCK_SIZE * BLOCK_SIZE + r =? row)
                 || negb (col / BLOCK_SIZE * BLOCK_SIZE + c =? col)))
              (seq 0 BLOCK_SIZE)).
      intros r Hin. apply in_seq in Hin.
      apply existsM_pure. intros c _.
      erewrite bind_Ok.
      2:{ apply readCell_repr; eauto. rewrite Hl. apply block_start_lt; lia. }
      reflexivity. }
  destruct (existsb _ (seq 0 BLOCK_SIZE)); reflexivity.
Qed.

Lemma firstEmpty_refines s b g :
  repr (heap s) b g -> List.length g = SIZE ->
  firstEmpty b s = (Ok (firstEmpty_model g), s).
Proof.
  intros H Hl. unfold firstEmpty, firstEmpty_model.
  apply firstM_pure. intros row Hin. apply in_seq in Hin.
  apply firstM_pure. intros col _.
  erewrite bind_Ok by (apply readCell_repr; eauto; lia).
  reflexivity.
Qed.

Lemma firstEmpty_model_Some g r c :
  square g -> firstEmpty_model g = Some (r, c) ->
  r < SIZE /\ c < SIZE /\ cell g r c = EMPTY.
Proof.
  intros Hs H. unfold firstEmpty_model in H.
  apply firstSome_Some in H as (row & Hrow & H).
  apply firstSome_Some in H as (col & Hcol & H).
  apply in_seq in Hrow, Hcol.
  cbv beta in H. rewrite look_cell in H by (auto; lia). cbn [strictEq] in H.
  destruct (String.eqb_spec (cell g row col) EMPTY); [|discriminate].
  injection H as <- <-. repeat split; auto; lia.
Qed.

Lemma firstEmpty_model_None g r c :
  square g -> firstEmpty_model g = None -> r < SIZE -> c < SIZE ->
  cell g r c <> EMPTY.
Proof.
  intros Hs H Hr Hc. unfold firstEmpty_model in H.
  assert (Hinr : In r (seq 0 SIZE)) by (apply in_seq; lia).
  assert (Hinc : In c (seq 0 SIZE)) by (apply in_seq; lia).
  pose proof (firstSome_None _ _ H r Hinr) as H1. cbv beta in H1.
  pose proof (firstSome_None _ _ H1 c Hinc) as H2. cbv beta in H2.
  rewrite look_cell in H2 by auto. cbn [strictEq] in H2.
  destruct (String.eqb_spec (cell g r c) EMPTY); [discriminate|auto].
Qed.

(* ====================================================================== *)
(** * Facts on the constraints                                            *)
(* ====================================================================== *)

(* ---------------------------------------------------------------------- *)
(** ** What [isValid] decides                                             *)
(* ---------------------------------------------------------------------- *)

Lemma sameBlock_offsets r r' :
  r < SIZE -> r' < SIZE ->
  (r' / BLOCK_SIZE = r / BLOCK_SIZE <->
   exists i, i < BLOCK_SIZE /\ r' = r / BLOCK_SIZE * BLOCK_SIZE + i).
Proof.
  unfold SIZE, BLOCK_SIZE. intros Hr Hr'.
  assert (Hd : forall n, n < 4 -> n = n / 2 * 2 + n mod 2 /\ n mod 2 < 2 /\ n / 2 < 2).
  { intros n Hn. do 4 (destruct n as [|n]; [cbn; lia|]). lia. }
  destruct (Hd r Hr) as (E & M & D), (Hd r' Hr') as (E' & M' & D').
  split.
  - intros H. exists (r' mod 2). split; [lia|]. rewrite <- H. exact E'.
  - intros (i & Hi & ->).
    rewrite Nat.div_add_l by lia. rewrite (Nat.div_small i 2) by lia. lia.
Qed.

Lemma strictEq_look g r c v :
  square g -> r < SIZE -> c < SIZE ->
  strictEq (look g r c) v = true <-> cell g r c = v.
Proof.
  intros. rewrite look_cell by auto. simpl. apply String.eqb_eq.
Qed.

Lemma isValid_model_false g r c v :
  square g -> r < SIZE -> c < SIZE ->
  (isValid_model g r c v = false <->
   exists r' c', r' < SIZE /\ c' < SIZE /\ peers r c r' c' /\ cell g r' c' = v).
Proof.
  intros Hs Hr Hc. unfold isValid_model. cbv zeta.
  rewrite !andb_false_iff, !negb_false_iff, !existsb_exists.
  split.
  - intros [[(c' & Hin & H) | (r' & Hin & H)] | (i & Hi & H)].
    + apply in_seq in Hin. apply andb_true_iff in H as [H1 H2].
      apply strictEq_look in H1; auto; try lia.
      apply negb_true_iff, Nat.eqb_neq in H2.
      exists r, c'. repeat split; auto; try lia. congruence.
    + apply in_seq in Hin. apply andb_true_iff in H as [H1 H2].
      apply strictEq_look in H1; auto; try lia.
      apply negb_true_iff, Nat.eqb_neq in H2.
      exists r', c. repeat split; auto; try lia. congruence.
    + apply existsb_exists in H as (j & Hj & H).
      apply in_seq in Hi, Hj. apply andb_true_iff in H as [H1 H2].
      assert (Hr' : r / BLOCK_SIZE * BLOCK_SIZE + i < SIZE)
        by (apply block_start_lt; lia).
      assert (Hc' : c / BLOCK_SIZE * BLOCK_SIZE + j < SIZE)
        by (apply block_start_lt; lia).
      apply strictEq_look in H1; auto.
      exists (r / BLOCK_SIZE * BLOCK_SIZE + i), (c / BLOCK_SIZE * BLOCK_SIZE + j).
      repeat split; auto.
      * intros E.
        apply orb_true_iff in H2 as [H2|H2];
          apply negb_true_iff, Nat.eqb_neq in H2; apply H2; congruence.
      * right; right. split; apply sameBlock_offsets; auto;
          eexists; split; eauto; lia.
  - intros (r' & c' & Hr' & Hc' & [Hne Hp] & Hv).
    destruct (Nat.eq_dec r' r) as [->|Hrr].
    { left; left. exists c'. split; [apply in_seq; lia|].
      apply andb_true_iff; split; [apply strictEq_look; auto|].
      apply negb_true_iff, Nat.eqb_neq. congruence. }
    destruct (Nat.eq_dec c' c) as [->|Hcc].
    { left; right. exists r'. split; [apply in_seq; lia|].
      apply andb_true_iff; split; [apply strictEq_look; auto|].
      apply negb_true_iff, Nat.eqb_neq. congruence. }
    destruct Hp as [?|[?|[Hb1 Hb2]]]; try contradiction.
    apply sameBlock_offsets in Hb1 as (i & Hi & Ei); auto.
    apply sameBlock_offsets in Hb2 as (j & Hj & Ej); auto.
    right. exists i. split; [apply in_seq; lia|].
    apply existsb_exists. exists j. split; [apply in_seq; lia|].
    rewrite <- Ei, <- Ej.
    apply andb_true_iff; split; [apply strictEq_look; auto|].
    apply orb_true_iff; left. apply negb_true_iff, Nat.eqb_neq; auto.
Qed.

Lemma isValid_model_true g r c v :
  square g -> r < SIZE -> c < SIZE ->
  (isValid_model g r c v = true <->
   forall r' c', r' < SIZE -> c' < SIZE -> peers r c r' c' -> cell g r' c' <> v).
Proof.
  intros Hs Hr Hc. split.
  - intros H r' c' Hr' Hc' Hp Hv.
    assert (isValid_model g r c v = false); [|congruence].
    apply isValid_model_false; eauto 8.
  - intros H. destruct (isValid_model g r c v) eqn:E; auto.
    apply isValid_model_false in E as (r' & c' & Hr' & Hc' & Hp & Hv); auto.
    exfalso. exact (H r' c' Hr' Hc' Hp Hv).
Qed.

Lemma peers_sym r c r' c' : peers r c r' c' -> peers r' c' r c.
Proof.
  unfold peers, sameBlock. intros [Hne H]. split; [congruence|].
  destruct H as [->|[->|[H1 H2]]]; auto.
Qed.

(* ---------------------------------------------------------------------- *)
(** ** Units and peers                                                    *)
(* ---------------------------------------------------------------------- *)

Lemma posEqb_eq p q : posEqb p q = true <-> p = q.
Proof.
  destruct p as [a b], q as [a' b']. unfold posEqb; simpl.
  rewrite andb_true_iff, !Nat.eqb_eq. split; [intros [-> ->]|intros [= -> ->]]; auto.
Qed.

Lemma peersb_spec r c r' c' : peersb r c r' c' = true <-> peers r c r' c'.
Proof.
  unfold peersb, peers, sameBlock.
  rewrite andb_true_iff, negb_true_iff, andb_false_iff, !orb_true_iff,
    andb_true_iff, !Nat.eqb_eq, !Nat.eqb_neq.
  split; intros [H1 H2]; (split; [|tauto]).
  - intros E. injection E as -> ->. tauto.
  - destruct (Nat.eq_dec r' r) as [->|]; [|auto].
    destruct (Nat.eq_dec c' c) as [->|]; [congruence|auto].
Qed.

Lemma in_allPositions r c : In (r, c) allPositions <-> r < SIZE /\ c < SIZE.
Proof.
  unfold allPositions. rewrite in_flat_map. split.
  - intros (r' & Hr & H). apply in_map_iff in H as (c' & [= <- <-] & Hc).
    apply in_seq in Hr, Hc. lia.
  - intros [Hr Hc]. exists r. split; [apply in_seq; lia|].
    apply in_map_iff. exists c. split; auto. apply in_seq; lia.
Qed.

Lemma allPositions_NoDup : NoDup allPositions.
Proof. repeat constructor; simpl; intuition discriminate. Qed.

(** Two different cells of a unit are peers, and units lie on the board. *)
Lemma units_peers u p q :
  In u units -> In p u -> In q u ->
  fst p < SIZE /\ snd p < SIZE /\
  (p <> q -> peers (fst p) (snd p) (fst q) (snd q)).
Proof.
  assert (H : forallb (fun u => forallb (fun p =>
                (fst p <? SIZE) && (snd p <? SIZE) &&
                forallb (fun q => posEqb q p || peersb (fst p) (snd p) (fst q) (snd q)) u)
              u) units = true) by (vm_compute; reflexivity).
  intros Hu Hp Hq.
  rewrite forallb_forall in H. specialize (H u Hu).
  rewrite forallb_forall in H. specialize (H p Hp).
  rewrite !andb_true_iff, !Nat.ltb_lt in H. destruct H as [[H1 H2] H].
  split; [auto|split; [auto|]]. intros Hne.
  rewrite forallb_forall in H. specialize (H q Hq).
  apply orb_true_iff in H as [H|H].
  - apply posEqb_eq in H. congruence.
  - now apply peersb_spec.
Qed.

(** Two peers share a unit. *)
Lemma peers_unit r c r' c' :
  r < SIZE -> c < SIZE -> r' < SIZE -> c' < SIZE -> peers r c r' c' ->
  exists u, In u units /\ In (r, c) u /\ In (r', c') u.
Proof.
  assert (H : forallb (fun p => forallb (fun q =>
                negb (peersb (fst p) (snd p) (fst q) (snd q)) ||
                existsb (fun u => existsb (posEqb p) u && existsb (posEqb q) u) units)
              allPositions) allPositions = true) by (vm_compute; reflexivity).
  intros Hr Hc Hr' Hc' Hp.
  rewrite forallb_forall in H.
  specialize (H (r, c) (proj2 (in_allPositions r c) (conj Hr Hc))).
  rewrite forallb_forall in H.
  specialize (H (r', c') (proj2 (in_allPositions r' c') (conj Hr' Hc'))).
  cbn [fst snd] in H. apply peersb_spec in Hp. rewrite Hp in H.
  cbn [negb orb] in H.
  apply existsb_exists in H as (u & Hu & H).
  apply andb_true_iff in H as [H1 H2].
  apply existsb_exists in H1 as (p & Hp1 & E1). apply posEqb_eq in E1. subst p.
  apply existsb_exists in H2 as (q & Hq1 & E2). apply posEqb_eq in E2. subst q.
  eauto.
Qed.

Lemma units_NoDup u : In u units -> NoDup u /\ List.length u = SIZE.
Proof.
  intros H. simpl in H.
  repeat (destruct H as [<-|H];
          [split; [repeat constructor; simpl; intuition discriminate|reflexivity]|]).
  contradiction.
Qed.

Lemma rowPositions_unit r c : r < SIZE -> c < SIZE ->
  In (rowPositions r) units /\ In (r, c) (rowPositions r).
Proof.
  intros Hr Hc. split.
  - unfold units. apply in_or_app. left. apply in_map, in_seq. lia.
  - unfold rowPositions. apply in_map, in_seq. lia.
Qed.

(* ---------------------------------------------------------------------- *)
(** ** Solved grids                                                       *)
(* ---------------------------------------------------------------------- *)

Lemma LETTERS_NoDup : NoDup LETTERS.
Proof. repeat constructor; simpl; intuition discriminate. Qed.

Lemma EMPTY_not_letter : ~ In EMPTY LETTERS.
Proof. simpl; intuition discriminate. Qed.

Lemma onceEach_iff cells :
  List.length cells = SIZE ->
  (onceEach cells <-> NoDup cells /\ incl cells LETTERS).
Proof.
  intros Hl. unfold onceEach. split.
  - intros H.
    assert (Hi : incl LETTERS cells).
    { intros v Hv. apply (count_occ_In string_dec). rewrite (H v Hv). lia. }
    split.
    + apply (NoDup_incl_NoDup LETTERS_NoDup); auto. rewrite Hl. unfold SIZE. simpl. lia.
    + apply (NoDup_length_incl LETTERS_NoDup); auto. rewrite Hl. unfold SIZE. simpl. lia.
  - intros [Hnd Hi] v Hv.
    apply NoDup_count_occ'; auto.
    assert (Hi' : incl LETTERS cells).
    { apply NoDup_length_incl; auto. rewrite Hl. unfold SIZE. simpl. lia. }
    now apply Hi'.
Qed.

Lemma NoDup_map_on {A B : Type} (f : A -> B) l :
  NoDup l -> (forall x y, In x l -> In y l -> f x = f y -> x = y) ->
  NoDup (map f l).
Proof.
  induction 1 as [|x l Hx Hnd IH]; intros Hinj; simpl; constructor.
  - intros Hin. apply in_map_iff in Hin as (y & Hy & Hin).
    assert (y = x) by (apply Hinj; simpl; auto). subst. contradiction.
  - apply IH. intros; apply Hinj; simpl; auto.
Qed.

Lemma NoDup_map_inj_on {A B : Type} (f : A -> B) l x y :
  NoDup (map f l) -> In x l -> In y l -> f x = f y -> x = y.
Proof.
  induction l as [|a l IH]; simpl; [tauto|].
  intros Hnd Hx Hy E. inversion Hnd as [|? ? Hna Hnd']; subst.
  destruct Hx as [->|Hx], Hy as [->|Hy]; auto.
  - exfalso. apply Hna. rewrite E. now apply in_map.
  - exfalso. apply Hna. rewrite <- E. now apply in_map.
Qed.

Lemma cellsAt_length g u : List.length (cellsAt g u) = List.length u.
Proof. apply length_map. Qed.

Lemma solvedGrid_letters G r c :
  solvedGrid G -> r < SIZE -> c < SIZE -> In (cell G r c) LETTERS.
Proof.
  intros [Hs Hu] Hr Hc.
  destruct (rowPositions_unit r c Hr Hc) as [Hin Hp].
  specialize (Hu _ Hin).
  apply onceEach_iff in Hu as [_ Hi].
  - apply Hi. unfold cellsAt. apply in_map_iff. exists (r, c). auto.
  - rewrite cellsAt_length. now apply units_NoDup.
Qed.

Lemma solvedGrid_noConflict G : solvedGrid G -> noConflict G.
Proof.
  intros [Hs Hu] r c r' c' Hr Hc Hr' Hc' Hp _ E.
  destruct (peers_unit r c r' c' Hr Hc Hr' Hc' Hp) as (u & Hin & H1 & H2).
  specialize (Hu _ Hin).
  apply onceEach_iff in Hu as [Hnd _];
    [|rewrite cellsAt_length; now apply units_NoDup].
  assert ((r', c') = (r, c)); [|destruct Hp; contradiction].
  eapply (NoDup_map_inj_on _ _ _ _ Hnd); eauto.
Qed.

Lemma solvedGrid_isGrid G : solvedGrid G -> isGrid G.
Proof.
  intros H. split; [apply H|]. intros; right. now apply solvedGrid_letters.
Qed.

Lemma solvedGrid_full G r c :
  solvedGrid G -> r < SIZE -> c < SIZE -> cell G r c <> EMPTY.
Proof.
  intros H Hr Hc E. apply EMPTY_not_letter. rewrite <- E.
  now apply solvedGrid_letters.
Qed.

(** A grid with no empty cell and no conflict is solved. *)
Lemma full_noConflict_solved g :
  isGrid g -> noConflict g ->
  (forall r c, r < SIZE -> c < SIZE -> cell g r c <> EMPTY) ->
  solvedGrid g.
Proof.
  intros [Hs Hg] Hnc Hfull. split; auto. intros u Hu.
  destruct (units_NoDup u Hu) as [Hnd Hl].
  apply onceEach_iff; [now rewrite cellsAt_length|]. split.
  - apply NoDup_map_on; auto.
    intros [r c] [r' c'] Hp Hq E. simpl in E.
    destruct (units_peers u _ _ Hu Hp Hq) as (Hr & Hc & Hpeers).
    destruct (units_peers u _ _ Hu Hq Hp) as (Hr' & Hc' & _).
    simpl in *.
    destruct (posEqb (r, c) (r', c')) eqn:Eb; [now apply posEqb_eq|].
    exfalso. apply (Hnc r c r' c' Hr Hc Hr' Hc'); [|now apply Hfull|now symmetry].
    apply Hpeers. intros E'. apply posEqb_eq in E'. congruence.
  - intros v Hv. apply in_map_iff in Hv as ([r c] & <- & Hp).
    destruct (units_peers u _ _ Hu Hp Hp) as (Hr & Hc & _). simpl in *.
    destruct (Hg r c Hr Hc) as [E|]; auto.
    exfalso. exact (Hfull r c Hr Hc E).
Qed.

(* ---------------------------------------------------------------------- *)
(** ** Placing a value, and what it does to the completions               *)
(* ---------------------------------------------------------------------- *)

Lemma isGrid_setCell g r c v :
  isGrid g -> r < SIZE -> c < SIZE -> v = EMPTY \/ In v LETTERS ->
  isGrid (setCell g r c v).
Proof.
  intros [Hs Hg] Hr Hc Hv. split; [now apply square_setCell|].
  intros r' c' Hr' Hc'. rewrite cell_setCell by auto.
  destruct ((r' =? r) && (c' =? c)); auto.
Qed.

Lemma noConflict_setCell g r c v :
  square g -> noConflict g -> r < SIZE -> c < SIZE ->
  isValid_model g r c v = true -> noConflict (setCell g r c v).
Proof.
  intros Hs Hnc Hr Hc Hv.
  rewrite isValid_model_true in Hv by auto.
  intros r1 c1 r2 c2 Hr1 Hc1 Hr2 Hc2 Hp.
  rewrite !cell_setCell by auto.
  destruct ((r1 =? r) && (c1 =? c)) eqn:E1, ((r2 =? r) && (c2 =? c)) eqn:E2.
  - apply andb_true_iff in E1 as [?%Nat.eqb_eq ?%Nat.eqb_eq].
    apply andb_true_iff in E2 as [?%Nat.eqb_eq ?%Nat.eqb_eq].
    subst. destruct Hp as [Hne _]. congruence.
  - apply andb_true_iff in E1 as [?%Nat.eqb_eq ?%Nat.eqb_eq]. subst.
    intros _. now apply Hv.
  - apply andb_true_iff in E2 as [?%Nat.eqb_eq ?%Nat.eqb_eq]. subst.
    intros _ E. apply (Hv r1 c1 Hr1 Hc1); auto. now apply peers_sym.
  - now apply Hnc.
Qed.

Lemma noConflict_blank g r c :
  square g -> noConflict g -> r < SIZE -> c < SIZE ->
  noConflict (setCell g r c EMPTY).
Proof.
  intros Hs Hnc Hr Hc r1 c1 r2 c2 Hr1 Hc1 Hr2 Hc2 Hp.
  rewrite !cell_setCell by auto.
  destruct ((r1 =? r) && (c1 =? c)); [congruence|].
  destruct ((r2 =? r) && (c2 =? c)); [congruence|].
  now apply Hnc.
Qed.

Lemma agrees_refl g : agrees g g.
Proof. intros r c _ _ _. reflexivity. Qed.

Lemma agrees_trans g1 g2 g3 : agrees g1 g2 -> agrees g2 g3 -> agrees g1 g3.
Proof.
  intros H12 H23 r c Hr Hc Hne.
  rewrite <- (H12 r c Hr Hc Hne). apply H23; auto.
  now rewrite (H12 r c Hr Hc Hne).
Qed.

Lemma agrees_blank g r c :
  square g -> r < SIZE -> c < SIZE -> agrees (setCell g r c EMPTY) g.
Proof.
  intros Hs Hr Hc r' c' Hr' Hc'. rewrite cell_setCell by auto.
  destruct ((r' =? r) && (c' =? c)); congruence.
Qed.

Lemma agrees_noConflict g G : agrees g G -> noConflict G -> noConflict g.
Proof.
  intros Ha Hnc r c r' c' Hr Hc Hr' Hc' Hp Hne E.
  assert (Hne' : cell g r' c' <> EMPTY) by congruence.
  apply (Hnc r c r' c' Hr Hc Hr' Hc' Hp).
  - rewrite (Ha r c Hr Hc Hne). auto.
  - rewrite (Ha r c Hr Hc Hne), (Ha r' c' Hr' Hc' Hne'). auto.
Qed.

Lemma completion_place g G r c :
  square g -> r < SIZE -> c < SIZE -> cell g r c = EMPTY -> completion g G ->
  In (cell G r c) LETTERS /\
  isValid_model g r c (cell G r c) = true /\
  completion (setCell g r c (cell G r c)) G.
Proof.
  intros Hs Hr Hc He [HG Ha].
  assert (HL : In (cell G r c) LETTERS) by now apply solvedGrid_letters.
  split; [auto|split].
  - apply isValid_model_true; auto.
    intros r' c' Hr' Hc' Hp E.
    assert (Hne : cell g r' c' <> EMPTY).
    { intros E'. apply EMPTY_not_letter. congruence. }
    apply (solvedGrid_noConflict G HG r c r' c' Hr Hc Hr' Hc' Hp).
    + now apply solvedGrid_full.
    + rewrite (Ha r' c' Hr' Hc' Hne). auto.
  - split; auto. intros r' c' Hr' Hc'. rewrite cell_setCell by auto.
    destruct ((r' =? r) && (c' =? c)) eqn:E; [|now apply Ha].
    apply andb_true_iff in E as [?%Nat.eqb_eq ?%Nat.eqb_eq]. subst. auto.
Qed.

Lemma completion_unplace g G r c v :
  square g -> r < SIZE -> c < SIZE -> cell g r c = EMPTY ->
  completion (setCell g r c v) G ->
  completion g G /\ (v <> EMPTY -> cell G r c = v).
Proof.
  intros Hs Hr Hc He [HG Ha]. split.
  - split; auto. intros r' c' Hr' Hc' Hne.
    specialize (Ha r' c' Hr' Hc'). rewrite cell_setCell in Ha by auto.
    destruct ((r' =? r) && (c' =? c)) eqn:E; [|now apply Ha].
    apply andb_true_iff in E as [?%Nat.eqb_eq ?%Nat.eqb_eq]. subst. congruence.
  - intros Hv. specialize (Ha r c Hr Hc).
    rewrite cell_setCell_eq in Ha by auto. auto.
Qed.

Lemma completion_full g G :
  square g -> (forall r c, r < SIZE -> c < SIZE -> cell g r c <> EMPTY) ->
  completion g G -> G = g.
Proof.
  intros Hs Hfull [HG Ha]. apply grid_ext; [apply HG|exact Hs|].
  intros r c Hr Hc. apply Ha; auto.
Qed.

(** A completion of a grid is a completion of every grid with fewer
    filled cells. *)
Lemma completion_mono g g' G : agrees g' g -> completion g G -> completion g' G.
Proof. intros H [HG Ha]. split; auto. eapply agrees_trans; eauto. Qed.

(* ---------------------------------------------------------------------- *)
(** ** The measure of the searches                                        *)
(* ---------------------------------------------------------------------- *)

Lemma filter_length_mono {A : Type} (f f' : A -> bool) l :
  (forall x, In x l -> f' x = true -> f x = true) ->
  List.length (filter f' l) <= List.length (filter f l).
Proof.
  induction l as [|a l IH]; intros H; simpl; auto.
  assert (IH' := IH (fun x Hx => H x (or_intror Hx))).
  specialize (H a (or_introl eq_refl)).
  destruct (f' a), (f a); simpl; try lia;
    try (specialize (H eq_refl); discriminate).
Qed.

Lemma filter_length_strict {A : Type} (f f' : A -> bool) l p :
  (forall x, In x l -> f' x = true -> f x = true) ->
  In p l -> f p = true -> f' p = false ->
  List.length (filter f' l) < List.length (filter f l).
Proof.
  induction l as [|a l IH]; intros H Hin Hp Hp'; simpl; [contradiction|].
  assert (Hle := filter_length_mono f f' l (fun x Hx => H x (or_intror Hx))).
  destruct Hin as [->|Hin].
  - rewrite Hp, Hp'. simpl. lia.
  - assert (IH' := IH (fun x Hx => H x (or_intror Hx)) Hin Hp Hp').
    specialize (H a (or_introl eq_refl)).
    destruct (f' a), (f a); simpl; try lia;
      try (specialize (H eq_refl); discriminate).
Qed.

Lemma emptyCount_bound g : emptyCount g <= SIZE * SIZE.
Proof.
  unfold emptyCount. apply (filter_length_le _ allPositions).
Qed.

Lemma emptyCount_place g r c v :
  square g -> r < SIZE -> c < SIZE -> cell g r c = EMPTY -> v <> EMPTY ->
  emptyCount (setCell g r c v) < emptyCount g.
Proof.
  intros Hs Hr Hc He Hv. unfold emptyCount.
  apply filter_length_strict with (p := (r, c)).
  - intros [r' c'] _. simpl. rewrite cell_setCell by auto.
    destruct ((r' =? r) && (c' =? c)); auto.
    intros E. apply String.eqb_eq in E. contradiction.
  - now apply in_allPositions.
  - simpl. now apply String.eqb_eq.
  - simpl. rewrite cell_setCell_eq by auto. now apply String.eqb_neq.
Qed.

Lemma letter_not_EMPTY v : In v LETTERS -> v <> EMPTY.
Proof. intros H ->. now apply EMPTY_not_letter. Qed.

(* ====================================================================== *)
(** * The search of [solve] is sound and complete                         *)
(* ====================================================================== *)

Lemma tryCandidates_model_correct recur r c candidates g rnd :
  isGrid g -> noConflict g -> r < SIZE -> c < SIZE -> cell g r c = EMPTY ->
  (forall v, In v candidates -> In v LETTERS) ->
  (forall g1 rnd1, isGrid g1 -> noConflict g1 -> emptyCount g1 < emptyCount g ->
                   solveSpec g1 (recur g1 rnd1)) ->
  match fst (tryCandidates_model recur r c candidates g rnd) with
  | Some g' => completion g g'
  | None => forall G, completion g G -> ~ In (cell G r c) candidates
  end.
Proof.
  intros Hg Hnc Hr Hc He Hcs Hrec. revert rnd.
  induction candidates as [|v rest IH]; intros rnd; simpl; [auto|].
  assert (Hs : square g) by apply Hg.
  assert (Hv : In v LETTERS) by (apply Hcs; simpl; auto).
  assert (IH' := IH (fun x Hx => Hcs x (or_intror Hx))).
  destruct (isValid_model g r c v) eqn:Ev.
  - assert (H1 : solveSpec (setCell g r c v) (recur (setCell g r c v) rnd)).
    { apply Hrec.
      - apply isGrid_setCell; auto.
      - apply noConflict_setCell; auto.
      - apply emptyCount_place; auto using letter_not_EMPTY. }
    unfold solveSpec in H1.
    destruct (recur (setCell g r c v) rnd) as [[g'|] rnd']; simpl in *.
    + exact (proj1 (completion_unplace g g' r c v Hs Hr Hc He H1)).
    + specialize (IH' rnd').
      destruct (fst (tryCandidates_model recur r c rest g rnd')); auto.
      intros G HG [E|Hin]; [|now apply (IH' G)].
      destruct (completion_place g G r c Hs Hr Hc He HG) as (_ & _ & HG').
      rewrite <- E in HG'. now apply (H1 G).
  - specialize (IH' rnd).
    destruct (fst (tryCandidates_model recur r c rest g rnd)); auto.
    intros G HG [E|Hin]; [|now apply (IH' G)].
    destruct (completion_place g G r c Hs Hr Hc He HG) as (_ & Ev' & _).
    congruence.
Qed.

Lemma firstEmpty_None_solved g :
  isGrid g -> noConflict g -> firstEmpty_model g = None -> solvedGrid g.
Proof.
  intros Hg Hnc H. apply full_noConflict_solved; auto.
  intros r c. apply firstEmpty_model_None; auto. apply Hg.
Qed.

Lemma candidates_letters (randomized : bool) (rnd : rng) :
  Permutation
    (fst (if randomized then shuffle LETTERS rnd else (LETTERS, rnd))) LETTERS.
Proof. destruct randomized; [apply shuffle_perm|reflexivity]. Qed.

Lemma solve_model_correct fuel randomized g rnd :
  isGrid g -> noConflict g -> emptyCount g < fuel ->
  solveSpec g (solve_model fuel randomized g rnd).
Proof.
  revert g rnd. induction fuel as [|fuel IH]; intros g rnd Hg Hnc Hf; [lia|].
  simpl. unfold solveSpec.
  destruct (firstEmpty_model g) as [[r c]|] eqn:E.
  - destruct (firstEmpty_model_Some g r c (proj1 Hg) E) as (Hr & Hc & He).
    pose proof (candidates_letters randomized rnd) as Hperm.
    destruct (if randomized then shuffle LETTERS rnd else (LETTERS, rnd))
      as [candidates rnd'].
    simpl in Hperm.
    assert (H := tryCandidates_model_correct (solve_model fuel randomized)
                   r c candidates g rnd' Hg Hnc Hr Hc He
                   (fun v Hv => @Permutation_in _ _ _ v Hperm Hv)
                   (fun g1 rnd1 H1 H2 H3 => IH g1 rnd1 H1 H2 ltac:(lia))).
    destruct (fst (tryCandidates_model _ r c candidates g rnd')); auto.
    intros G HG. apply (H G HG).
    apply Permutation_in with (l := LETTERS); [now apply Permutation_sym|].
    apply solvedGrid_letters; auto. apply HG.
  - simpl. split; [now apply firstEmpty_None_solved|apply agrees_refl].
Qed.

(* ====================================================================== *)
(** * [solve] refines its model                                           *)
(* ====================================================================== *)

Lemma unchangedOutside_refl b h : unchangedOutside b h h.
Proof. split; auto. Qed.

Lemma unchangedOutside_trans b h1 h2 h3 :
  unchangedOutside b h1 h2 -> unchangedOutside b h2 h3 -> unchangedOutside b h1 h3.
Proof.
  intros [L1 H1] [L2 H2]. split; [congruence|].
  intros l Hl. rewrite H2, H1; auto.
Qed.

Lemma tryCandidates_refines recur recurM b r c :
  NoDup b -> r < SIZE -> c < SIZE ->
  forall candidates s g,
    repr (heap s) b g -> square g -> cell g r c = EMPTY ->
    (forall v, In v candidates -> v <> EMPTY) ->
    (forall s1 g1, repr (heap s1) b g1 -> square g1 ->
                   emptyCount g1 < emptyCount g ->
                   runsAs b recur s1 g1 (recurM g1 (gen s1))) ->
    runsAs b (tryCandidates recur b r c candidates) s g
      (tryCandidates_model recurM r c candidates g (gen s)).
Proof.
  intros Hnd Hr Hc.
  induction candidates as [|v rest IH]; intros s g Hrep Hs He Hcs Hrec.
  - exists s. simpl. repeat split; auto.
  - assert (Hl : List.length g = SIZE) by apply Hs.
    assert (IH' := fun s0 H0 => IH s0 g H0 Hs He
                     (fun x Hx => Hcs x (or_intror Hx)) Hrec).
    unfold runsAs. simpl.
    rewrite (bind_Ok _ _ _ _ _ (isValid_refines s b g r c v Hrep Hl Hr)).
    destruct (isValid_model g r c v); [|exact (IH' s Hrep)].
    destruct (writeCell_repr s b g r c v Hrep Hnd Hs Hr Hc)
      as (s1 & Hw & Hg1 & Hrep1 & Hout1).
    rewrite (bind_Ok _ _ _ _ _ Hw).
    assert (Hs1 : square (setCell g r c v)) by now apply square_setCell.
    destruct (Hrec s1 _ Hrep1 Hs1) as (s2 & Hrun & Hg2 & Hrep2 & Hout2).
    { apply emptyCount_place; auto. apply Hcs; simpl; auto. }
    rewrite (bind_Ok _ _ _ _ _ Hrun). rewrite Hg1 in *.
    assert (Hout12 := unchangedOutside_trans _ _ _ _ Hout1 Hout2).
    destruct (recurM (setCell g r c v) (gen s)) as [[g'|] rnd']; cbn [fst snd] in *.
    + exists s2. auto.
    + destruct (writeCell_repr s2 b _ r c EMPTY Hrep2 Hnd Hs1 Hr Hc)
        as (s3 & Hw3 & Hg3 & Hrep3 & Hout3).
      rewrite (bind_Ok _ _ _ _ _ Hw3).
      pose proof (setCell_restore g r c v Hs Hr Hc) as Hback.
      rewrite He in Hback. rewrite Hback in Hrep3.
      destruct (IH' s3 Hrep3) as (s4 & Hrun4 & Hg4 & Hrep4 & Hout4).
      rewrite Hg3, Hg2 in *.
      exists s4. split; [exact Hrun4|]. split; [exact Hg4|]. split; [exact Hrep4|].
      eapply unchangedOutside_trans; [|exact Hout4].
      eapply unchangedOutside_trans; [exact Hout12|exact Hout3].
Qed.

Lemma solve_fuel_refines fuel b randomized :
  NoDup b ->
  forall s g,
    repr (heap s) b g -> square g -> emptyCount g < fuel ->
    runsAs b (solve_fuel fuel b randomized) s g
      (solve_model fuel randomized g (gen s)).
Proof.
  intros Hnd. induction fuel as [|fuel IH]; intros s g Hrep Hs Hf; [lia|].
  unfold runsAs. simpl.
  rewrite (bind_Ok _ _ _ _ _ (firstEmpty_refines s b g Hrep (proj1 Hs))).
  destruct (firstEmpty_model g) as [[r c]|] eqn:E.
  2:{ exists s. simpl. repeat split; auto. }
  destruct (firstEmpty_model_Some g r c Hs E) as (Hr & Hc & He).
  pose proof (candidates_letters randomized (gen s)) as Hperm.
  assert (Hrec : forall s1 g1, repr (heap s1) b g1 -> square g1 ->
                   emptyCount g1 < emptyCount g ->
                   runsAs b (solve_fuel fuel b randomized) s1 g1
                     (solve_model fuel randomized g1 (gen s1))).
  { intros s1 g1 H1 H2 H3. apply IH; auto. lia. }
  destruct randomized.
  - unfold bind at 1, liftRng at 1.
    destruct (shuffle LETTERS (gen s)) as [candidates rnd'] eqn:Esh.
    simpl in Hperm.
    apply (tryCandidates_refines _ (solve_model fuel true) b r c Hnd Hr Hc
             candidates (mkState (heap s) rnd') g); auto.
    intros v Hv. apply letter_not_EMPTY.
    eapply Permutation_in; eauto.
  - unfold bind at 1, ret at 1.
    apply (tryCandidates_refines _ (solve_model fuel false) b r c Hnd Hr Hc
             LETTERS s g); auto.
    intros v Hv. now apply letter_not_EMPTY.
Qed.

Lemma solve_refines b randomized s g :
  NoDup b -> repr (heap s) b g -> square g ->
  runsAs b (solve b randomized) s g
    (solve_model (S (SIZE * SIZE)) randomized g (gen s)).
Proof.
  intros Hnd Hrep Hs. apply solve_fuel_refines; auto.
  pose proof (emptyCount_bound g). lia.
Qed.

(* ====================================================================== *)
(** * Counting completions                                                *)
(* ====================================================================== *)

Lemma completions_fuel_spec fuel g G :
  isGrid g -> noConflict g -> emptyCount g < fuel ->
  (In G (completions_fuel fuel g) <-> completion g G).
Proof.
  revert g. induction fuel as [|fuel IH]; intros g Hg Hnc Hf; [lia|].
  assert (Hs : square g) by apply Hg.
  cbn [completions_fuel]. destruct (firstEmpty_model g) as [[r c]|] eqn:E.
  - destruct (firstEmpty_model_Some g r c Hs E) as (Hr & Hc & He).
    rewrite in_flat_map. split.
    + intros (v & Hv & Hin).
      destruct (isValid_model g r c v) eqn:Ev; [|contradiction].
      apply IH in Hin.
      * exact (proj1 (completion_unplace g G r c v Hs Hr Hc He Hin)).
      * apply isGrid_setCell; auto.
      * apply noConflict_setCell; auto.
      * pose proof (emptyCount_place g r c v Hs Hr Hc He (letter_not_EMPTY v Hv)).
        lia.
    + intros HG.
      destruct (completion_place g G r c Hs Hr Hc He HG) as (Hv & Ev & HG').
      exists (cell G r c). split; auto. rewrite Ev.
      apply IH; auto.
      * apply isGrid_setCell; auto.
      * apply noConflict_setCell; auto.
      * pose proof (emptyCount_place g r c _ Hs Hr Hc He (letter_not_EMPTY _ Hv)).
        lia.
  - simpl. split.
    + intros [<-|[]]. split; [now apply firstEmpty_None_solved|apply agrees_refl].
    + intros HG. left. symmetry. apply (completion_full g G Hs); auto.
      intros r c. now apply firstEmpty_model_None.
Qed.

Lemma NoDup_flat_map_disjoint {A B : Type} (f : A -> list B) l :
  NoDup l -> (forall x, In x l -> NoDup (f x)) ->
  (forall x y z, In x l -> In y l -> In z (f x) -> In z (f y) -> x = y) ->
  NoDup (flat_map f l).
Proof.
  induction 1 as [|a l Ha Hnd IH]; intros Hf Hd; simpl; [constructor|].
  apply NoDup_app.
  - apply Hf; simpl; auto.
  - apply IH; [intros; apply Hf; simpl; auto|].
    intros x y z Hx Hy; apply Hd; simpl; auto.
  - intros z Hz Hz'. apply in_flat_map in Hz' as (y & Hy & Hz').
    assert (a = y) by (apply (Hd a y z); simpl; auto). subst. contradiction.
Qed.

Lemma completions_fuel_NoDup fuel g :
  isGrid g -> noConflict g -> emptyCount g < fuel ->
  NoDup (completions_fuel fuel g).
Proof.
  revert g. induction fuel as [|fuel IH]; intros g Hg Hnc Hf; [lia|].
  assert (Hs : square g) by apply Hg.
  cbn [completions_fuel]. destruct (firstEmpty_model g) as [[r c]|] eqn:E;
    [|repeat constructor; simpl; tauto].
  destruct (firstEmpty_model_Some g r c Hs E) as (Hr & Hc & He).
  assert (Hsub : forall v, In v LETTERS -> isValid_model g r c v = true ->
            isGrid (setCell g r c v) /\ noConflict (setCell g r c v) /\
            emptyCount (setCell g r c v) < fuel).
  { intros v Hv Ev. split; [|split].
    - apply isGrid_setCell; auto.
    - apply noConflict_setCell; auto.
    - pose proof (emptyCount_place g r c v Hs Hr Hc He (letter_not_EMPTY v Hv)).
      lia. }
  apply NoDup_flat_map_disjoint.
  - apply LETTERS_NoDup.
  - intros v Hv. destruct (isValid_model g r c v) eqn:Ev; [|constructor].
    destruct (Hsub v Hv Ev) as (H1 & H2 & H3). now apply IH.
  - intros x y z Hx Hy Hzx Hzy.
    destruct (isValid_model g r c x) eqn:Ex; [|contradiction].
    destruct (isValid_model g r c y) eqn:Ey; [|contradiction].
    destruct (Hsub x Hx Ex) as (H1 & H2 & H3).
    destruct (Hsub y Hy Ey) as (H1' & H2' & H3').
    apply completions_fuel_spec in Hzx; auto.
    apply completions_fuel_spec in Hzy; auto.
    apply (completion_unplace g z r c x Hs Hr Hc He) in Hzx as [_ Hzx].
    apply (completion_unplace g z r c y Hs Hr Hc He) in Hzy as [_ Hzy].
    rewrite <- Hzx, <- Hzy; auto using letter_not_EMPTY.
Qed.

(** The counter stops at two: from [count <= 1] the search leaves
    [min 2 (count + number of completions)]. *)
Lemma countCandidates_model_spec recur (enum : grid -> list grid) r c g vals count :
  square g -> r < SIZE -> c < SIZE -> cell g r c = EMPTY ->
  (forall v, In v vals -> v <> EMPTY) ->
  (forall g1 k, square g1 -> emptyCount g1 < emptyCount g -> k <= 1 ->
                recur g1 k = Nat.min 2 (k + List.length (enum g1))) ->
  count <= 1 ->
  countCandidates_model recur r c vals g count =
    Nat.min 2 (count + List.length (flat_map (fun val =>
                 if isValid_model g r c val then enum (setCell g r c val) else [])
               vals)).
Proof.
  intros Hs Hr Hc He Hvs Hrec. revert count.
  induction vals as [|v rest IH]; intros count Hcount;
    cbn [countCandidates_model flat_map List.length]; [lia|].
  assert (IH' := IH (fun x Hx => Hvs x (or_intror Hx))).
  rewrite length_app.
  destruct (isValid_model g r c v).
  - rewrite Hrec; auto.
    2:{ now apply square_setCell. }
    2:{ apply emptyCount_place; auto. apply Hvs; simpl; auto. }
    destruct (Nat.ltb_spec 1 (Nat.min 2 (count + List.length (enum (setCell g r c v))))).
    + lia.
    + rewrite IH' by lia. lia.
  - rewrite IH' by lia. cbn [List.length]. lia.
Qed.

Lemma solveInternal_model_spec fuel g count :
  square g -> emptyCount g < fuel -> count <= 1 ->
  solveInternal_model fuel g count =
    Nat.min 2 (count + List.length (completions_fuel fuel g)).
Proof.
  revert g count. induction fuel as [|fuel IH]; intros g count Hs Hf Hcount; [lia|].
  cbn [solveInternal_model completions_fuel].
  destruct (firstEmpty_model g) as [[r c]|] eqn:E; [|cbn [List.length]; lia].
  destruct (firstEmpty_model_Some g r c Hs E) as (Hr & Hc & He).
  apply countCandidates_model_spec; auto.
  - intros v Hv. now apply letter_not_EMPTY.
  - intros g1 k H1 H2 H3. apply IH; auto. lia.
Qed.

Lemma countSolutions_model_spec g :
  square g ->
  countSolutions_model g = Nat.min 2 (List.length (completions g)).
Proof.
  intros Hs. unfold countSolutions_model, completions.
  rewrite solveInternal_model_spec; auto.
  pose proof (emptyCount_bound g). lia.
Qed.

Lemma completions_spec g G :
  isGrid g -> noConflict g -> (In G (completions g) <-> completion g G).
Proof.
  intros. apply completions_fuel_spec; auto.
  pose proof (emptyCount_bound g). lia.
Qed.

Lemma completions_NoDup g : isGrid g -> noConflict g -> NoDup (completions g).
Proof.
  intros. apply completions_fuel_NoDup; auto.
  pose proof (emptyCount_bound g). lia.
Qed.

Lemma count_zero_iff g :
  isGrid g -> noConflict g -> (countSolutions_model g = 0 <-> noCompletion g).
Proof.
  intros Hg Hnc. rewrite countSolutions_model_spec by apply Hg.
  unfold noCompletion. split.
  - intros H G HG. apply completions_spec in HG; auto.
    destruct (completions g); [contradiction|simpl in H; lia].
  - intros H. destruct (completions g) as [|G l] eqn:E; [reflexivity|].
    exfalso. apply (H G). apply completions_spec; auto. rewrite E. simpl; auto.
Qed.

Lemma count_one_iff g :
  isGrid g -> noConflict g -> (countSolutions_model g = 1 <-> oneCompletion g).
Proof.
  intros Hg Hnc. rewrite countSolutions_model_spec by apply Hg.
  pose proof (completions_NoDup g Hg Hnc) as Hnd.
  unfold oneCompletion. split.
  - intros H. destruct (completions g) as [|G [|G' l]] eqn:E; simpl in H; try lia.
    exists G. split.
    + apply completions_spec; auto. rewrite E; simpl; auto.
    + intros G' HG'. apply completions_spec in HG'; auto.
      rewrite E in HG'. destruct HG' as [<-|[]]. reflexivity.
  - intros (G & HG & Huniq).
    destruct (completions g) as [|G1 [|G2 l]] eqn:E; simpl; auto.
    + apply completions_spec in HG; auto. rewrite E in HG. contradiction.
    + exfalso. inversion Hnd as [|? ? Hnin _]; subst. apply Hnin.
      assert (G1 = G).
      { apply Huniq, completions_spec; auto. rewrite E; simpl; auto. }
      assert (G2 = G).
      { apply Huniq, completions_spec; auto. rewrite E; simpl; auto. }
      subst. simpl; auto.
Qed.

Lemma count_two_iff g :
  isGrid g -> noConflict g -> (2 <= countSolutions_model g <-> twoCompletions g).
Proof.
  intros Hg Hnc. rewrite countSolutions_model_spec by apply Hg.
  pose proof (completions_NoDup g Hg Hnc) as Hnd.
  unfold twoCompletions. split.
  - intros H. destruct (completions g) as [|G1 [|G2 l]] eqn:E; simpl in H; try lia.
    exists G1, G2. split; [|split].
    + inversion Hnd as [|? ? Hnin _]; subst. intros ->. apply Hnin; simpl; auto.
    + apply completions_spec; auto. rewrite E; simpl; auto.
    + apply completions_spec; auto. rewrite E; simpl; auto.
  - intros (G1 & G2 & Hne & H1 & H2).
    apply completions_spec in H1, H2; auto.
    destruct (completions g) as [|Ga [|Gb l]]; simpl in *; try lia; try tauto.
    destruct H1 as [<-|[]], H2 as [<-|[]]. congruence.
Qed.

Lemma countSolutions_model_le g : square g -> countSolutions_model g <= 2.
Proof. intros Hs. rewrite countSolutions_model_spec by auto. lia. Qed.

(* ====================================================================== *)
(** * [countSolutions] refines its model                                  *)
(* ====================================================================== *)

Lemma countCandidates_refines recur recurM b r c :
  NoDup b -> r < SIZE -> c < SIZE ->
  forall vals s g count,
    repr (heap s) b g -> square g -> cell g r c = EMPTY ->
    (forall v, In v vals -> v <> EMPTY) ->
    (forall s1 g1 k, repr (heap s1) b g1 -> square g1 ->
                     emptyCount g1 < emptyCount g ->
                     countsAs b (recur k) s1 g1 (recurM g1 k)) ->
    countsAs b (countCandidates recur b r c vals count) s g
      (countCandidates_model recurM r c vals g count).
Proof.
  intros Hnd Hr Hc.
  induction vals as [|v rest IH]; intros s g count Hrep Hs He Hvs Hrec.
  - exists s. simpl. repeat split; auto.
  - assert (Hl : List.length g = SIZE) by apply Hs.
    assert (IH' := fun s0 k H0 => IH s0 g k H0 Hs He
                     (fun x Hx => Hvs x (or_intror Hx)) Hrec).
    unfold countsAs. simpl.
    rewrite (bind_Ok _ _ _ _ _ (isValid_refines s b g r c v Hrep Hl Hr)).
    destruct (isValid_model g r c v); [|exact (IH' s count Hrep)].
    destruct (writeCell_repr s b g r c v Hrep Hnd Hs Hr Hc)
      as (s1 & Hw & Hg1 & Hrep1 & Hout1).
    rewrite (bind_Ok _ _ _ _ _ Hw).
    assert (Hs1 : square (setCell g r c v)) by now apply square_setCell.
    destruct (Hrec s1 _ count Hrep1 Hs1) as (s2 & Hrun & Hg2 & Hrep2 & Hout2).
    { apply emptyCount_place; auto. apply Hvs; simpl; auto. }
    rewrite (bind_Ok _ _ _ _ _ Hrun).
    destruct (writeCell_repr s2 b _ r c EMPTY Hrep2 Hnd Hs1 Hr Hc)
      as (s3 & Hw3 & Hg3 & Hrep3 & Hout3).
    rewrite (bind_Ok _ _ _ _ _ Hw3).
    pose proof (setCell_restore g r c v Hs Hr Hc) as Hback.
    rewrite He in Hback. rewrite Hback in Hrep3.
    assert (Hout13 : unchangedOutside b (heap s) (heap s3)).
    { eapply unchangedOutside_trans; [|exact Hout3].
      eapply unchangedOutside_trans; [exact Hout1|exact Hout2]. }
    destruct (1 <? recurM (setCell g r c v) count).
    + exists s3. split; [reflexivity|]. split; [congruence|]. auto.
    + destruct (IH' s3 (recurM (setCell g r c v) count) Hrep3)
        as (s4 & Hrun4 & Hg4 & Hrep4 & Hout4).
      exists s4. split; [exact Hrun4|]. split; [congruence|]. split; [exact Hrep4|].
      eapply unchangedOutside_trans; eauto.
Qed.

Lemma solveInternal_fuel_refines fuel b :
  NoDup b ->
  forall s g count,
    repr (heap s) b g -> square g -> emptyCount g < fuel ->
    countsAs b (solveInternal_fuel fuel b count) s g
      (solveInternal_model fuel g count).
Proof.
  intros Hnd. induction fuel as [|fuel IH]; intros s g count Hrep Hs Hf; [lia|].
  unfold countsAs. cbn [solveInternal_fuel solveInternal_model].
  rewrite (bind_Ok _ _ _ _ _ (firstEmpty_refines s b g Hrep (proj1 Hs))).
  destruct (firstEmpty_model g) as [[r c]|] eqn:E.
  2:{ exists s. repeat split; auto. }
  destruct (firstEmpty_model_Some g r c Hs E) as (Hr & Hc & He).
  apply (countCandidates_refines _ (solveInternal_model fuel) b r c Hnd Hr Hc
           LETTERS s g count); auto.
  - intros v Hv. now apply letter_not_EMPTY.
  - intros s1 g1 k H1 H2 H3. apply IH; auto. lia.
Qed.

(* ---------------------------------------------------------------------- *)
(** ** Allocation: [jsonCopy] and [emptyBoard]                            *)
(* ---------------------------------------------------------------------- *)

Lemma heapGrows_refl h : heapGrows h h.
Proof. intros l _. reflexivity. Qed.

Lemma heapGrows_length h h' : heapGrows h h' -> List.length h <= List.length h'.
Proof.
  intros H. destruct (Nat.le_gt_cases (List.length h) (List.length h')) as [|Hlt]; auto.
  exfalso. assert (Hl : List.length h' < List.length h) by lia.
  specialize (H _ Hl).
  rewrite (proj2 (nth_error_None h' _)) in H by lia.
  symmetry in H. apply nth_error_None in H. lia.
Qed.

Lemma heapGrows_trans h1 h2 h3 :
  heapGrows h1 h2 -> heapGrows h2 h3 -> heapGrows h1 h3.
Proof.
  intros H12 H23 l Hl. rewrite H23, H12; auto.
  pose proof (heapGrows_length _ _ H12). lia.
Qed.

Lemma heapGrows_alloc h cells : heapGrows h (h ++ [cells]).
Proof. intros l Hl. now apply nth_error_app1. Qed.

Lemma nth_error_alloc (h : list rowArray) cells :
  nth_error (h ++ [cells]) (List.length h) = Some cells.
Proof. rewrite nth_error_app2, Nat.sub_diag; auto. Qed.

Lemma map_jsonValue_strings cells :
  map jsonValue (map JString cells) = map JString cells.
Proof. rewrite map_map. apply map_ext. reflexivity. Qed.

Lemma allocates_cons s s1 s' cells g b' :
  gen s1 = gen s -> heap s1 = (heap s ++ [map JString cells])%list ->
  allocates s1 g b' s' ->
  allocates s (cells :: g) (List.length (heap s) :: b') s'.
Proof.
  intros Hg Hh (Hg' & Hrep & Hnd & Hfresh & Hgrow).
  assert (Hlen : List.length (heap s1) = S (List.length (heap s))).
  { rewrite Hh, length_app. simpl. lia. }
  split; [congruence|]. split; [|split; [|split]].
  - constructor; auto.
    rewrite Hgrow by lia. rewrite Hh. apply nth_error_alloc.
  - constructor; auto. intros Hin. apply Hfresh in Hin. lia.
  - intros l [<-|Hin]; [lia|]. apply Hfresh in Hin. lia.
  - eapply heapGrows_trans; [|exact Hgrow]. rewrite Hh. apply heapGrows_alloc.
Qed.

Lemma jsonCopy_spec b g :
  forall s, repr (heap s) b g ->
  exists b' s', jsonCopy b s = (Ok b', s') /\ allocates s g b' s'.
Proof.
  unfold jsonCopy. revert g.
  induction b as [|l b IH]; intros g s Hrep; inversion Hrep as [|? cells ? g' Hl Hrest]; subst.
  - exists [], s. split; [reflexivity|].
    repeat split; auto using heapGrows_refl; try constructor. intros l [].
  - set (s1 := mkState (heap s ++ [map JString cells]) (gen s)).
    assert (Hstep : (cells0 <- readRow l ;; allocRow (map jsonValue cells0)) s
                    = (Ok (List.length (heap s)), s1)).
    { unfold bind, readRow, allocRow. rewrite Hl, map_jsonValue_strings.
      reflexivity. }
    destruct (IH g' s1) as (b' & s' & Hrun & Hall).
    { eapply repr_grows; eauto. apply heapGrows_alloc. }
    simpl. rewrite (bind_Ok _ _ _ _ _ Hstep), (bind_Ok _ _ _ _ _ Hrun).
    eexists _, s'. split; [reflexivity|].
    apply (allocates_cons s s1 s' cells g' b'); [reflexivity|reflexivity|exact Hall].
Qed.

Lemma allocRows_spec {A : Type} (xs : list A) cells :
  forall s,
  exists b' s',
    mapM (fun _ => allocRow (map JString cells)) xs s = (Ok b', s') /\
    allocates s (repeat cells (List.length xs)) b' s'.
Proof.
  induction xs as [|x xs IH]; intros s.
  - exists [], s. split; [reflexivity|].
    repeat split; auto using heapGrows_refl; try constructor. intros l [].
  - set (s1 := mkState (heap s ++ [map JString cells]) (gen s)).
    assert (Hstep : allocRow (map JString cells) s = (Ok (List.length (heap s)), s1))
      by reflexivity.
    destruct (IH s1) as (b' & s' & Hrun & Hall).
    simpl. rewrite (bind_Ok _ _ _ _ _ Hstep), (bind_Ok _ _ _ _ _ Hrun).
    eexists _, s'. split; [reflexivity|].
    apply (allocates_cons s s1 s' cells _ b'); [reflexivity|reflexivity|exact Hall].
Qed.

Lemma emptyBoard_spec s :
  exists b' s', emptyBoard s = (Ok b', s') /\ allocates s emptyGrid b' s'.
Proof. apply (allocRows_spec (seq 0 SIZE) (repeat EMPTY SIZE)). Qed.

Lemma countSolutions_refines s b g :
  repr (heap s) b g -> square g ->
  exists s',
    countSolutions b s = (Ok (countSolutions_model g), s') /\
    gen s' = gen s /\ heapGrows (heap s) (heap s').
Proof.
  intros Hrep Hs. unfold countSolutions.
  destruct (jsonCopy_spec b g s Hrep) as (b' & s1 & Hcopy & Hg1 & Hrep1 & Hnd & Hfresh & Hgrow).
  rewrite (bind_Ok _ _ _ _ _ Hcopy).
  destruct (solveInternal_fuel_refines (S (SIZE * SIZE)) b' Hnd s1 g 0 Hrep1 Hs)
    as (s2 & Hrun & Hg2 & Hrep2 & [Hlen Hout]).
  { pose proof (emptyCount_bound g). lia. }
  exists s2. split; [exact Hrun|]. split; [congruence|].
  intros l Hl. rewrite Hout; [now apply Hgrow|].
  intros Hin. apply Hfresh in Hin. lia.
Qed.

(* ====================================================================== *)
(** * Facts on the concrete boards                                        *)
(* ====================================================================== *)

Lemma firstSolution_solved : solvedGrid firstSolution.
Proof.
  split; [split; [reflexivity|repeat constructor]|].
  intros u Hu v Hv. in_cases Hu; in_cases Hv; reflexivity.
Qed.

Lemma cell_emptyGrid r c : cell emptyGrid r c = EMPTY.
Proof.
  unfold cell, emptyGrid, SIZE.
  do 4 (destruct r as [|r]; [do 4 (destruct c as [|c]; [reflexivity|]);
                             simpl; now destruct c|]).
  simpl. destruct r; now destruct c.
Qed.

Lemma emptyGrid_isGrid : isGrid emptyGrid.
Proof.
  split; [split; [reflexivity|repeat constructor]|].
  intros r c _ _. left. apply cell_emptyGrid.
Qed.

Lemma emptyGrid_noConflict : noConflict emptyGrid.
Proof. intros r c r' c' _ _ _ _ _ H. exfalso. apply H, cell_emptyGrid. Qed.

Lemma emptyGrid_completion : completion emptyGrid firstSolution.
Proof.
  split; [apply firstSolution_solved|].
  intros r c _ _ H. exfalso. apply H, cell_emptyGrid.
Qed.

Lemma repr_stateOf g : repr (heap (stateOf g)) (boardOf g) g.
Proof.
  unfold stateOf, boardOf, heapOf, repr. simpl.
  assert (H : forall pre, Forall2
            (fun l cells => nth_error (pre ++ map (map JString) g) l
                            = Some (map JString cells))
            (seq (List.length pre) (List.length g)) g).
  { induction g as [|cells g IH]; intros pre; simpl; constructor.
    - rewrite nth_error_app2, Nat.sub_diag; auto.
    - specialize (IH (pre ++ [map JString cells])%list).
      rewrite length_app, Nat.add_comm in IH. simpl in IH.
      rewrite <- app_assoc in IH. exact IH. }
  apply (H []).
Qed.

Lemma onePuzzle_isGrid : isGrid onePuzzle.
Proof.
  split; [split; [reflexivity|repeat constructor]|].
  intros r c Hr Hc. unfold SIZE in *.
  do 4 (destruct r as [|r]; [do 4 (destruct c as [|c]; [simpl; tauto|]); lia|]).
  lia.
Qed.

Lemma onePuzzle_agrees : agrees onePuzzle firstSolution.
Proof.
  intros r c Hr Hc. unfold SIZE in *.
  do 4 (destruct r as [|r]; [do 4 (destruct c as [|c]; [simpl; tauto|]); lia|]).
  lia.
Qed.

Lemma onePuzzle_noConflict : noConflict onePuzzle.
Proof.
  apply agrees_noConflict with (G := firstSolution).
  - apply onePuzzle_agrees.
  - apply solvedGrid_noConflict, firstSolution_solved.
Qed.

Lemma boardOf_NoDup g : NoDup (boardOf g).
Proof. apply seq_NoDup. Qed.

(* ====================================================================== *)
(** * Hole digging                                                        *)
(* ====================================================================== *)

Lemma keepsOthers_refl b h : keepsOthers b h h.
Proof. split; auto. Qed.

Lemma keepsOthers_trans b h1 h2 h3 :
  keepsOthers b h1 h2 -> keepsOthers b h2 h3 -> keepsOthers b h1 h3.
Proof.
  intros [L1 H1] [L2 H2]. split; [lia|].
  intros l Hl Hin. rewrite H2, H1; auto. lia.
Qed.

Lemma unchangedOutside_keepsOthers b h h' :
  unchangedOutside b h h' -> keepsOthers b h h'.
Proof. intros [L H]. split; [lia|]. intros; now apply H. Qed.

Lemma heapGrows_keepsOthers b h h' : heapGrows h h' -> keepsOthers b h h'.
Proof.
  intros H. split; [now apply heapGrows_length|]. intros; now apply H.
Qed.

Lemma digHoles_refines bp :
  NoDup bp ->
  forall positions s g k,
    repr (heap s) bp g -> square g ->
    (forall p, In p positions -> fst p < SIZE /\ snd p < SIZE) ->
    exists s',
      digHoles bp positions k s = (Ok (snd (digHoles_model positions g k)), s') /\
      gen s' = gen s /\
      repr (heap s') bp (fst (digHoles_model positions g k)) /\
      keepsOthers bp (heap s) (heap s').
Proof.
  intros Hnd.
  induction positions as [|[r c] rest IH]; intros s g k Hrep Hs Hpos.
  - exists s. simpl. repeat split; auto.
  - destruct (Hpos (r, c) (or_introl eq_refl)) as [Hr Hc]. simpl in Hr, Hc.
    assert (IH' := fun s0 g0 k0 H0 H1 =>
                     IH s0 g0 k0 H0 H1 (fun p Hp => Hpos p (or_intror Hp))).
    cbn [digHoles digHoles_model].
    destruct (k <=? 0)%Z.
    { exists s. simpl. repeat split; auto. }
    assert (Hread : readCell bp r c s = (Ok (JString (cell g r c)), s)).
    { rewrite (readCell_repr s bp g r c Hrep) by (destruct Hs; lia).
      now rewrite look_cell. }
    rewrite (bind_Ok _ _ _ _ _ Hread).
    destruct (writeCell_repr s bp g r c EMPTY Hrep Hnd Hs Hr Hc)
      as (s1 & Hw & Hg1 & Hrep1 & Hout1).
    rewrite (bind_Ok _ _ _ _ _ Hw).
    assert (Hs1 : square (setCell g r c EMPTY)) by now apply square_setCell.
    destruct (countSolutions_refines s1 bp _ Hrep1 Hs1) as (s2 & Hrun & Hg2 & Hgrow).
    rewrite (bind_Ok _ _ _ _ _ Hrun).
    assert (Hrep2 := repr_grows _ _ _ _ Hrep1 Hgrow).
    assert (Hk2 : keepsOthers bp (heap s) (heap s2)).
    { eapply keepsOthers_trans; [apply unchangedOutside_keepsOthers; eauto|].
      now apply heapGrows_keepsOthers. }
    destruct (negb (countSolutions_model (setCell g r c EMPTY) =? 1)).
    + destruct (writeCell_repr s2 bp _ r c (cell g r c) Hrep2 Hnd Hs1 Hr Hc)
        as (s3 & Hw3 & Hg3 & Hrep3 & Hout3).
      rewrite (bind_Ok _ _ _ _ _ Hw3).
      rewrite setCell_restore in Hrep3 by auto.
      destruct (IH' s3 g k Hrep3 Hs) as (s4 & Hrun4 & Hg4 & Hrep4 & Hk4).
      exists s4. split; [exact Hrun4|]. split; [congruence|]. split; [exact Hrep4|].
      eapply keepsOthers_trans; [exact Hk2|].
      eapply keepsOthers_trans; [apply unchangedOutside_keepsOthers; eauto|exact Hk4].
    + destruct (IH' s2 _ (k - 1)%Z Hrep2 Hs1) as (s4 & Hrun4 & Hg4 & Hrep4 & Hk4).
      exists s4. split; [exact Hrun4|]. split; [congruence|]. split; [exact Hrep4|].
      eapply keepsOthers_trans; eauto.
Qed.

Lemma solvedGrid_completions S G : solvedGrid S -> completion S G -> G = S.
Proof.
  intros HS HG. apply (completion_full S G); auto; [apply HS|].
  intros r c. now apply solvedGrid_full.
Qed.

Lemma puzzleOf_solution S : solvedGrid S -> puzzleOf S S.
Proof.
  intros HS. split; [now apply solvedGrid_isGrid|]. split; [apply agrees_refl|].
  apply count_one_iff.
  - now apply solvedGrid_isGrid.
  - now apply solvedGrid_noConflict.
  - exists S. split; [split; [auto|apply agrees_refl]|].
    intros G HG. now apply solvedGrid_completions.
Qed.

Lemma puzzleOf_noConflict S g : solvedGrid S -> puzzleOf S g -> noConflict g.
Proof.
  intros HS (_ & Ha & _). eapply agrees_noConflict; eauto.
  now apply solvedGrid_noConflict.
Qed.

(** The solution is the one and only completion of the puzzle. *)
Lemma puzzleOf_unique S g G :
  solvedGrid S -> puzzleOf S g -> (completion g G <-> G = S).
Proof.
  intros HS Hp. pose proof (puzzleOf_noConflict S g HS Hp) as Hnc.
  destruct Hp as (Hg & Ha & Hc).
  apply count_one_iff in Hc as (G0 & HG0 & Huniq); auto.
  assert (HSc : completion g S) by (split; auto).
  split.
  - intros HG. rewrite (Huniq G HG), (Huniq S HSc). reflexivity.
  - intros ->. exact HSc.
Qed.

Lemma puzzleOf_blank S g r c :
  puzzleOf S g -> r < SIZE -> c < SIZE ->
  countSolutions_model (setCell g r c EMPTY) = 1 ->
  puzzleOf S (setCell g r c EMPTY).
Proof.
  intros (Hg & Ha & _) Hr Hc Hcount. split; [|split; auto].
  - apply isGrid_setCell; auto.
  - eapply agrees_trans; [apply agrees_blank; auto; apply Hg|exact Ha].
Qed.

Lemma digHoles_model_inv S positions :
  forall g k,
    (forall p, In p positions -> fst p < SIZE /\ snd p < SIZE) ->
    puzzleOf S g -> puzzleOf S (fst (digHoles_model positions g k)).
Proof.
  induction positions as [|[r c] rest IH]; intros g k Hpos Hp; [exact Hp|].
  destruct (Hpos (r, c) (or_introl eq_refl)) as [Hr Hc]. simpl in Hr, Hc.
  assert (IH' := fun g0 k0 => IH g0 k0 (fun p Hp => Hpos p (or_intror Hp))).
  cbn [digHoles_model].
  destruct (k <=? 0)%Z; [exact Hp|].
  destruct (Nat.eqb_spec (countSolutions_model (setCell g r c EMPTY)) 1) as [E|E];
    cbn [negb].
  - apply IH'. now apply puzzleOf_blank.
  - now apply IH'.
Qed.

(* ---------------------------------------------------------------------- *)
(** ** Counting clues                                                     *)
(* ---------------------------------------------------------------------- *)

Lemma filter_length_one_less {A : Type} (f f' : A -> bool) l p :
  NoDup l -> In p l -> f p = true -> f' p = false ->
  (forall x, In x l -> x <> p -> f' x = f x) ->
  List.length (filter f l) = S (List.length (filter f' l)).
Proof.
  induction 1 as [|a l Ha Hnd IH]; intros Hin Hp Hp' Hsame; [contradiction|].
  simpl. destruct Hin as [->|Hin].
  - rewrite Hp, Hp'. simpl. f_equal.
    clear IH. induction l as [|b l IHl]; simpl; auto.
    assert (b <> p) by (intros ->; apply Ha; simpl; auto).
    rewrite (Hsame b) by (simpl; auto).
    inversion Hnd; subst.
    destruct (f b); simpl; [f_equal|]; apply IHl; auto;
      try (intros Hin; apply Ha; simpl; auto);
      intros x Hx; apply Hsame; simpl in *; tauto.
  - assert (a <> p) by (intros ->; contradiction).
    rewrite (Hsame a) by (simpl; auto).
    assert (IH' := IH Hin Hp Hp' (fun x Hx => Hsame x (or_intror Hx))).
    destruct (f a); simpl; lia.
Qed.

Lemma clueCount_blank g r c :
  square g -> r < SIZE -> c < SIZE -> cell g r c <> EMPTY ->
  clueCount g = S (clueCount (setCell g r c EMPTY)).
Proof.
  intros Hs Hr Hc Hne. unfold clueCount.
  apply filter_length_one_less with (p := (r, c)).
  - apply allPositions_NoDup.
  - now apply in_allPositions.
  - simpl. apply negb_true_iff. now apply String.eqb_neq.
  - simpl. rewrite cell_setCell_eq by auto. reflexivity.
  - intros [r' c'] _ Hne'. simpl. now rewrite cell_setCell_neq.
Qed.

Lemma clueCount_full g :
  (forall r c, r < SIZE -> c < SIZE -> cell g r c <> EMPTY) ->
  clueCount g = SIZE * SIZE.
Proof.
  intros Hfull. unfold clueCount.
  assert (H : forall l, (forall p, In p l -> In p allPositions) ->
            filter (fun p => negb (cell g (fst p) (snd p) =? EMPTY)%string) l = l).
  { induction l as [|[r c] l IH]; intros Hl; simpl; auto.
    destruct (proj1 (in_allPositions r c) (Hl _ (or_introl eq_refl))) as [Hr Hc].
    rewrite (proj2 (String.eqb_neq _ _) (Hfull r c Hr Hc)). simpl.
    f_equal. apply IH. intros; apply Hl; simpl; auto. }
  rewrite H by auto. reflexivity.
Qed.

Lemma digHoles_model_clues positions :
  forall g k,
    square g -> NoDup positions ->
    (forall p, In p positions ->
       fst p < SIZE /\ snd p < SIZE /\ cell g (fst p) (snd p) <> EMPTY) ->
    (0 <= k)%Z ->
    (0 <= snd (digHoles_model positions g k) <= k)%Z /\
    Z.of_nat (clueCount (fst (digHoles_model positions g k)))
      = (Z.of_nat (clueCount g) - (k - snd (digHoles_model positions g k)))%Z.
Proof.
  induction positions as [|[r c] rest IH]; intros g k Hs Hnd Hpos Hk;
    [simpl; lia|].
  destruct (Hpos (r, c) (or_introl eq_refl)) as (Hr & Hc & Hne). simpl in Hr, Hc, Hne.
  inversion Hnd as [|? ? Hnin Hnd']; subst.
  cbn [digHoles_model].
  destruct (Z.leb_spec k 0); [simpl; lia|].
  destruct (negb (countSolutions_model (setCell g r c EMPTY) =? 1)).
  - apply IH; auto. intros p Hp. apply Hpos. simpl; auto.
  - destruct (IH (setCell g r c EMPTY) (k - 1)%Z) as [H1 H2]; auto.
    + now apply square_setCell.
    + intros [r' c'] Hp. destruct (Hpos _ (or_intror Hp)) as (Hr' & Hc' & Hne').
      simpl in *. repeat split; auto.
      rewrite cell_setCell_neq; auto. intros E. apply Hnin. now rewrite <- E.
    + lia.
    + split; [lia|]. rewrite H2, (clueCount_blank g r c) by auto. lia.
Qed.

(** When the loop ends with removals still wanted, every clue it leaves
    is one whose removal would let in a second solution. *)
Lemma digHoles_model_blocked S positions :
  solvedGrid S ->
  forall g k,
    (forall p, In p positions -> fst p < SIZE /\ snd p < SIZE) ->
    puzzleOf S g ->
    agrees (fst (digHoles_model positions g k)) g /\
    ((0 < snd (digHoles_model positions g k))%Z ->
     forall r c, In (r, c) positions ->
       cell (fst (digHoles_model positions g k)) r c <> EMPTY ->
       twoCompletions (setCell (fst (digHoles_model positions g k)) r c EMPTY)).
Proof.
  intros HS.
  induction positions as [|[r c] rest IH]; intros g k Hpos Hp.
  { simpl. split; [apply agrees_refl|]. intros _ r c []. }
  destruct (Hpos (r, c) (or_introl eq_refl)) as [Hr Hc]. simpl in Hr, Hc.
  assert (IH' := fun g0 k0 => IH g0 k0 (fun p Hp => Hpos p (or_intror Hp))).
  assert (Hs : square g) by apply Hp.
  cbn [digHoles_model].
  destruct (Z.leb_spec k 0).
  { simpl. split; [apply agrees_refl|]. lia. }
  set (g1 := setCell g r c EMPTY).
  destruct (Nat.eqb_spec (countSolutions_model g1) 1) as [E|E]; cbn [negb].
  - assert (Hp1 : puzzleOf S g1) by now apply puzzleOf_blank.
    destruct (IH' g1 (k - 1)%Z Hp1) as [Ha Hb].
    assert (Hag : agrees g1 g) by now apply agrees_blank.
    split; [eapply agrees_trans; eauto|].
    intros Hk r' c' [[= <- <-]|Hin] Hne; [|now apply Hb].
    exfalso. specialize (Ha r c Hr Hc Hne).
    unfold g1 in Ha at 1. rewrite cell_setCell_eq in Ha by auto.
    apply Hne. now symmetry.
  - destruct (IH' g k Hp) as [Ha Hb]. split; [exact Ha|].
    intros Hk r' c' [[= <- <-]|Hin] Hne; [|now apply Hb].
    set (g' := fst (digHoles_model rest g k)) in *.
    assert (Hg1 : isGrid g1).
    { apply isGrid_setCell; auto. apply Hp. }
    assert (Ha1 : agrees g1 S).
    { eapply agrees_trans; [apply agrees_blank; auto|apply Hp]. }
    assert (Hnc1 : noConflict g1).
    { eapply agrees_noConflict; eauto. now apply solvedGrid_noConflict. }
    assert (Htwo : twoCompletions g1).
    { apply count_two_iff; auto.
      pose proof (countSolutions_model_le g1 (proj1 Hg1)).
      assert (countSolutions_model g1 <> 0); [|lia].
      intros E0. apply count_zero_iff in E0; auto.
      apply (E0 S). split; auto. }
    destruct Htwo as (G1 & G2 & Hne12 & HG1 & HG2).
    assert (Hsub : agrees (setCell g' r c EMPTY) g1).
    { intros r' c' Hr' Hc'. unfold g1.
      assert (Hs' : square g').
      { apply (digHoles_model_inv S rest g k); auto.
        intros p Hin. apply Hpos; simpl; auto. }
      rewrite !cell_setCell by auto.
      destruct ((r' =? r) && (c' =? c)); [congruence|]. now apply Ha. }
    exists G1, G2. split; [auto|].
    split; eapply completion_mono; eauto.
Qed.

(* ====================================================================== *)
(** * [generateFullBoard] and [generatePuzzle] run to their end           *)
(* ====================================================================== *)

Lemma generateFullBoard_spec s :
  exists b s' g,
    generateFullBoard s = (Ok b, s') /\ repr (heap s') b g /\
    completion emptyGrid g.
Proof.
  unfold generateFullBoard.
  destruct (emptyBoard_spec s) as (b & s1 & Hrun1 & _ & Hrep1 & Hnd & _ & _).
  rewrite (bind_Ok _ _ _ _ _ Hrun1).
  destruct (solve_refines b true s1 emptyGrid Hnd Hrep1 (proj1 emptyGrid_isGrid))
    as (s2 & Hrun2 & _ & Hrep2 & _).
  rewrite (bind_Ok _ _ _ _ _ Hrun2).
  assert (Hspec : solveSpec emptyGrid
                    (solve_model (S (SIZE * SIZE)) true emptyGrid (gen s1))).
  { apply solve_model_correct.
    - apply emptyGrid_isGrid.
    - apply emptyGrid_noConflict.
    - pose proof (emptyCount_bound emptyGrid). lia. }
  unfold solveSpec in Hspec.
  destruct (fst (solve_model (S (SIZE * SIZE)) true emptyGrid (gen s1))) as [g'|].
  - exists b, s2, g'. split; [reflexivity|]. split; [exact Hrep2|exact Hspec].
  - exfalso. exact (Hspec firstSolution emptyGrid_completion).
Qed.

Lemma randomBelow_range k rnd :
  (0 < k)%Z -> (0 <= fst (randomBelow k rnd) < k)%Z.
Proof.
  intros Hk. unfold randomBelow. simpl.
  destruct (Z.ltb_spec 0 k); [|lia]. now apply Z.mod_pos_bound.
Qed.

(** The run of [generatePuzzle] up to its [return]: the solution, the
    shuffled positions, the draw [j] of the clue target, and the puzzle
    that the digging loop leaves. *)
Lemma generatePuzzle_dig_spec minClues maxClues s :
  exists bp bs s' S positions j,
    generatePuzzle_dig minClues maxClues s
      = (Ok (bp, bs,
             snd (digHoles_model positions S
                    (Z.of_nat (SIZE * SIZE) - (j + minClues))%Z)), s') /\
    repr (heap s') bp
      (fst (digHoles_model positions S (Z.of_nat (SIZE * SIZE) - (j + minClues))%Z)) /\
    repr (heap s') bs S /\ solvedGrid S /\
    Permutation positions allPositions /\
    ((0 < maxClues - minClues + 1)%Z -> (0 <= j < maxClues - minClues + 1)%Z).
Proof.
  unfold generatePuzzle_dig.
  destruct (generateFullBoard_spec s) as (bs & s1 & S & Hrun1 & Hrep1 & [HS _]).
  rewrite (bind_Ok _ _ _ _ _ Hrun1).
  destruct (jsonCopy_spec bs S s1 Hrep1)
    as (bp & s2 & Hcopy & Hg2 & Hrep2 & Hnd & Hfresh & Hgrow).
  rewrite (bind_Ok _ _ _ _ _ Hcopy).
  unfold bind at 1, liftRng at 1.
  pose proof (randomBelow_range (maxClues - minClues + 1) (gen s2)) as Hj.
  destruct (randomBelow (maxClues - minClues + 1) (gen s2)) as [j rnd3].
  unfold bind at 1, liftRng at 1. cbn [gen heap].
  pose proof (shuffle_perm allPositions rnd3) as Hperm.
  destruct (shuffle allPositions rnd3) as [positions rnd4]. cbn [fst] in Hperm, Hj.
  set (s4 := mkState (heap s2) rnd4).
  assert (Hpos : forall p, In p positions -> fst p < SIZE /\ snd p < SIZE).
  { intros [r c] Hin. apply in_allPositions. eapply Permutation_in; eauto. }
  destruct (digHoles_refines bp Hnd positions s4 S
              (Z.of_nat (SIZE * SIZE) - (j + minClues))%Z Hrep2 (proj1 HS) Hpos)
    as (s5 & Hrun5 & Hg5 & Hrep5 & [Hlen5 Hk5]).
  rewrite (bind_Ok _ _ _ _ _ Hrun5).
  exists bp, bs, s5, S, positions, j.
  split; [reflexivity|]. split; [exact Hrep5|]. split; [|auto].
  apply repr_same with (h := heap s2); [now apply (repr_grows (heap s1))|].
  intros l Hin. pose proof (repr_bound _ _ _ _ Hrep1 Hin) as Hl.
  pose proof (heapGrows_length _ _ Hgrow).
  apply Hk5; [simpl; lia|].
  intros Hin'. apply Hfresh in Hin'. lia.
Qed.

(* ====================================================================== *)
(** * What a search may write, on any heap                                *)
(* ====================================================================== *)

Lemma writesOnly_ret {A : Type} b (a : A) : writesOnly b (ret a).
Proof. intros s. simpl. split; auto using unchangedOutside_refl. Qed.

Lemma writesOnly_bind {A B : Type} b (m : M A) (k : A -> M B) :
  writesOnly b m -> (forall a, writesOnly b (k a)) -> writesOnly b (bind m k).
Proof.
  intros Hm Hk s. unfold bind. destruct (Hm s) as [G1 U1].
  destruct (m s) as [[a| |] s1]; simpl in *; auto.
  destruct (Hk a s1) as [G2 U2]. split; [congruence|].
  eapply unchangedOutside_trans; eauto.
Qed.

Lemma writesOnly_readCell b b0 r c : writesOnly b (readCell b0 r c).
Proof.
  intros s. unfold readCell.
  destruct (nth_error b0 r) as [l|]; [destruct (nth_error (heap s) l)|];
    simpl; split; auto using unchangedOutside_refl.
Qed.

Lemma writesOnly_writeCell b r c v : writesOnly b (writeCell b r c v).
Proof.
  intros s. unfold writeCell.
  destruct (nth_error b r) as [l|] eqn:E; [destruct (nth_error (heap s) l)|];
    simpl; split; auto using unchangedOutside_refl.
  split; [apply update_length|].
  intros l' Hl'. apply nth_error_update_neq. intros ->.
  apply Hl'. eapply nth_error_In; eauto.
Qed.

Lemma writesOnly_existsM {A : Type} b (p : A -> M bool) l :
  (forall x, writesOnly b (p x)) -> writesOnly b (existsM p l).
Proof.
  intros Hp. induction l as [|x l IH]; simpl; [apply writesOnly_ret|].
  apply writesOnly_bind; auto. intros [|]; auto using writesOnly_ret.
Qed.

Lemma writesOnly_firstM {A B : Type} b (f : A -> M (option B)) l :
  (forall x, writesOnly b (f x)) -> writesOnly b (firstM f l).
Proof.
  intros Hf. induction l as [|x l IH]; simpl; [apply writesOnly_ret|].
  apply writesOnly_bind; auto. intros [y|]; auto using writesOnly_ret.
Qed.

Lemma writesOnly_isValid b r c v : writesOnly b (isValid b r c v).
Proof.
  unfold isValid.
  apply writesOnly_bind.
  { apply writesOnly_existsM. intros x.
    apply writesOnly_bind; [apply writesOnly_readCell|intros; apply writesOnly_ret]. }
  intros [|]; [apply writesOnly_ret|].
  apply writesOnly_bind.
  { apply writesOnly_existsM. intros x.
    apply writesOnly_bind; [apply writesOnly_readCell|intros; apply writesOnly_ret]. }
  intros [|]; [apply writesOnly_ret|].
  apply writesOnly_bind.
  { apply writesOnly_existsM. intros x. apply writesOnly_existsM. intros y.
    apply writesOnly_bind; [apply writesOnly_readCell|intros; apply writesOnly_ret]. }
  intros [|]; apply writesOnly_ret.
Qed.

Lemma writesOnly_firstEmpty b : writesOnly b (firstEmpty b).
Proof.
  unfold firstEmpty. apply writesOnly_firstM. intros r.
  apply writesOnly_firstM. intros c.
  apply writesOnly_bind; [apply writesOnly_readCell|intros; apply writesOnly_ret].
Qed.

Lemma writesOnly_countCandidates recur b r c vals :
  (forall k, writesOnly b (recur k)) ->
  forall count, writesOnly b (countCandidates recur b r c vals count).
Proof.
  intros Hrec. induction vals as [|v rest IH]; intros count; simpl;
    [apply writesOnly_ret|].
  apply writesOnly_bind; [apply writesOnly_isValid|]. intros [|]; [|apply IH].
  apply writesOnly_bind; [apply writesOnly_writeCell|]. intros _.
  apply writesOnly_bind; [apply Hrec|]. intros count'.
  apply writesOnly_bind; [apply writesOnly_writeCell|]. intros _.
  destruct (1 <? count'); [apply writesOnly_ret|apply IH].
Qed.

Lemma writesOnly_solveInternal_fuel fuel b :
  forall count, writesOnly b (solveInternal_fuel fuel b count).
Proof.
  induction fuel as [|fuel IH]; intros count; cbn [solveInternal_fuel].
  - intros s. simpl. split; auto using unchangedOutside_refl.
  - apply writesOnly_bind; [apply writesOnly_firstEmpty|].
    intros [[r c]|]; [|apply writesOnly_ret].
    now apply writesOnly_countCandidates.
Qed.

(** [jsonCopy] only allocates, and what it returns is new. *)
Lemma jsonCopy_fresh b :
  forall s r s',
    jsonCopy b s = (r, s') ->
    gen s' = gen s /\
    heapGrows (heap s) (heap s') /\
    forall b', r = Ok b' -> forall l, In l b' -> List.length (heap s) <= l.
Proof.
  unfold jsonCopy.
  set (f := fun l : loc => cells <- readRow l ;; allocRow (map jsonValue cells)).
  induction b as [|l0 b IH]; intros s r s' H.
  - simpl in H. injection H as <- <-. split; [auto|]. split; [apply heapGrows_refl|].
    intros b' [= <-] l [].
  - cbn [mapM] in H. unfold bind at 1 in H.
    destruct (f l0 s) as [r0 s1] eqn:E0.
    unfold f, bind, readRow, allocRow in E0.
    destruct (nth_error (heap s) l0) as [cells|]; injection E0 as <- <-.
    2:{ injection H as <- <-. split; [auto|]. split; [apply heapGrows_refl|].
        discriminate. }
    unfold bind at 1 in H.
    destruct (mapM f b _) as [r1 s2] eqn:E.
    destruct (IH _ r1 s2 E) as (G & Hgrow & Hfresh).
    assert (Hgrow' : heapGrows (heap s) (heap s2)).
    { eapply heapGrows_trans; [|exact Hgrow]. apply heapGrows_alloc. }
    destruct r1 as [b1| |]; simpl in H; injection H as <- <-;
      (split; [exact G|]); (split; [exact Hgrow'|]); try discriminate.
    intros b' [= <-] l [<-|Hin]; [lia|].
    specialize (Hfresh b1 eq_refl l Hin). simpl in Hfresh.
    rewrite length_app in Hfresh. simpl in Hfresh. lia.
Qed.

Lemma countSolutions_frame s b r s' :
  countSolutions b s = (r, s') ->
  gen s' = gen s /\ heapGrows (heap s) (heap s').
Proof.
  unfold countSolutions, bind. intros H.
  destruct (jsonCopy b s) as [r1 s1] eqn:E.
  destruct (jsonCopy_fresh b s r1 s1 E) as (G & Hgrow & Hfresh).
  destruct r1 as [b'| |]; try (injection H as <- <-; auto).
  destruct (writesOnly_solveInternal_fuel (S (SIZE * SIZE)) b' 0 s1) as [G2 [L2 U2]].
  unfold solveInternal in H. rewrite H in G2, L2, U2. cbn [snd] in G2, L2, U2.
  split; [congruence|].
  intros l Hl. rewrite U2; [now apply Hgrow|].
  intros Hin. specialize (Hfresh b' eq_refl l Hin). lia.
Qed.

(* ====================================================================== *)
(** * More facts on the searches                                           *)
(* ====================================================================== *)

Lemma shuffleFrom_draws {A : Type} i (l : list A) g :
  tape (snd (shuffleFrom i l g)) = tape g /\
  cursor (snd (shuffleFrom i l g)) = cursor g + i.
Proof.
  revert l g; induction i as [|i IH]; intros l g; simpl; [split; auto|].
  destruct (IH (swap l (S i) (Z.to_nat (fst (randomBelow (Z.of_nat (S i + 1)) g))))
              (mkRng (tape g) (S (cursor g)))) as [Ht Hc].
  unfold randomBelow in Ht, Hc. simpl in Ht, Hc.
  split; [exact Ht|]. rewrite Hc. lia.
Qed.

Lemma firstEmpty_model_full g :
  square g -> (forall r c, r < SIZE -> c < SIZE -> cell g r c <> EMPTY) ->
  firstEmpty_model g = None.
Proof.
  intros Hs Hfull. destruct (firstEmpty_model g) as [[r c]|] eqn:E; auto.
  destruct (firstEmpty_model_Some g r c Hs E) as (Hr & Hc & He).
  exfalso. exact (Hfull r c Hr Hc He).
Qed.

(** Blanking a cell keeps every completion. *)
Lemma completions_blank_incl g r c :
  isGrid g -> noConflict g -> r < SIZE -> c < SIZE ->
  incl (completions g) (completions (setCell g r c EMPTY)).
Proof.
  intros Hg Hnc Hr Hc G HG.
  apply completions_spec in HG; auto.
  apply completions_spec.
  - apply isGrid_setCell; auto.
  - apply noConflict_blank; auto. apply Hg.
  - eapply completion_mono; eauto. apply agrees_blank; auto. apply Hg.
Qed.

Lemma writesOnly_touchesOnly {A : Type} b (m : M A) :
  writesOnly b m -> touchesOnly b m.
Proof. intros H s. destruct (H s) as [G U]. split; [now rewrite G|exact U]. Qed.

Lemma touchesOnly_bind {A B : Type} b (m : M A) (k : A -> M B) :
  touchesOnly b m -> (forall a, touchesOnly b (k a)) -> touchesOnly b (bind m k).
Proof.
  intros Hm Hk s. unfold bind. destruct (Hm s) as [G1 U1].
  destruct (m s) as [[a| |] s1]; simpl in *; auto.
  destruct (Hk a s1) as [G2 U2]. split; [congruence|].
  eapply unchangedOutside_trans; eauto.
Qed.

Lemma touchesOnly_shuffle {A : Type} b (l : list A) :
  touchesOnly b (liftRng (shuffle l)).
Proof.
  intros s. unfold liftRng.
  pose proof (shuffleFrom_draws (List.length l - 1) l (gen s)) as [Ht _].
  fold (shuffle l (gen s)) in Ht.
  destruct (shuffle l (gen s)) as [l' g']. simpl in *.
  split; [exact Ht|apply unchangedOutside_refl].
Qed.

Lemma touchesOnly_tryCandidates recur b r c candidates :
  touchesOnly b recur -> touchesOnly b (tryCandidates recur b r c candidates).
Proof.
  intros Hrec. induction candidates as [|v rest IH]; simpl.
  - apply writesOnly_touchesOnly, writesOnly_ret.
  - apply touchesOnly_bind; [apply writesOnly_touchesOnly, writesOnly_isValid|].
    intros [|]; [|exact IH].
    apply touchesOnly_bind; [apply writesOnly_touchesOnly, writesOnly_writeCell|].
    intros _. apply touchesOnly_bind; [exact Hrec|].
    intros [|]; [apply writesOnly_touchesOnly, writesOnly_ret|].
    apply touchesOnly_bind; [apply writesOnly_touchesOnly, writesOnly_writeCell|].
    intros _. exact IH.
Qed.

Lemma touchesOnly_solve_fuel fuel b randomized :
  touchesOnly b (solve_fuel fuel b randomized).
Proof.
  induction fuel as [|fuel IH]; cbn [solve_fuel].
  - intros s. simpl. split; auto using unchangedOutside_refl.
  - apply touchesOnly_bind; [apply writesOnly_touchesOnly, writesOnly_firstEmpty|].
    intros [[r c]|]; [|apply writesOnly_touchesOnly, writesOnly_ret].
    apply touchesOnly_bind.
    + destruct randomized; [apply touchesOnly_shuffle|].
      apply writesOnly_touchesOnly, writesOnly_ret.
    + intros candidates. now apply touchesOnly_tryCandidates.
Qed.

Lemma writesOnly_tryCandidates recur b r c candidates :
  writesOnly b recur -> writesOnly b (tryCandidates recur b r c candidates).
Proof.
  intros Hrec. induction candidates as [|v rest IH]; simpl.
  - apply writesOnly_ret.
  - apply writesOnly_bind; [apply writesOnly_isValid|].
    intros [|]; [|exact IH].
    apply writesOnly_bind; [apply writesOnly_writeCell|].
    intros _. apply writesOnly_bind; [exact Hrec|].
    intros [|]; [apply writesOnly_ret|].
    apply writesOnly_bind; [apply writesOnly_writeCell|].
    intros _. exact IH.
Qed.

Lemma writesOnly_solve_fuel_plain fuel b :
  writesOnly b (solve_fuel fuel b false).
Proof.
  induction fuel as [|fuel IH]; cbn [solve_fuel].
  - intros s. simpl. split; auto using unchangedOutside_refl.
  - apply writesOnly_bind; [apply writesOnly_firstEmpty|].
    intros [[r c]|]; [|apply writesOnly_ret].
    apply writesOnly_bind; [apply writesOnly_ret|].
    intros candidates. now apply writesOnly_tryCandidates.
Qed.

(** On a solved grid every letter is in every row. *)
Lemma solvedGrid_row_has G r v :
  solvedGrid G -> r < SIZE -> In v LETTERS ->
  exists c, c < SIZE /\ cell G r c = v.
Proof.
  intros [Hs Hu] Hr Hv.
  assert (Hin : In (rowPositions r) units).
  { unfold units. apply in_or_app. left. apply in_map, in_seq. lia. }
  specialize (Hu _ Hin v Hv).
  assert (Hocc : In v (cellsAt G (rowPositions r))).
  { apply (count_occ_In string_dec). lia. }
  unfold cellsAt, rowPositions in Hocc. rewrite map_map in Hocc.
  apply in_map_iff in Hocc as (c & E & Hc). apply in_seq in Hc.
  exists c. split; [lia|exact E].
Qed.

(* ====================================================================== *)
(** * The boards that [generatePuzzle] builds are new                      *)
(* ====================================================================== *)

Lemma generateFullBoard_fresh s :
  exists b s' g,
    generateFullBoard s = (Ok b, s') /\ repr (heap s') b g /\
    completion emptyGrid g /\ NoDup b /\
    (forall l, In l b -> List.length (heap s) <= l) /\
    heapGrows (heap s) (heap s') /\
    tape (gen s') = tape (gen s).
Proof.
  unfold generateFullBoard.
  destruct (emptyBoard_spec s) as (b & s1 & Hrun1 & Hg1 & Hrep1 & Hnd & Hfresh & Hgrow).
  rewrite (bind_Ok _ _ _ _ _ Hrun1).
  destruct (solve_refines b true s1 emptyGrid Hnd Hrep1 (proj1 emptyGrid_isGrid))
    as (s2 & Hrun2 & _ & Hrep2 & [Hlen Hout]).
  rewrite (bind_Ok _ _ _ _ _ Hrun2).
  assert (Hspec : solveSpec emptyGrid
                    (solve_model (S (SIZE * SIZE)) true emptyGrid (gen s1))).
  { apply solve_model_correct.
    - apply emptyGrid_isGrid.
    - apply emptyGrid_noConflict.
    - pose proof (emptyCount_bound emptyGrid). lia. }
  unfold solveSpec in Hspec.
  destruct (touchesOnly_solve_fuel (S (SIZE * SIZE)) b true s1) as [Htape _].
  fold (solve b true) in Htape. rewrite Hrun2 in Htape. simpl in Htape.
  destruct (fst (solve_model (S (SIZE * SIZE)) true emptyGrid (gen s1))) as [g'|].
  - exists b, s2, g'. split; [reflexivity|]. split; [exact Hrep2|].
    split; [exact Hspec|]. split; [exact Hnd|]. split; [exact Hfresh|]. split.
    + intros l Hl. rewrite Hout; [now apply Hgrow|].
      intros Hin. apply Hfresh in Hin. lia.
    + rewrite Htape. now rewrite Hg1.
  - exfalso. exact (Hspec firstSolution emptyGrid_completion).
Qed.

Lemma digHoles_tape bp :
  forall positions k s,
    tape (gen (snd (digHoles bp positions k s))) = tape (gen s).
Proof.
  induction positions as [|[r c] rest IH]; intros k s; [reflexivity|].
  cbn [digHoles]. destruct (k <=? 0)%Z; [reflexivity|].
  unfold bind at 1.
  destruct (writesOnly_readCell bp bp r c s) as [G0 _].
  destruct (readCell bp r c s) as [[backup| |] s0]; simpl in G0;
    try (simpl; congruence).
  unfold bind at 1.
  destruct (writesOnly_writeCell bp r c (JString EMPTY) s0) as [G1 _].
  destruct (writeCell bp r c (JString EMPTY) s0) as [[[]| |] s1]; simpl in G1;
    try (simpl; congruence).
  unfold bind at 1.
  destruct (countSolutions bp s1) as [r2 s2] eqn:E2.
  destruct (countSolutions_frame s1 bp r2 s2 E2) as [G2 _].
  destruct r2 as [n| |]; try (simpl; congruence).
  destruct (negb (n =? 1)).
  - unfold bind at 1.
    destruct (writesOnly_writeCell bp r c backup s2) as [G3 _].
    destruct (writeCell bp r c backup s2) as [[[]| |] s3]; simpl in G3;
      try (simpl; congruence); rewrite IH; congruence.
  - rewrite IH. congruence.
Qed.

(** The run of [generatePuzzle], with what it says on the heap: the two
    boards are made of new rows, all different, and every array that
    existed before is as it was. *)
Lemma generatePuzzle_dig_full minClues maxClues s :
  exists bp bs s' sol positions j,
    generatePuzzle_dig minClues maxClues s
      = (Ok (bp, bs,
             snd (digHoles_model positions sol
                    (Z.of_nat (SIZE * SIZE) - (j + minClues))%Z)), s') /\
    repr (heap s') bp
      (fst (digHoles_model positions sol
              (Z.of_nat (SIZE * SIZE) - (j + minClues))%Z)) /\
    repr (heap s') bs sol /\ solvedGrid sol /\
    Permutation positions allPositions /\
    ((0 < maxClues - minClues + 1)%Z -> (0 <= j < maxClues - minClues + 1)%Z) /\
    NoDup bp /\ NoDup bs /\ (forall l, In l bp -> ~ In l bs) /\
    (forall l, In l bp \/ In l bs -> List.length (heap s) <= l) /\
    heapGrows (heap s) (heap s') /\
    tape (gen s') = tape (gen s).
Proof.
  unfold generatePuzzle_dig.
  destruct (generateFullBoard_fresh s)
    as (bs & s1 & sol & Hrun1 & Hrep1 & [HS _] & Hnds & Hfreshs & Hgrow1 & Ht1).
  rewrite (bind_Ok _ _ _ _ _ Hrun1).
  destruct (jsonCopy_spec bs sol s1 Hrep1)
    as (bp & s2 & Hcopy & Hg2 & Hrep2 & Hnd & Hfresh & Hgrow).
  rewrite (bind_Ok _ _ _ _ _ Hcopy).
  unfold bind at 1, liftRng at 1.
  pose proof (randomBelow_range (maxClues - minClues + 1) (gen s2)) as Hj.
  assert (Ht3 : tape (snd (randomBelow (maxClues - minClues + 1) (gen s2)))
                = tape (gen s2)) by reflexivity.
  destruct (randomBelow (maxClues - minClues + 1) (gen s2)) as [j rnd3].
  unfold bind at 1, liftRng at 1. cbn [gen heap].
  pose proof (shuffle_perm allPositions rnd3) as Hperm.
  pose proof (shuffleFrom_draws (List.length allPositions - 1) allPositions rnd3)
    as [Ht4 _].
  fold (shuffle allPositions rnd3) in Ht4.
  destruct (shuffle allPositions rnd3) as [positions rnd4].
  cbn [fst snd] in Hperm, Hj, Ht3, Ht4.
  set (s4 := mkState (heap s2) rnd4).
  assert (Hpos : forall p, In p positions -> fst p < SIZE /\ snd p < SIZE).
  { intros [r c] Hin. apply in_allPositions. eapply Permutation_in; eauto. }
  destruct (digHoles_refines bp Hnd positions s4 sol
              (Z.of_nat (SIZE * SIZE) - (j + minClues))%Z Hrep2 (proj1 HS) Hpos)
    as (s5 & Hrun5 & Hg5 & Hrep5 & [Hlen5 Hk5]).
  pose proof (digHoles_tape bp positions
                (Z.of_nat (SIZE * SIZE) - (j + minClues))%Z s4) as Ht5.
  rewrite Hrun5 in Ht5. cbn [snd] in Ht5.
  rewrite (bind_Ok _ _ _ _ _ Hrun5).
  pose proof (heapGrows_length _ _ Hgrow) as Hlen2.
  pose proof (heapGrows_length _ _ Hgrow1) as Hlen1.
  assert (Hbs : forall l, In l bs -> l < List.length (heap s1)).
  { intros l Hin. exact (repr_bound _ _ _ _ Hrep1 Hin). }
  exists bp, bs, s5, sol, positions, j.
  split; [reflexivity|]. split; [exact Hrep5|]. split.
  { apply repr_same with (h := heap s2); [now apply (repr_grows (heap s1))|].
    intros l Hin. apply Hk5; [simpl; specialize (Hbs l Hin); lia|].
    intros Hin'. apply Hfresh in Hin'. specialize (Hbs l Hin). lia. }
  split; [exact HS|]. split; [exact Hperm|]. split; [exact Hj|].
  split; [exact Hnd|]. split; [exact Hnds|]. split.
  { intros l Hin Hin'. apply Hfresh in Hin. specialize (Hbs l Hin'). lia. }
  split.
  { intros l [Hin|Hin]; [apply Hfresh in Hin; lia|now apply Hfreshs]. }
  split.
  { intros l Hl. rewrite Hk5.
    - simpl. rewrite Hgrow by lia. now apply Hgrow1.
    - simpl. lia.
    - intros Hin. apply Hfresh in Hin. lia. }
  rewrite Ht5. simpl. rewrite Ht4, Ht3, Hg2. exact Ht1.
Qed.

Lemma digHoles_model_nothing positions g k :
  (k <= 0)%Z -> digHoles_model positions g k = (g, k).
Proof.
  intros Hk. destruct positions as [|[r c] rest]; [reflexivity|].
  cbn [digHoles_model]. destruct (Z.leb_spec k 0); [reflexivity|lia].
Qed.

(* ====================================================================== *)
(** * The page: running GameManager                                       *)
(* ====================================================================== *)

Lemma andThen_Ok {A B : Type} (m : G A) (k : A -> G B) w a w' :
  m w = (Ok a, w') -> andThen m k w = k a w'.
Proof. intros H. unfold andThen. now rewrite H. Qed.

Lemma core_run {A : Type} (m : M A) w r s :
  m (js w) = (r, s) -> core m w = (r, mkWorld s (me w) (env w)).
Proof. intros H. unfold core. now rewrite H. Qed.

Lemma core_pure {A : Type} (m : M A) w a :
  m (js w) = (Ok a, js w) -> core m w = (Ok a, w).
Proof. intros H. rewrite (core_run m w _ _ H). now destruct w. Qed.

Lemma isValidValue_string board row col v :
  isValidValue board row col (JString v) = isValid board row col v.
Proof. reflexivity. Qed.

Lemma filterM_pure {A : Type} (p : A -> M bool) (q : A -> bool) l s :
  (forall x, In x l -> p x s = (Ok (q x), s)) ->
  filterM p l s = (Ok (filter q l), s).
Proof.
  induction l as [|x l IH]; intros H; [reflexivity|].
  cbn [filterM filter].
  rewrite (bind_Ok _ _ _ _ _ (H x (or_introl eq_refl))).
  rewrite (bind_Ok _ _ _ _ _ (IH (fun y Hy => H y (or_intror Hy)))).
  reflexivity.
Qed.

Lemma sameValue_strings a b : sameValue (JString a) (JString b) = String.eqb a b.
Proof. reflexivity. Qed.

Lemma checkWin_run w gu gs :
  repr (heap (js w)) (userGrid (me w)) gu ->
  repr (heap (js w)) (solution (me w)) gs ->
  List.length gu = SIZE -> List.length gs = SIZE ->
  GameManager.checkWin w = (Ok (checkWin_model gu gs), w).
Proof.
  intros Hu Hs Hlu Hls. unfold GameManager.checkWin.
  rewrite (andThen_Ok this _ w (me w) w eq_refl).
  erewrite andThen_Ok; [reflexivity|].
  apply core_pure.
  apply existsM_pure with
    (q := fun r => existsb (fun c => negb (sameValue (look gu r c) (look gs r c)))
                     (seq 0 SIZE)).
  intros r Hr. apply in_seq in Hr.
  apply existsM_pure with
    (q := fun c => negb (sameValue (look gu r c) (look gs r c))).
  intros c _.
  rewrite (bind_Ok _ _ _ _ _ (readCell_repr (js w) _ gu r c Hu ltac:(lia))).
  rewrite (bind_Ok _ _ _ _ _ (readCell_repr (js w) _ gs r c Hs ltac:(lia))).
  reflexivity.
Qed.

Lemma checkWin_model_true gu gs :
  square gu -> square gs -> (checkWin_model gu gs = true <-> gu = gs).
Proof.
  intros Hu Hs. unfold checkWin_model. rewrite negb_true_iff. split.
  - intros H. apply grid_ext; auto. intros r c Hr Hc.
    destruct (String.eqb_spec (cell gu r c) (cell gs r c)) as [E|E]; [exact E|].
    exfalso. apply not_true_iff_false in H. apply H.
    apply existsb_exists. exists r. split; [apply in_seq; lia|].
    apply existsb_exists. exists c. split; [apply in_seq; lia|].
    rewrite !look_cell by auto. rewrite sameValue_strings.
    apply negb_true_iff. now apply String.eqb_neq.
  - intros ->. apply not_true_iff_false. intros H.
    apply existsb_exists in H as (r & Hr & H).
    apply existsb_exists in H as (c & Hc & H).
    apply in_seq in Hr, Hc.
    rewrite !look_cell in H by (auto; lia). rewrite sameValue_strings in H.
    rewrite String.eqb_refl in H. discriminate.
Qed.

Lemma gameWon_run w :
  exists w',
    GameManager.gameWon w = (Ok tt, w') /\
    me w' = me w /\ heap (js w') = heap (js w) /\
    tape (gen (js w')) = tape (gen (js w)) /\
    intervals (env w') = cleared (timerInterval (me w)) (intervals (env w)) /\
    nextTimer (env w') = nextTimer (env w) /\
    best (env w') = (if improves (seconds (me w)) (best (env w))
                     then Some (seconds (me w)) else best (env w)) /\
    hints (env w') = hints (env w) /\ today (env w') = today (env w) /\
    canVibrate (env w') = canVibrate (env w) /\
    callsBetween w w' (winCalls (seconds (me w)) (best (env w))).
Proof.
  destruct w as [s [p so u t n sel h] [sh iv nt [b|] hi td cv]];
    unfold callsBetween, winCalls, improves, cleared;
    unfold GameManager.gameWon, GameManager.stopTimer, GameManager.saveBestScore,
      GameManager.loadBestScore, UIManager.showWinModal, UIManager.startConfetti,
      UIManager.updateBestScore, clearInterval, getBest, setBest, show, browserDo,
      core, liftRng, this, andThen, done;
    cbn [js me env shown intervals nextTimer best hints today canVibrate
         puzzle solution userGrid timerInterval seconds selectedCell hintsLeft];
    destruct t; cbn; try destruct (n <? b)%Z; cbn; eexists; (split; [reflexivity|]); cbn; repeat split; reflexivity.
Qed.

Lemma NoDup_app_parts {A : Type} (a b : list A) :
  NoDup (a ++ b) -> NoDup a /\ NoDup b /\ forall x, In x a -> ~ In x b.
Proof.
  induction a as [|x a IH]; simpl; intros H.
  - split; [constructor|]. split; [exact H|]. intros x [].
  - inversion H as [|? ? Hx Hnd]; subst. destruct (IH Hnd) as (Ha & Hb & Hd).
    split; [constructor; auto; intros Hin; apply Hx, in_or_app; auto|].
    split; [exact Hb|].
    intros y [<-|Hy]; [intros Hin; apply Hx, in_or_app; auto|now apply Hd].
Qed.

Lemma show_run c w :
  show c w = (Ok tt, mkWorld (js w) (me w) (withShown [c] (env w))).
Proof. reflexivity. Qed.

Lemma withShown_app a b e : withShown a (withShown b e) = withShown (a ++ b) e.
Proof. unfold withShown. cbn. now rewrite app_assoc. Qed.

Lemma withShown_nil e : withShown [] e = e.
Proof. now destruct e. Qed.

Lemma playing_same w w' gp gs gu :
  playing w gp gs gu -> heap (js w') = heap (js w) -> me w' = me w ->
  playing w' gp gs gu.
Proof.
  intros [Hp Hs Hu Hnd HS Hpz Hsq Hcl Hsel] Hh Hm.
  constructor; rewrite ?Hh, ?Hm; auto.
Qed.

(** Writing to an empty cell of the puzzle keeps the game in order. *)
Lemma playing_write w gp gs gu r c v s1 e1 :
  playing w gp gs gu -> r < SIZE -> c < SIZE -> cell gp r c = EMPTY ->
  repr (heap s1) (userGrid (me w)) (setCell gu r c v) ->
  unchangedOutside (userGrid (me w)) (heap (js w)) (heap s1) ->
  playing (mkWorld s1 (me w) e1) gp gs (setCell gu r c v).
Proof.
  intros [Hp Hs Hu Hnd HS Hpz Hsq Hcl Hsel] Hr Hc He Hrep [_ Hout].
  destruct (NoDup_app_parts _ _ Hnd) as (_ & Hnd2 & Hd1).
  destruct (NoDup_app_parts _ _ Hnd2) as (_ & _ & Hd2).
  constructor; cbn [js me env]; auto.
  - apply repr_same with (h := heap (js w)); [exact Hp|].
    intros l Hin. apply Hout. intros Hin'.
    apply (Hd1 l Hin). apply in_or_app. now right.
  - apply repr_same with (h := heap (js w)); [exact Hs|].
    intros l Hin. apply Hout. now apply Hd2.
  - now apply square_setCell.
  - intros r' c' Hr' Hc' Hne. rewrite cell_setCell by auto.
    destruct (Nat.eqb_spec r' r) as [->|]; [|now apply Hcl].
    destruct (Nat.eqb_spec c' c) as [->|]; [|now apply Hcl].
    contradiction.
Qed.

Lemma handleInput_run w gp gs gu r c v :
  playing w gp gs gu -> selectedCell (me w) = Some (r, c) -> cell gp r c = EMPTY ->
  exists w',
    GameManager.handleInput (JString v) w = (Ok tt, w') /\
    playing w' gp gs (setCell gu r c v) /\
    me w' = me w /\
    tape (gen (js w')) = tape (gen (js w)) /\
    unchangedOutside (userGrid (me w)) (heap (js w)) (heap (js w')) /\
    callsBetween w w'
      ((if checkWin_model (setCell gu r c v) gs
        then winCalls (seconds (me w)) (best (env w)) else []) ++
       (if negb (String.eqb v EMPTY) &&
           negb (isValid_model (setCell gu r c v) r c v)
        then shakeCalls (canVibrate (env w)) r c else []) ++
       [UpdateCell r c (JString v)]) /\
    intervals (env w') =
      (if checkWin_model (setCell gu r c v) gs
       then cleared (timerInterval (me w)) (intervals (env w))
       else intervals (env w)) /\
    best (env w') =
      (if checkWin_model (setCell gu r c v) gs && improves (seconds (me w)) (best (env w))
       then Some (seconds (me w)) else best (env w)) /\
    nextTimer (env w') = nextTimer (env w) /\
    hints (env w') = hints (env w) /\ today (env w') = today (env w) /\
    canVibrate (env w') = canVibrate (env w).
Proof.
  intros Hplay Hsel He.
  destruct (play_selected _ _ _ _ Hplay r c Hsel) as [Hr Hc].
  pose proof (play_puzzle _ _ _ _ Hplay) as Hp.
  pose proof (play_user _ _ _ _ Hplay) as Hu.
  pose proof (play_square _ _ _ _ Hplay) as Hsq.
  assert (Hgp : square gp) by apply (play_puzzleOf _ _ _ _ Hplay).
  assert (Hgs : square gs) by apply (play_solved _ _ _ _ Hplay).
  destruct (NoDup_app_parts _ _ (play_rows _ _ _ _ Hplay)) as (_ & Hnd2 & _).
  destruct (NoDup_app_parts _ _ Hnd2) as (_ & Hndu & _).
  unfold GameManager.handleInput.
  rewrite (andThen_Ok this _ w (me w) w eq_refl). rewrite Hsel.
  (* the cell is not a clue *)
  assert (R1 : core (readCell (puzzle (me w)) r c) w = (Ok (JString EMPTY), w)).
  { apply core_pure. rewrite (readCell_repr _ _ gp r c Hp) by (destruct Hgp; lia).
    rewrite look_cell by auto. now rewrite He. }
  rewrite (andThen_Ok _ _ _ _ _ R1). cbn [strictEq negb].
  change (String.eqb EMPTY EMPTY) with true. cbn [negb].
  (* the write *)
  destruct (writeCell_repr (js w) (userGrid (me w)) gu r c v Hu Hndu Hsq Hr Hc)
    as (s1 & W & Hg1 & Hrep1 & Hout1).
  rewrite (andThen_Ok _ _ _ _ _ (core_run _ w _ _ W)).
  set (w1 := mkWorld s1 (me w) (env w)).
  assert (P1 : forall e1, playing (mkWorld s1 (me w) e1) gp gs (setCell gu r c v)).
  { intros e1. now apply (playing_write w). }
  unfold UIManager.updateCell. rewrite (andThen_Ok _ _ _ _ _ (show_run _ w1)).
  cbn [js me env w1].
  set (gu' := setCell gu r c v) in *.
  (* the conflict *)
  set (clash := negb (String.eqb v EMPTY) && negb (isValid_model gu' r c v)).
  set (e2 := withShown ((if clash then shakeCalls (canVibrate (env w)) r c else []) ++
                        [UpdateCell r c (JString v)]) (env w)).
  match goal with
  | |- exists w', andThen ?m ?k ?w0 = _ /\ _ =>
      assert (R2 : m w0 = (Ok tt, mkWorld s1 (me w) e2))
  end.
  { rewrite sameValue_strings. unfold e2, clash.
    destruct (String.eqb v EMPTY); cbn [negb andb app]; [reflexivity|].
    rewrite isValidValue_string.
    erewrite andThen_Ok;
      [|apply core_pure; cbn [js];
        apply (isValid_refines s1 _ gu' r c v (play_user _ _ _ _ (P1 (env w))));
        [apply square_setCell; auto|auto]].
    destruct (isValid_model gu' r c v); cbn [negb]; [reflexivity|].
    unfold UIManager.triggerShake, shakeCalls, vibrateInNavigator, browserDo, show,
      andThen, withShown, done.
    cbn [js me env shown intervals nextTimer best hints today canVibrate].
    destruct (canVibrate (env w)); reflexivity. }
  rewrite (andThen_Ok _ _ _ _ _ R2).
  (* the win *)
  set (w2 := mkWorld s1 (me w) e2).
  rewrite (andThen_Ok _ _ _ _ _
             (checkWin_run w2 gu' gs (play_user _ _ _ _ (P1 e2))
                (play_solution _ _ _ _ (P1 e2))
                (proj1 (square_setCell gu r c v Hsq)) (proj1 Hgs))).
  destruct (checkWin_model gu' gs); cbn [andb app].
  - destruct (gameWon_run w2)
      as (w' & Run & Hme & Hheap & Htape & Hint & Hnt & Hbest & Hhi & Htd & Hcv & Hcalls).
    exists w'. split; [exact Run|].
    split; [apply (playing_same w2 w'); [apply P1|exact Hheap|exact Hme]|].
    split; [exact Hme|]. split; [rewrite Htape; cbn; now rewrite Hg1|].
    split; [now rewrite Hheap|]. split.
    { unfold callsBetween in *. rewrite Hcalls. cbn [w2 env e2 withShown shown me].
      now rewrite <- !app_assoc. }
    cbn [w2 env e2 withShown me intervals best nextTimer hints today canVibrate seconds]
      in Hint, Hnt, Hbest, Hhi, Htd, Hcv.
    repeat split; assumption.
  - exists w2. split; [reflexivity|]. split; [apply P1|].
    split; [reflexivity|]. split; [cbn; now rewrite Hg1|]. split; [exact Hout1|].
    split; [unfold callsBetween; reflexivity|].
    repeat split; reflexivity.
Qed.

Lemma mapM_pure {A B : Type} (f : A -> M B) (q : A -> B) l s :
  (forall x, In x l -> f x s = (Ok (q x), s)) ->
  mapM f l s = (Ok (map q l), s).
Proof.
  induction l as [|x l IH]; intros H; [reflexivity|].
  cbn [mapM map].
  rewrite (bind_Ok _ _ _ _ _ (H x (or_introl eq_refl))).
  rewrite (bind_Ok _ _ _ _ _ (IH (fun y Hy => H y (or_intror Hy)))).
  reflexivity.
Qed.

Lemma cleared_twice id running :
  cleared id (cleared id running) = cleared id running.
Proof.
  destruct id as [i|]; [|reflexivity]. unfold cleared.
  induction running as [|j l IH]; [reflexivity|]. cbn [filter].
  destruct (negb (j =? i)) eqn:E; cbn [filter]; rewrite ?E, IH; reflexivity.
Qed.

Lemma oneTimer_cleared w : oneTimer w -> cleared (timerInterval (me w)) (intervals (env w)) = [].
Proof.
  intros [H|(id & H & Ht)]; rewrite H.
  - now destruct (timerInterval (me w)).
  - rewrite Ht. cbn. now rewrite Nat.eqb_refl.
Qed.


(** The empty cells that [useHint] collects are those that [emptyCount]
    counts. *)
Lemma emptyCells_run s b g :
  repr (heap s) b g -> square g ->
  filterM (fun rc => x <- readCell b (fst rc) (snd rc) ;; ret (strictEq x EMPTY))
          allPositions s
  = (Ok (filter (fun p => String.eqb (cell g (fst p) (snd p)) EMPTY) allPositions), s).
Proof.
  intros Hrep Hsq.
  rewrite (filterM_pure _ (fun p => strictEq (look g (fst p) (snd p)) EMPTY)).
  - do 2 f_equal. apply filter_ext_in. intros [r c] Hin.
    apply in_allPositions in Hin as [Hr Hc]. cbn [fst snd].
    now rewrite look_cell by auto.
  - intros [r c] Hin. apply in_allPositions in Hin as [Hr Hc]. cbn [fst snd].
    rewrite (bind_Ok _ _ _ _ _ (readCell_repr s b g r c Hrep ltac:(destruct Hsq; lia))).
    reflexivity.
Qed.

Lemma handleInput_ignored w val gp :
  repr (heap (js w)) (puzzle (me w)) gp -> square gp ->
  (selectedCell (me w) = None \/
   exists r c, selectedCell (me w) = Some (r, c) /\ r < SIZE /\ c < SIZE /\
               cell gp r c <> EMPTY) ->
  GameManager.handleInput val w = (Ok tt, w).
Proof.
  intros Hp Hgp H. unfold GameManager.handleInput.
  rewrite (andThen_Ok this _ w (me w) w eq_refl).
  destruct H as [->|(r & c & -> & Hr & Hc & Hne)]; [reflexivity|].
  assert (R1 : core (readCell (puzzle (me w)) r c) w = (Ok (JString (cell gp r c)), w)).
  { apply core_pure. rewrite (readCell_repr _ _ gp r c Hp) by (destruct Hgp; lia).
    now rewrite look_cell by auto. }
  rewrite (andThen_Ok _ _ _ _ _ R1). cbn [strictEq].
  now rewrite (proj2 (String.eqb_neq _ _) Hne).
Qed.

Lemma useHint_none_left w :
  (hintsLeft (me w) <= 0)%Z ->
  GameManager.useHint w = (Ok tt, mkWorld (js w) (me w) (withShown [AlertNoHints] (env w))).
Proof.
  intros H. unfold GameManager.useHint.
  rewrite (andThen_Ok this _ w (me w) w eq_refl).
  now rewrite (proj2 (Z.leb_le _ _) H).
Qed.

Lemma useHint_nothing_empty w gp gs gu :
  playing w gp gs gu -> (0 < hintsLeft (me w))%Z -> emptyCount gu = 0 ->
  GameManager.useHint w = (Ok tt, w).
Proof.
  intros Hplay Hh H0. unfold GameManager.useHint.
  rewrite (andThen_Ok this _ w (me w) w eq_refl).
  rewrite (proj2 (Z.leb_gt _ _) Hh).
  rewrite (andThen_Ok _ _ _ _ _
             (core_pure _ w _ (emptyCells_run (js w) _ gu (play_user _ _ _ _ Hplay)
                                 (play_square _ _ _ _ Hplay)))).
  unfold emptyCount in H0. now rewrite H0.
Qed.

Lemma useHint_tail w :
  andThen this (fun f =>
    andThen (assign (setHintsLeft (hintsLeft f - 1))) (fun _ =>
      andThen GameManager.saveHints (fun _ =>
        andThen this (fun f => UIManager.updateHintDisplay (hintsLeft f))))) w
  = (Ok tt,
     mkWorld (js w) (setHintsLeft (hintsLeft (me w) - 1) (me w))
       (mkBrowser (UpdateHintDisplay (hintsLeft (me w) - 1) :: shown (env w))
          (intervals (env w)) (nextTimer (env w)) (best (env w))
          (Some (today (env w), (hintsLeft (me w) - 1)%Z)) (today (env w))
          (canVibrate (env w)))).
Proof. reflexivity. Qed.

Lemma useHint_run w gp gs gu :
  playing w gp gs gu -> (0 < hintsLeft (me w))%Z -> emptyCount gu <> 0 ->
  exists r c w',
    r < SIZE /\ c < SIZE /\ cell gu r c = EMPTY /\
    GameManager.useHint w = (Ok tt, w') /\
    playing w' gp gs (setCell gu r c (cell gs r c)) /\
    me w' = setHintsLeft (hintsLeft (me w) - 1) (setSelectedCell (Some (r, c)) (me w)) /\
    tape (gen (js w')) = tape (gen (js w)) /\
    unchangedOutside (userGrid (me w)) (heap (js w)) (heap (js w')) /\
    callsBetween w w'
      (UpdateHintDisplay (hintsLeft (me w) - 1) ::
       (if checkWin_model (setCell gu r c (cell gs r c)) gs
        then winCalls (seconds (me w)) (best (env w)) else []) ++
       (if negb (String.eqb (cell gs r c) EMPTY) &&
           negb (isValid_model (setCell gu r c (cell gs r c)) r c (cell gs r c))
        then shakeCalls (canVibrate (env w)) r c else []) ++
       [UpdateCell r c (JString (cell gs r c))]) /\
    intervals (env w') =
      (if checkWin_model (setCell gu r c (cell gs r c)) gs
       then cleared (timerInterval (me w)) (intervals (env w))
       else intervals (env w)) /\
    best (env w') =
      (if checkWin_model (setCell gu r c (cell gs r c)) gs &&
          improves (seconds (me w)) (best (env w))
       then Some (seconds (me w)) else best (env w)) /\
    nextTimer (env w') = nextTimer (env w) /\
    hints (env w') = Some (today (env w), (hintsLeft (me w) - 1)%Z) /\
    today (env w') = today (env w) /\
    canVibrate (env w') = canVibrate (env w).
Proof.
  intros Hplay Hh Hne.
  pose proof (play_square _ _ _ _ Hplay) as Hsq.
  assert (Hgs : square gs) by apply (play_solved _ _ _ _ Hplay).
  unfold GameManager.useHint.
  rewrite (andThen_Ok this _ w (me w) w eq_refl).
  rewrite (proj2 (Z.leb_gt _ _) Hh).
  rewrite (andThen_Ok _ _ _ _ _
             (core_pure _ w _ (emptyCells_run (js w) _ gu (play_user _ _ _ _ Hplay) Hsq))).
  unfold emptyCount in Hne.
  set (cells := filter (fun p => String.eqb (cell gu (fst p) (snd p)) EMPTY) allPositions)
    in *.
  rewrite (proj2 (Nat.eqb_neq _ _) Hne).
  (* the draw *)
  pose proof (randomBelow_range (Z.of_nat (List.length cells)) (gen (js w)) ltac:(lia))
    as Hi.
  assert (Ht : tape (snd (randomBelow (Z.of_nat (List.length cells)) (gen (js w))))
               = tape (gen (js w))) by reflexivity.
  destruct (randomBelow (Z.of_nat (List.length cells)) (gen (js w))) as [i rnd] eqn:Ei.
  cbn [fst snd] in Hi, Ht.
  assert (R1 : core (liftRng (randomBelow (Z.of_nat (List.length cells)))) w
               = (Ok i, mkWorld (mkState (heap (js w)) rnd) (me w) (env w))).
  { unfold core, liftRng. now rewrite Ei. }
  rewrite (andThen_Ok _ _ _ _ _ R1).
  destruct (nth_error cells (Z.to_nat i)) as [[r c]|] eqn:En;
    [|apply nth_error_None in En; lia].
  assert (Hin : In (r, c) cells) by (eapply nth_error_In; eauto).
  apply filter_In in Hin as [Hpos Hempty]. cbn [fst snd] in Hempty.
  apply in_allPositions in Hpos as [Hr Hc]. apply String.eqb_eq in Hempty.
  cbn [fst snd].
  (* the letter of the solution *)
  set (w1 := mkWorld (mkState (heap (js w)) rnd) (me w) (env w)).
  assert (P1 : playing w1 gp gs gu) by (apply (playing_same w); auto).
  assert (R2 : core (readCell (solution (me w)) r c) w1 = (Ok (JString (cell gs r c)), w1)).
  { apply core_pure.
    rewrite (readCell_repr (js w1) (solution (me w)) gs r c (play_solution _ _ _ _ P1))
      by (destruct Hgs; lia).
    now rewrite look_cell by auto. }
  rewrite (andThen_Ok _ _ _ _ _ R2).
  set (w2 := mkWorld (js w1) (setSelectedCell (Some (r, c)) (me w)) (env w)).
  rewrite (andThen_Ok (assign _) _ w1 tt w2 eq_refl).
  assert (P2 : playing w2 gp gs gu).
  { destruct P1 as [Hp Hs Hu Hnd HS Hpz Hsq' Hcl Hsel].
    constructor; auto. cbn. intros r' c' [= <- <-]. auto. }
  assert (Hgp : cell gp r c = EMPTY).
  { destruct (string_dec (cell gp r c) EMPTY) as [E|E]; [exact E|].
    exfalso. apply E. rewrite <- (play_clues _ _ _ _ Hplay r c Hr Hc E). exact Hempty. }
  destruct (handleInput_run w2 gp gs gu r c (cell gs r c) P2 eq_refl Hgp)
    as (w3 & Run & P3 & Hme & Htape & Hout & Hcalls & Hint & Hbest & Hnt & Hhi & Htd & Hcv).
  rewrite (andThen_Ok _ _ _ _ _ Run).
  rewrite (useHint_tail w3).
  exists r, c. eexists. split; [exact Hr|]. split; [exact Hc|]. split; [exact Hempty|].
  split; [reflexivity|].
  split.
  { destruct P3 as [Hp Hs Hu Hnd HS Hpz Hsq' Hcl Hsel].
    constructor; cbn [js me env]; rewrite ?Hme;
      cbn [w2 me puzzle solution userGrid selectedCell setHintsLeft setSelectedCell];
      rewrite ?Hme in Hp, Hs, Hu, Hnd; auto.
    intros r' c' [= <- <-]. auto. }
  cbn [js me env shown intervals nextTimer best hints today canVibrate].
  rewrite Hme. cbn [w2 me hintsLeft setSelectedCell].
  split; [reflexivity|]. split; [exact (eq_trans Htape Ht)|]. split; [exact Hout|].
  split; [unfold callsBetween in *; cbn [env shown]; now rewrite Hcalls|].
  split; [exact Hint|]. split; [exact Hbest|]. split; [exact Hnt|].
  split; [now rewrite Htd|]. split; [exact Htd|exact Hcv].
Qed.

Lemma blockCells_run w bp bu gp gu br bc :
  repr (heap (js w)) bp gp -> repr (heap (js w)) bu gu ->
  List.length gp = SIZE -> List.length gu = SIZE -> br < 2 -> bc < 2 ->
  UIManager.blockCells bp bu br bc w
  = (Ok (map (fun rc => mkCellView (br * 2 + fst rc) (bc * 2 + snd rc)
                          (look gu (br * 2 + fst rc) (bc * 2 + snd rc))
                          (negb (strictEq (look gp (br * 2 + fst rc) (bc * 2 + snd rc))
                                          EMPTY)))
             [(0, 0); (0, 1); (1, 0); (1, 1)]),
     mkWorld (js w) (me w)
       (mkBrowser (shown (env w)) (intervals (env w)) (S (nextTimer (env w)))
          (best (env w)) (hints (env w)) (today (env w)) (canVibrate (env w)))).
Proof.
  intros Hp Hu Hlp Hlu Hbr Hbc. unfold UIManager.blockCells.
  rewrite (andThen_Ok setTimeout _ w tt _ eq_refl).
  apply core_pure. cbn [js].
  apply mapM_pure. intros [r c] Hin. cbn [fst snd].
  assert (r < 2).
  { simpl in Hin. destruct Hin as [E|[E|[E|[E|[]]]]]; injection E as <- <-; lia. }
  assert (Hru : br * 2 + r < List.length gu) by (unfold SIZE in *; lia).
  assert (Hrp : br * 2 + r < List.length gp) by (unfold SIZE in *; lia).
  rewrite (bind_Ok _ _ _ _ _ (readCell_repr (js w) bu gu _ (bc * 2 + c) Hu Hru)).
  rewrite (bind_Ok _ _ _ _ _ (readCell_repr (js w) bp gp _ (bc * 2 + c) Hp Hrp)).
  reflexivity.
Qed.

Lemma renderGrid_run w bp bu gp gu :
  repr (heap (js w)) bp gp -> repr (heap (js w)) bu gu ->
  List.length gp = SIZE -> List.length gu = SIZE ->
  UIManager.renderGrid bp bu w
  = (Ok tt,
     mkWorld (js w) (me w)
       (mkBrowser (RenderGrid (renderCells gp gu) :: shown (env w)) (intervals (env w))
          (4 + nextTimer (env w)) (best (env w)) (hints (env w)) (today (env w))
          (canVibrate (env w)))).
Proof.
  intros Hp Hu Hlp Hlu. unfold UIManager.renderGrid.
  rewrite (andThen_Ok _ _ _ _ _ (blockCells_run w bp bu gp gu 0 0 Hp Hu Hlp Hlu
                                   ltac:(lia) ltac:(lia))).
  match goal with
  | |- andThen _ _ ?w0 = _ =>
      rewrite (andThen_Ok _ _ _ _ _ (blockCells_run w0 bp bu gp gu 0 1 Hp Hu Hlp Hlu
                                       ltac:(lia) ltac:(lia)))
  end.
  match goal with
  | |- andThen _ _ ?w0 = _ =>
      rewrite (andThen_Ok _ _ _ _ _ (blockCells_run w0 bp bu gp gu 1 0 Hp Hu Hlp Hlu
                                       ltac:(lia) ltac:(lia)))
  end.
  match goal with
  | |- andThen _ _ ?w0 = _ =>
      rewrite (andThen_Ok _ _ _ _ _ (blockCells_run w0 bp bu gp gu 1 1 Hp Hu Hlp Hlu
                                       ltac:(lia) ltac:(lia)))
  end.
  reflexivity.
Qed.

(** A solved grid with one cell emptied can only be refilled as it was:
    the letter that is missing in the row is the one that was there. *)
Lemma solved_blank_unique sol r c :
  solvedGrid sol -> r < SIZE -> c < SIZE ->
  countSolutions_model (setCell sol r c EMPTY) = 1.
Proof.
  intros HS Hr Hc.
  assert (Hsq : square sol) by apply HS.
  apply count_one_iff.
  - apply isGrid_setCell; auto. now apply solvedGrid_isGrid.
  - apply noConflict_blank; auto. now apply solvedGrid_noConflict.
  - exists sol. split; [split; [exact HS|now apply agrees_blank]|].
    intros G [HG Ha].
    assert (Hother : forall r' c', r' < SIZE -> c' < SIZE -> (r', c') <> (r, c) ->
                       cell G r' c' = cell sol r' c').
    { intros r' c' Hr' Hc' Hne.
      rewrite <- (cell_setCell_neq sol r c EMPTY r' c' Hsq Hr Hc Hne).
      apply Ha; auto. rewrite cell_setCell_neq by auto.
      now apply solvedGrid_full. }
    apply grid_ext; [apply HG|exact Hsq|].
    intros r' c' Hr' Hc'.
    destruct (Nat.eq_dec r' r) as [->|Hnr];
      [destruct (Nat.eq_dec c' c) as [->|Hnc]|];
      [|apply Hother; auto; congruence|apply Hother; auto; congruence].
    destruct (string_dec (cell G r c) (cell sol r c)) as [E|E]; [exact E|].
    exfalso.
    destruct (solvedGrid_row_has sol r (cell G r c) HS Hr
                (solvedGrid_letters G r c HG Hr Hc)) as (c0 & Hc0 & E0).
    assert (Hne : c0 <> c) by (intros ->; now apply E).
    apply (solvedGrid_noConflict G HG r c r c0 Hr Hc Hr Hc0).
    + split; [congruence|]. now left.
    + now apply solvedGrid_full.
    + rewrite Hother by (auto; congruence). exact E0.
Qed.

(** So the digging loop, when it has anything to remove, removes the
    first cell it comes to. *)
Lemma digHoles_model_starts sol positions k :
  solvedGrid sol -> NoDup positions -> positions <> [] ->
  (forall p, In p positions -> fst p < SIZE /\ snd p < SIZE) ->
  (0 < k)%Z ->
  (snd (digHoles_model positions sol k) < k)%Z.
Proof.
  intros HS Hnd Hne Hpos Hk.
  destruct positions as [|[r c] rest]; [contradiction|].
  destruct (Hpos (r, c) (or_introl eq_refl)) as [Hr Hc]. cbn [fst snd] in Hr, Hc.
  inversion Hnd as [|? ? Hnin Hnd']; subst.
  cbn [digHoles_model].
  rewrite (proj2 (Z.leb_gt k 0) Hk).
  rewrite (solved_blank_unique sol r c HS Hr Hc). cbn [Nat.eqb negb].
  destruct (digHoles_model_clues rest (setCell sol r c EMPTY) (k - 1)%Z) as [H _].
  - apply square_setCell, HS.
  - exact Hnd'.
  - intros [r' c'] Hin. destruct (Hpos _ (or_intror Hin)) as [Hr' Hc'].
    cbn [fst snd] in *. split; [exact Hr'|]. split; [exact Hc'|].
    rewrite cell_setCell_neq; [now apply solvedGrid_full|apply HS|exact Hr|exact Hc|].
    intros E. apply Hnin. now rewrite <- E.
  - lia.
  - lia.
Qed.

(** All that is known of a run of [generatePuzzle()]. *)
Lemma generatePuzzle_default_full s :
  exists bp bs s' gp gs,
    generatePuzzle_default s = (Ok (bp, bs), s') /\
    repr (heap s') bp gp /\ repr (heap s') bs gs /\
    solvedGrid gs /\ puzzleOf gs gp /\ 6 <= clueCount gp /\
    clueCount gp < SIZE * SIZE /\
    NoDup (bp ++ bs) /\
    (forall l, In l (bp ++ bs) -> List.length (heap s) <= l) /\
    heapGrows (heap s) (heap s') /\
    tape (gen s') = tape (gen s).
Proof.
  destruct (generatePuzzle_dig_full 6 8 s)
    as (bp & bs & s' & sol & positions & j & Hrun & Hrepp & Hreps & HS & Hperm & Hj
        & Hndp & Hnds & Hdisj & Hfresh & Hgrow & Htape).
  specialize (Hj ltac:(lia)).
  set (k := (Z.of_nat (SIZE * SIZE) - (j + 6))%Z) in *.
  set (gp := fst (digHoles_model positions sol k)) in *.
  assert (Hpos : forall p, In p positions -> fst p < SIZE /\ snd p < SIZE).
  { intros [r c] Hin. apply in_allPositions. eapply Permutation_in; eauto. }
  assert (Hp : puzzleOf sol gp).
  { apply digHoles_model_inv; auto. now apply puzzleOf_solution. }
  destruct (digHoles_model_clues positions sol k (proj1 HS)) as [Hk Hclues].
  { eapply Permutation_NoDup; [apply Permutation_sym; exact Hperm|].
    apply allPositions_NoDup. }
  { intros p Hin. destruct (Hpos p Hin) as [Hr Hc]. repeat split; auto.
    now apply solvedGrid_full. }
  { unfold k. change (Z.of_nat (SIZE * SIZE)) with 16%Z. lia. }
  fold gp in Hclues.
  rewrite (clueCount_full sol) in Hclues by (intros; now apply solvedGrid_full).
  exists bp, bs, s', gp, sol.
  split; [unfold generatePuzzle_default, generatePuzzle;
          now rewrite (bind_Ok _ _ _ _ _ Hrun)|].
  split; [exact Hrepp|]. split; [exact Hreps|]. split; [exact HS|].
  split; [exact Hp|].
  assert (Hrem : (snd (digHoles_model positions sol k) < k)%Z).
  { apply digHoles_model_starts; auto.
    - eapply Permutation_NoDup; [apply Permutation_sym; exact Hperm|].
      apply allPositions_NoDup.
    - intros ->. apply Permutation_length in Hperm. discriminate.
    - unfold k. change (Z.of_nat (SIZE * SIZE)) with 16%Z. lia. }
  split; [unfold k in *; change (Z.of_nat (SIZE * SIZE)) with 16%Z in *; lia|].
  split; [unfold k in *; change (SIZE * SIZE) with 16 in *; lia|].
  split; [apply NoDup_app; [exact Hndp|exact Hnds|exact Hdisj]|].
  split; [intros l Hin; apply in_app_or in Hin; now apply Hfresh|].
  split; [exact Hgrow|exact Htape].
Qed.

Lemma stopTimer_run w :
  GameManager.stopTimer w
  = (Ok tt,
     mkWorld (js w) (me w)
       (mkBrowser (shown (env w)) (cleared (timerInterval (me w)) (intervals (env w)))
          (nextTimer (env w)) (best (env w)) (hints (env w)) (today (env w))
          (canVibrate (env w)))).
Proof.
  destruct w as [s f [sh iv nt b hi td cv]]. unfold cleared, GameManager.stopTimer,
    clearInterval, browserDo, this, andThen. cbn [js me env].
  destruct (timerInterval f); reflexivity.
Qed.

Lemma startTimer_run w :
  GameManager.startTimer w
  = (Ok tt,
     mkWorld (js w)
       (setTimerInterval (Some (nextTimer (env w))) (setSeconds 0 (me w)))
       (mkBrowser (UpdateTimer (UIManager.timeText 0) :: shown (env w))
          (nextTimer (env w) :: cleared (timerInterval (me w)) (intervals (env w)))
          (S (nextTimer (env w))) (best (env w)) (hints (env w)) (today (env w))
          (canVibrate (env w)))).
Proof.
  destruct w as [s [p so u t n sel h] [sh iv nt b hi td cv]].
  unfold cleared, GameManager.startTimer, UIManager.updateTimer, clearInterval,
    setInterval, show, browserDo, assign, this, andThen.
  cbn [js me env shown intervals nextTimer best hints today canVibrate
       timerInterval setSeconds fst snd].
  destruct t; reflexivity.
Qed.

Ltac run_this :=
  match goal with
  | |- context [andThen this ?k ?w0] =>
      rewrite (andThen_Ok this k w0 (me w0) w0 eq_refl); cbv beta
  end.

Ltac run_assign :=
  match goal with
  | |- context [andThen (assign ?f) ?k ?w0] =>
      rewrite (andThen_Ok (assign f) k w0 tt (mkWorld (js w0) (f (me w0)) (env w0))
                 eq_refl)
  end.

Ltac fields_cbn :=
  cbn [js me env fst snd puzzle solution userGrid timerInterval seconds selectedCell
       hintsLeft setPuzzle setSolution setUserGrid setTimerInterval setSeconds
       setSelectedCell setHintsLeft shown intervals nextTimer best hints today
       canVibrate].

Lemma initGame_run w :
  exists w' gp gs,
    GameManager.initGame w = (Ok tt, w') /\
    playing w' gp gs gp /\ 6 <= clueCount gp /\ clueCount gp < SIZE * SIZE /\
    seconds (me w') = 0%Z /\ selectedCell (me w') = None /\
    hintsLeft (me w') = hintsLeft (me w) /\
    timerInterval (me w') = Some (nextTimer (env w)) /\
    intervals (env w') =
      nextTimer (env w) :: cleared (timerInterval (me w)) (intervals (env w)) /\
    nextTimer (env w') = 5 + nextTimer (env w) /\
    best (env w') = best (env w) /\ hints (env w') = hints (env w) /\
    today (env w') = today (env w) /\ canVibrate (env w') = canVibrate (env w) /\
    callsBetween w w'
      [UpdateHintDisplay (hintsLeft (me w)); RenderGrid (renderCells gp gp);
       UpdateTimer (UIManager.timeText 0)] /\
    heapGrows (heap (js w)) (heap (js w')) /\
    tape (gen (js w')) = tape (gen (js w)) /\
    (forall l, In l (puzzle (me w') ++ solution (me w') ++ userGrid (me w')) ->
               List.length (heap (js w)) <= l).
Proof.
  destruct (generatePuzzle_default_full (js w))
    as (bp & bs & s1 & gp & gs & Run1 & Hrepp & Hreps & HS & Hpz & Hclues & Hopen & Hnd
        & Hfresh & Hgrow & Htape).
  destruct (jsonCopy_spec bp gp s1 Hrepp)
    as (bu & s2 & Run2 & Hg2 & Hrepu & Hndu & Hfreshu & Hgrow2).
  assert (Hgp : square gp) by apply Hpz.
  assert (Hold : forall l, In l (bp ++ bs) -> l < List.length (heap s1)).
  { intros l Hin. apply in_app_or in Hin as [Hin|Hin];
      [exact (repr_bound _ _ _ _ Hrepp Hin)|exact (repr_bound _ _ _ _ Hreps Hin)]. }
  pose proof (heapGrows_length _ _ Hgrow) as Hlen1.
  unfold GameManager.initGame.
  rewrite (andThen_Ok _ _ _ _ _ (core_run _ w _ _ Run1)).
  run_assign. run_assign. run_this. fields_cbn.
  match goal with
  | |- context [andThen (core (jsonCopy bp)) ?k ?w0] =>
      rewrite (andThen_Ok _ k _ _ _ (core_run (jsonCopy bp) w0 _ _ Run2))
  end.
  run_assign. run_assign. fields_cbn.
  match goal with
  | |- context [andThen GameManager.stopTimer ?k ?w0] =>
      rewrite (andThen_Ok _ k _ _ _ (stopTimer_run w0))
  end.
  fields_cbn.
  match goal with
  | |- context [andThen GameManager.startTimer ?k ?w0] =>
      rewrite (andThen_Ok _ k _ _ _ (startTimer_run w0))
  end.
  run_this. fields_cbn.
  assert (Hrepp2 : repr (heap s2) bp gp) by (now apply (repr_grows (heap s1))).
  assert (Hreps2 : repr (heap s2) bs gs) by (now apply (repr_grows (heap s1))).
  match goal with
  | |- context [andThen (UIManager.renderGrid bp bu) ?k ?w0] =>
      rewrite (andThen_Ok _ k _ _ _
                 (renderGrid_run w0 bp bu gp gp Hrepp2 Hrepu (proj1 Hgp) (proj1 Hgp)))
  end.
  run_this. fields_cbn. unfold UIManager.updateHintDisplay. rewrite show_run.
  eexists. exists gp, gs. split; [reflexivity|].
  cbn [js me env puzzle solution userGrid timerInterval seconds selectedCell hintsLeft
       shown intervals nextTimer best hints today canVibrate].
  split.
  { constructor;
      cbn [js me env puzzle solution userGrid timerInterval seconds selectedCell
           hintsLeft]; auto.
    - rewrite app_assoc. apply NoDup_app; [exact Hnd|exact Hndu|].
      intros l Hin Hin'. apply Hold in Hin. apply Hfreshu in Hin'. lia.
    - intros r c [=]. }
  split; [exact Hclues|]. split; [exact Hopen|].
  split; [reflexivity|]. split; [reflexivity|].
  split; [reflexivity|]. split; [reflexivity|].
  split; [now rewrite cleared_twice|].
  split; [reflexivity|]. split; [reflexivity|]. split; [reflexivity|].
  split; [reflexivity|]. split; [reflexivity|].
  split; [reflexivity|].
  split; [eapply heapGrows_trans; eauto|].
  split; [now rewrite Hg2|].
  intros l Hin. rewrite app_assoc in Hin. apply in_app_or in Hin as [Hin|Hin].
  - now apply Hfresh.
  - apply Hfreshu in Hin. lia.
Qed.



Lemma playing_fields w w' gp gs gu :
  playing w gp gs gu -> heap (js w') = heap (js w) ->
  puzzle (me w') = puzzle (me w) -> solution (me w') = solution (me w) ->
  userGrid (me w') = userGrid (me w) ->
  (forall r c, selectedCell (me w') = Some (r, c) -> r < SIZE /\ c < SIZE) ->
  playing w' gp gs gu.
Proof.
  intros [Hp Hs Hu Hnd HS Hpz Hsq Hcl Hsel] Hh H1 H2 H3 H4.
  constructor; rewrite ?Hh, ?H1, ?H2, ?H3; auto.
Qed.



Lemma loadHints_run w :
  exists w',
    GameManager.loadHints w = (Ok tt, w') /\
    js w' = js w /\
    me w' = setHintsLeft (hintsLeft (me w')) (me w) /\
    intervals (env w') = intervals (env w) /\ shown (env w') = shown (env w) /\
    nextTimer (env w') = nextTimer (env w) /\ best (env w') = best (env w) /\
    today (env w') = today (env w) /\ canVibrate (env w') = canVibrate (env w) /\
    hints (env w') = Some (today (env w), hintsLeft (me w')) /\
    hintsLeft (me w') =
      match hints (env w) with
      | Some (date, count) => if String.eqb date (today (env w)) then count else MAX_HINTS
      | None => MAX_HINTS
      end.
Proof.
  destruct w as [s [p so u t n sel h] [sh iv nt b [[date count]|] td cv]];
    unfold GameManager.loadHints, GameManager.saveHints, getHints, toDateString, setHints,
      browserDo, assign, this, andThen;
    cbn [js me env shown intervals nextTimer best hints today canVibrate fst snd].
  - destruct (String.eqb_spec date td) as [->|Hne]; eexists; (split; [reflexivity|]);
      cbn; repeat split; reflexivity.
  - eexists; (split; [reflexivity|]); cbn; repeat split; reflexivity.
Qed.



Lemma oneGame_playing : playing oneGame onePuzzle firstSolution onePuzzle.
Proof.
  constructor.
  - repeat constructor.
  - repeat constructor.
  - repeat constructor.
  - repeat constructor; simpl; intuition discriminate.
  - apply firstSolution_solved.
  - split; [apply onePuzzle_isGrid|]. split; [apply onePuzzle_agrees|].
    vm_compute. reflexivity.
  - apply onePuzzle_isGrid.
  - reflexivity.
  - intros r c [= <- <-]. unfold SIZE. lia.
Qed.

Lemma oneGame_oneTimer : oneTimer oneGame.
Proof. left. reflexivity. Qed.

Lemma emptyCount_zero g :
  emptyCount g = 0 -> forall r c, r < SIZE -> c < SIZE -> cell g r c <> EMPTY.
Proof.
  unfold emptyCount. intros H r c Hr Hc E.
  apply length_zero_iff_nil in H.
  assert (Hin : In (r, c) (filter (fun p => String.eqb (cell g (fst p) (snd p)) EMPTY)
                             allPositions)).
  { apply filter_In. split; [exact (proj2 (in_allPositions r c) (conj Hr Hc))|].
    cbn [fst snd]. now apply String.eqb_eq. }
  rewrite H in Hin. exact Hin.
Qed.






Lemma padStart2_twoDigits_all :
  forallb (fun k => String.eqb (padStart2 (toString (Z.of_nat k))) (twoDigits (Z.of_nat k)))
          (seq 0 100) = true.
Proof. vm_compute. reflexivity. Qed.

Lemma padStart2_twoDigits k :
  (0 <= k < 100)%Z -> padStart2 (toString k) = twoDigits k.
Proof.
  intros Hk. pose proof padStart2_twoDigits_all as H.
  rewrite forallb_forall in H.
  specialize (H (Z.to_nat k)). rewrite Z2Nat.id in H by lia.
  apply String.eqb_eq, H, in_seq. lia.
Qed.

Lemma timeText_clock n :
  (0 <= n < 6000)%Z -> UIManager.timeText n = clockText n.
Proof.
  intros Hn. unfold UIManager.timeText, clockText.
  rewrite Z.rem_mod_nonneg by lia.
  rewrite !padStart2_twoDigits; [reflexivity| |].
  - pose proof (Z.mod_pos_bound n 60). lia.
  - split; [apply Z.div_pos; lia|]. apply Z.div_lt_upper_bound; lia.
Qed.

Lemma almostDone_playing : playing almostDone onePuzzle firstSolution oneLeft.
Proof.
  constructor.
  - repeat constructor.
  - repeat constructor.
  - repeat constructor.
  - repeat constructor; simpl; intuition discriminate.
  - apply firstSolution_solved.
  - split; [apply onePuzzle_isGrid|]. split; [apply onePuzzle_agrees|].
    vm_compute. reflexivity.
  - split; [reflexivity|]. repeat constructor.
  - intros r c Hr Hc Hne. unfold SIZE in *.
    destruct r as [|[|[|[|r]]]]; try lia;
      destruct c as [|[|[|[|c]]]]; try lia; try reflexivity;
      exfalso; apply Hne; reflexivity.
  - intros r c [= <- <-]. unfold SIZE. lia.
Qed.

Lemma almostDone_oneTimer : oneTimer almostDone.
Proof. right. exists 1. split; reflexivity. Qed.

Lemma saveBestScore_run time w :
  GameManager.saveBestScore time w
  = (Ok tt,
     if improves time (best (env w))
     then mkWorld (js w) (me w)
            (mkBrowser (UpdateBestScore (Some (UIManager.timeText time)) :: shown (env w))
               (intervals (env w)) (nextTimer (env w)) (Some time) (hints (env w))
               (today (env w)) (canVibrate (env w)))
     else w).
Proof.
  destruct w as [s f [sh iv nt [b|] hi td cv]];
    unfold GameManager.saveBestScore, GameManager.loadBestScore,
      UIManager.updateBestScore, getBest, setBest, show, browserDo, andThen, done, improves;
    cbn [js me env shown intervals nextTimer best hints today canVibrate fst snd];
    [destruct (time <? b)%Z|]; reflexivity.
Qed.

Lemma clueCount_open g :
  clueCount g < SIZE * SIZE -> emptyCount g <> 0.
Proof.
  intros H E. pose proof (emptyCount_zero g E) as Hfull.
  rewrite (clueCount_full g Hfull) in H. lia.
Qed.

Lemma interval_idle w ids :
  intervals (env w) = [] ->
  listeners (map GameManager.Interval ids) w = (Ok tt, w).
Proof.
  intros H. induction ids as [|id ids IH]; [reflexivity|].
  cbn [map listeners GameManager.listener].
  unfold andThen at 1. unfold andThen at 1, browserDo. rewrite H. cbn [existsb fst snd].
  destruct w as [s f e]. exact IH.
Qed.

(* ====================================================================== *)
(** * Theorems on the code                                                *)
(* ====================================================================== *)

(** C1.  [generatePuzzle], with any bounds, returns a puzzle and a
    solution such that: the solution is solved; every filled cell of the
    puzzle holds what the solution holds there; the solution is the one
    and only completion of the puzzle; [countSolutions] on the puzzle
    returns 1; and [solve] without randomization on a copy of the puzzle
    returns true and leaves the solution in the copy. *)
Theorem generatePuzzle_unique minClues maxClues s :
  exists puzzle solution s' gp gs,
    generatePuzzle minClues maxClues s = (Ok (puzzle, solution), s') /\
    repr (heap s') puzzle gp /\ repr (heap s') solution gs /\
    solvedGrid gs /\ agrees gp gs /\
    (forall G, completion gp G <-> G = gs) /\
    (exists s1, countSolutions puzzle s' = (Ok 1, s1)) /\
    (exists copy s1 s2,
       jsonCopy puzzle s' = (Ok copy, s1) /\
       solve copy false s1 = (Ok true, s2) /\
       repr (heap s2) copy gs).
Proof.
  destruct (generatePuzzle_dig_spec minClues maxClues s)
    as (bp & bs & s' & sol & positions & j & Hrun & Hrepp & Hreps & HS & Hperm & _).
  set (k := (Z.of_nat (SIZE * SIZE) - (j + minClues))%Z) in *.
  set (gp := fst (digHoles_model positions sol k)) in *.
  assert (Hpos : forall p, In p positions -> fst p < SIZE /\ snd p < SIZE).
  { intros [r c] Hin. apply in_allPositions. eapply Permutation_in; eauto. }
  assert (Hp : puzzleOf sol gp).
  { apply digHoles_model_inv; auto. now apply puzzleOf_solution. }
  pose proof (puzzleOf_noConflict sol gp HS Hp) as Hnc.
  destruct Hp as (Hg & Ha & Hcount).
  assert (Huniq : forall G, completion gp G <-> G = sol).
  { intros G. apply puzzleOf_unique; auto. repeat split; auto; apply Hg. }
  exists bp, bs, s', gp, sol.
  split; [unfold generatePuzzle; now rewrite (bind_Ok _ _ _ _ _ Hrun)|].
  do 5 (split; [assumption|]). split.
  - destruct (countSolutions_refines s' bp gp Hrepp (proj1 Hg)) as (s1 & Hc & _).
    exists s1. now rewrite <- Hcount.
  - destruct (jsonCopy_spec bp gp s' Hrepp)
      as (copy & s1 & Hcopy & _ & Hrepc & Hndc & _ & _).
    destruct (solve_refines copy false s1 gp Hndc Hrepc (proj1 Hg))
      as (s2 & Hsolve & _ & Hrep2 & _).
    assert (Hspec : solveSpec gp (solve_model (S (SIZE * SIZE)) false gp (gen s1))).
    { apply solve_model_correct; auto. pose proof (emptyCount_bound gp). lia. }
    unfold solveSpec in Hspec.
    destruct (fst (solve_model (S (SIZE * SIZE)) false gp (gen s1))) as [g'|].
    + apply Huniq in Hspec. subst g'. exists copy, s1, s2. auto.
    + exfalso. apply (Hspec sol). now apply Huniq.
Qed.

(** C2.  On a board whose filled cells satisfy the constraints,
    [countSolutions] returns 0 exactly when the grid has no completion, 1
    exactly when it has one and only one, and 2 or more exactly when it
    has two different ones. *)
Theorem countSolutions_classifies s b g :
  repr (heap s) b g -> isGrid g -> noConflict g ->
  exists n s',
    countSolutions b s = (Ok n, s') /\
    (n = 0 <-> noCompletion g) /\
    (n = 1 <-> oneCompletion g) /\
    (2 <= n <-> twoCompletions g).
Proof.
  intros Hrep Hg Hnc.
  destruct (countSolutions_refines s b g Hrep (proj1 Hg)) as (s' & Hrun & _).
  exists (countSolutions_model g), s'. split; [exact Hrun|].
  split; [|split].
  - now apply count_zero_iff.
  - now apply count_one_iff.
  - now apply count_two_iff.
Qed.

Lemma countSolutions_classifies_witness :
  exists n s',
    countSolutions (boardOf onePuzzle) (stateOf onePuzzle) = (Ok n, s') /\
    (n = 0 <-> noCompletion onePuzzle) /\
    (n = 1 <-> oneCompletion onePuzzle) /\
    (2 <= n <-> twoCompletions onePuzzle).
Proof.
  apply (countSolutions_classifies (stateOf onePuzzle) (boardOf onePuzzle) onePuzzle).
  - apply repr_stateOf.
  - apply onePuzzle_isGrid.
  - apply onePuzzle_noConflict.
Defined.

(** Fixtures for the three answers: a grid with no completion, a grid
    with one, and the empty grid. *)
Example countSolutions_fixtures :
  fst (countSolutions (boardOf deadEnd) (stateOf deadEnd)) = Ok 0 /\
  fst (countSolutions (boardOf onePuzzle) (stateOf onePuzzle)) = Ok 1 /\
  fst (countSolutions (boardOf emptyGrid) (stateOf emptyGrid)) = Ok 2.
Proof. repeat split; vm_compute; reflexivity. Qed.

(** C3.  On a 4x4 board, for every cell (row, col) of the board and every
    value, [isValid] returns a boolean and leaves the state as it was; it
    returns false exactly when the value occurs in another cell of the
    same row, column or block.  [peers] leaves the cell (row, col) itself
    out, whatever it holds. *)
Theorem isValid_decides s b g row col val :
  repr (heap s) b g -> square g -> row < SIZE -> col < SIZE ->
  exists ok,
    isValid b row col val s = (Ok ok, s) /\
    (ok = false <->
     exists r' c', r' < SIZE /\ c' < SIZE /\ peers row col r' c' /\
                   cell g r' c' = val).
Proof.
  intros Hrep Hs Hr Hc. exists (isValid_model g row col val). split.
  - apply isValid_refines; auto. apply Hs.
  - now apply isValid_model_false.
Qed.

Lemma isValid_decides_witness :
  exists ok,
    isValid (boardOf firstSolution) 0 1 "H" (stateOf firstSolution)
      = (Ok ok, stateOf firstSolution) /\
    (ok = false <->
     exists r' c', r' < SIZE /\ c' < SIZE /\ peers 0 1 r' c' /\
                   cell firstSolution r' c' = "H"%string).
Proof.
  apply (isValid_decides (stateOf firstSolution) (boardOf firstSolution)
           firstSolution 0 1 "H").
  - apply repr_stateOf.
  - apply firstSolution_solved.
  - unfold SIZE; lia.
  - unfold SIZE; lia.
Defined.

(** The scenario of the specification: on the solved grid H O L A /
    L A H O / O H A L / A L O H, the letter H is accepted at (0,0), where
    it already is, and refused at (0,1), since row 0 has it at (0,0). *)
Example isValid_scenario :
  fst (isValid (boardOf firstSolution) 0 0 "H" (stateOf firstSolution)) = Ok true /\
  fst (isValid (boardOf firstSolution) 0 1 "H" (stateOf firstSolution)) = Ok false.
Proof. split; reflexivity. Qed.

(** C4.  On a board of four distinct rows whose filled cells satisfy the
    constraints, [solve], randomized or not, returns true exactly when the
    grid has a completion; on true the board holds a completion of the
    grid it held, which keeps every cell that was filled; on false the
    board holds what it held. *)
Theorem solve_sound_complete s b g randomized :
  repr (heap s) b g -> NoDup b -> isGrid g -> noConflict g ->
  exists ok s' g',
    solve b randomized s = (Ok ok, s') /\
    repr (heap s') b g' /\
    (ok = true <-> exists G, completion g G) /\
    (ok = true -> completion g g') /\
    (ok = false -> g' = g).
Proof.
  intros Hrep Hnd Hg Hnc.
  destruct (solve_refines b randomized s g Hnd Hrep (proj1 Hg))
    as (s' & Hrun & _ & Hrep' & _).
  assert (Hspec : solveSpec g (solve_model (S (SIZE * SIZE)) randomized g (gen s))).
  { apply solve_model_correct; auto. pose proof (emptyCount_bound g). lia. }
  unfold solveSpec in Hspec.
  destruct (fst (solve_model (S (SIZE * SIZE)) randomized g (gen s))) as [g'|].
  - exists true, s', g'.
    split; [exact Hrun|]. split; [exact Hrep'|]. split; [|split].
    + split; [intros _; exists g'; exact Hspec|reflexivity].
    + intros _. exact Hspec.
    + discriminate.
  - exists false, s', g.
    split; [exact Hrun|]. split; [exact Hrep'|]. split; [|split].
    + split; [discriminate|]. intros [G HG]. exfalso. exact (Hspec G HG).
    + discriminate.
    + reflexivity.
Qed.

Lemma solve_sound_complete_witness :
  exists ok s' g',
    solve (boardOf onePuzzle) false (stateOf onePuzzle) = (Ok ok, s') /\
    repr (heap s') (boardOf onePuzzle) g' /\
    (ok = true <-> exists G, completion onePuzzle G) /\
    (ok = true -> completion onePuzzle g') /\
    (ok = false -> g' = onePuzzle).
Proof.
  apply (solve_sound_complete (stateOf onePuzzle) (boardOf onePuzzle) onePuzzle false).
  - apply repr_stateOf.
  - apply boardOf_NoDup.
  - apply onePuzzle_isGrid.
  - apply onePuzzle_noConflict.
Defined.

(** On a grid with no completion [solve] returns false, with or without
    randomization, and the board holds what it held. *)
Example solve_deadEnd :
  (let (r, s') := solve (boardOf deadEnd) false (stateOf deadEnd) in
   r = Ok false /\ heap s' = heapOf deadEnd) /\
  (let (r, s') := solve (boardOf deadEnd) true (stateOf deadEnd) in
   r = Ok false /\ heap s' = heapOf deadEnd).
Proof. split; vm_compute; split; reflexivity. Qed.

(** C5.  [generateFullBoard] always returns a board, and the grid it
    holds is fully filled and solved: every cell holds a letter, and every
    row, every column and every block holds each letter exactly once.  In
    particular the randomized search from the empty grid never fails. *)
Theorem generateFullBoard_solved s :
  exists b s' g,
    generateFullBoard s = (Ok b, s') /\ repr (heap s') b g /\
    (forall r c, r < SIZE -> c < SIZE -> In (cell g r c) LETTERS) /\
    solvedGrid g.
Proof.
  destruct (generateFullBoard_spec s) as (b & s' & g & Hrun & Hrep & [Hg _]).
  exists b, s', g. split; [exact Hrun|]. split; [exact Hrep|]. split; [|exact Hg].
  intros r c Hr Hc. now apply solvedGrid_letters.
Qed.

(** C6.  For every board that holds a grid of strings, of any size, and
    whatever [countSolutions] returns or throws on it: the board holds the
    same grid after the call, every array that existed before the call is
    the same after it, and the random source is where it was.  The search
    writes to the rows of its own copy only. *)
Theorem countSolutions_keeps_grid s b g :
  repr (heap s) b g ->
  repr (heap (snd (countSolutions b s))) b g /\
  heapGrows (heap s) (heap (snd (countSolutions b s))) /\
  gen (snd (countSolutions b s)) = gen s.
Proof.
  intros Hrep.
  destruct (countSolutions b s) as [r s'] eqn:E.
  destruct (countSolutions_frame s b r s' E) as [G Hgrow]. simpl.
  split; [|split; auto]. eapply repr_grows; eauto.
Qed.

Lemma countSolutions_keeps_grid_witness :
  repr (heap (snd (countSolutions (boardOf onePuzzle) (stateOf onePuzzle))))
    (boardOf onePuzzle) onePuzzle /\
  heapGrows (heap (stateOf onePuzzle))
    (heap (snd (countSolutions (boardOf onePuzzle) (stateOf onePuzzle)))) /\
  gen (snd (countSolutions (boardOf onePuzzle) (stateOf onePuzzle)))
    = gen (stateOf onePuzzle).
Proof.
  apply (countSolutions_keeps_grid (stateOf onePuzzle) (boardOf onePuzzle) onePuzzle).
  apply repr_stateOf.
Defined.

(** C7.  With the default bounds 6 and 8, [generatePuzzle] returns a
    puzzle with at least 6 clues and with one and only one completion.
    It has at most 8 clues, unless the digging loop went through every
    cell with removals still wanted: then every clue that is left is one
    whose removal would give a grid with two different completions. *)
Theorem generatePuzzle_default_clues s :
  exists puzzle solution s' gp,
    generatePuzzle_default s = (Ok (puzzle, solution), s') /\
    repr (heap s') puzzle gp /\
    6 <= clueCount gp /\
    (clueCount gp <= 8 \/
     forall r c, r < SIZE -> c < SIZE -> cell gp r c <> EMPTY ->
                 twoCompletions (setCell gp r c EMPTY)) /\
    oneCompletion gp.
Proof.
  destruct (generatePuzzle_dig_spec 6 8 s)
    as (bp & bs & s' & S & positions & j & Hrun & Hrepp & Hreps & HS & Hperm & Hj).
  specialize (Hj ltac:(lia)).
  set (k := (Z.of_nat (SIZE * SIZE) - (j + 6))%Z) in *.
  set (gp := fst (digHoles_model positions S k)) in *.
  assert (Hpos : forall p, In p positions -> fst p < SIZE /\ snd p < SIZE).
  { intros [r c] Hin. apply in_allPositions. eapply Permutation_in; eauto. }
  assert (Hp0 : puzzleOf S S) by now apply puzzleOf_solution.
  assert (Hp : puzzleOf S gp) by now apply digHoles_model_inv.
  assert (Hclues := digHoles_model_clues positions S k (proj1 HS)).
  destruct Hclues as [Hk Hclues].
  { eapply Permutation_NoDup; [apply Permutation_sym; exact Hperm|].
    apply allPositions_NoDup. }
  { intros p Hin. destruct (Hpos p Hin) as [Hr Hc]. repeat split; auto.
    now apply solvedGrid_full. }
  { unfold k. change (Z.of_nat (SIZE * SIZE)) with 16%Z. lia. }
  fold gp in Hclues.
  rewrite (clueCount_full S) in Hclues by (intros; now apply solvedGrid_full).
  destruct (digHoles_model_blocked S positions HS S k Hpos Hp0) as [_ Hblocked].
  fold gp in Hblocked.
  exists bp, bs, s', gp.
  split; [unfold generatePuzzle_default, generatePuzzle;
          now rewrite (bind_Ok _ _ _ _ _ Hrun)|].
  split; [exact Hrepp|].
  unfold k, SIZE in *. simpl Z.of_nat in *.
  split; [lia|]. split.
  - destruct (Z.ltb_spec 0 (snd (digHoles_model positions S (16 - (j + 6))%Z)))
      as [Hpos'|Hzero].
    + right. intros r c Hr Hc Hne. apply Hblocked; auto.
      eapply Permutation_in; [apply Permutation_sym; exact Hperm|].
      now apply in_allPositions.
    + left. lia.
  - apply count_one_iff; try apply Hp.
    eapply puzzleOf_noConflict; eauto.
Qed.

Lemma solve_model_emptyGrid rnd :
  solve_model (S (SIZE * SIZE)) false emptyGrid rnd = (Some firstSolution, rnd).
Proof. vm_compute. reflexivity. Qed.

(** C8.  On boards that hold the empty grid, [solve] without
    randomization returns true and leaves a solved grid, and two such
    calls, from whatever states, leave the same grid. *)
Theorem solve_empty_deterministic s1 b1 s2 b2 :
  repr (heap s1) b1 emptyGrid -> NoDup b1 ->
  repr (heap s2) b2 emptyGrid -> NoDup b2 ->
  exists s1' s2' g',
    solve b1 false s1 = (Ok true, s1') /\
    solve b2 false s2 = (Ok true, s2') /\
    repr (heap s1') b1 g' /\ repr (heap s2') b2 g' /\
    solvedGrid g'.
Proof.
  intros Hrep1 Hnd1 Hrep2 Hnd2.
  destruct (solve_refines b1 false s1 emptyGrid Hnd1 Hrep1 (proj1 emptyGrid_isGrid))
    as (s1' & Hrun1 & _ & Hrep1' & _).
  destruct (solve_refines b2 false s2 emptyGrid Hnd2 Hrep2 (proj1 emptyGrid_isGrid))
    as (s2' & Hrun2 & _ & Hrep2' & _).
  rewrite solve_model_emptyGrid in *. cbn [fst snd] in *.
  exists s1', s2', firstSolution. repeat split; auto; apply firstSolution_solved.
Qed.

Lemma solve_empty_deterministic_witness :
  exists s1' s2' g',
    solve (boardOf emptyGrid) false (stateOf emptyGrid) = (Ok true, s1') /\
    solve [9; 2; 11; 0] false
      (mkState (heapOf (emptyGrid ++ firstSolution ++ emptyGrid))
               (mkRng (fun n => 3 * n) 9)) = (Ok true, s2') /\
    repr (heap s1') (boardOf emptyGrid) g' /\ repr (heap s2') [9; 2; 11; 0] g' /\
    solvedGrid g'.
Proof.
  apply (solve_empty_deterministic (stateOf emptyGrid) (boardOf emptyGrid)).
  - apply repr_stateOf.
  - apply boardOf_NoDup.
  - repeat constructor.
  - repeat constructor; simpl; intuition discriminate.
Defined.

(** C9, as the claim has it, fails: a column out of range, or the empty
    sentinel as value, gives an ordinary boolean. *)
Lemma isValid_does_not_fail_fast :
  isValid (boardOf emptyGrid) 0 4 "H" (stateOf emptyGrid)
    = (Ok true, stateOf emptyGrid) /\
  isValid (boardOf emptyGrid) 0 0 EMPTY (stateOf emptyGrid)
    = (Ok false, stateOf emptyGrid).
Proof. split; reflexivity. Qed.

(** C9, amended.  [isValid] checks none of its preconditions.  On a 4x4
    board, with the row in range it returns a boolean and leaves the state
    as it was, whatever the column and the value are; with the row out of
    range it throws a TypeError, from indexing the missing row, and leaves
    the state as it was. *)
Theorem isValid_unchecked s b g row col val :
  repr (heap s) b g -> square g ->
  (row < SIZE -> exists ok, isValid b row col val s = (Ok ok, s)) /\
  (SIZE <= row -> isValid b row col val s = (TypeError, s)).
Proof.
  intros Hrep Hs. split.
  - intros Hr. exists (isValid_model g row col val).
    apply isValid_refines; auto. apply Hs.
  - intros Hr. unfold isValid. apply bind_TypeError.
    cbn [seq SIZE existsM]. apply bind_TypeError. apply bind_TypeError.
    apply (readCell_missing_row s b g); auto. destruct Hs as [Hl _]. lia.
Qed.

Lemma isValid_unchecked_witness :
  (exists ok,
     isValid (boardOf emptyGrid) 0 7 EMPTY (stateOf emptyGrid)
       = (Ok ok, stateOf emptyGrid)) /\
  isValid (boardOf emptyGrid) 4 0 "H" (stateOf emptyGrid)
    = (TypeError, stateOf emptyGrid).
Proof.
  split.
  - apply (isValid_unchecked (stateOf emptyGrid) (boardOf emptyGrid) emptyGrid 0 7 EMPTY).
    + apply repr_stateOf.
    + apply emptyGrid_isGrid.
    + unfold SIZE; lia.
  - apply (isValid_unchecked (stateOf emptyGrid) (boardOf emptyGrid) emptyGrid 4 0 "H").
    + apply repr_stateOf.
    + apply emptyGrid_isGrid.
    + unfold SIZE; lia.
Defined.

(** C10.  On every 4x4 board, whatever strings its cells hold,
    [countSolutions] returns, and what it returns is 0, 1 or 2. *)
Theorem countSolutions_at_most_two s b g :
  repr (heap s) b g -> square g ->
  exists n s',
    countSolutions b s = (Ok n, s') /\ n <= 2 /\ (n = 0 \/ n = 1 \/ n = 2).
Proof.
  intros Hrep Hs.
  destruct (countSolutions_refines s b g Hrep Hs) as (s' & Hrun & _).
  exists (countSolutions_model g), s'. split; [exact Hrun|].
  pose proof (countSolutions_model_le g Hs). lia.
Qed.

Lemma countSolutions_at_most_two_witness :
  exists n s',
    countSolutions (boardOf emptyGrid) (stateOf emptyGrid) = (Ok n, s') /\
    n <= 2 /\ (n = 0 \/ n = 1 \/ n = 2).
Proof.
  apply (countSolutions_at_most_two (stateOf emptyGrid) (boardOf emptyGrid) emptyGrid).
  - apply repr_stateOf.
  - apply emptyGrid_isGrid.
Defined.

(** The empty grid has 288 completions; the counter says 2. *)
Example countSolutions_emptyGrid :
  List.length (completions emptyGrid) = 288 /\
  fst (countSolutions (boardOf emptyGrid) (stateOf emptyGrid)) = Ok 2.
Proof. split; vm_compute; reflexivity. Qed.

(* ====================================================================== *)
(** * More on SudokuCore                                                   *)
(* ====================================================================== *)

(** X1.  The shuffling loop of [solve] and [generatePuzzle] returns a
    permutation of the array it is given: nothing is lost and nothing is
    repeated.  It draws one random number for each index from the last
    one down to 1, so [length - 1] numbers in all. *)
Theorem shuffle_permutes {A : Type} (l : list A) g :
  Permutation (fst (shuffle l g)) l /\
  tape (snd (shuffle l g)) = tape g /\
  cursor (snd (shuffle l g)) = cursor g + (List.length l - 1).
Proof.
  split; [apply shuffleFrom_perm|]. apply shuffleFrom_draws.
Qed.

(** X2.  [solve] does not check the cells it is given: on a board with
    no empty cell it returns true at once and leaves the whole state as it
    was, whether or not the grid satisfies the constraints. *)
Theorem solve_full_board s b g randomized :
  repr (heap s) b g -> square g ->
  (forall r c, r < SIZE -> c < SIZE -> cell g r c <> EMPTY) ->
  solve b randomized s = (Ok true, s).
Proof.
  intros Hrep Hs Hfull. unfold solve. cbn [solve_fuel].
  rewrite (bind_Ok _ _ _ _ _ (firstEmpty_refines s b g Hrep (proj1 Hs))).
  now rewrite firstEmpty_model_full.
Qed.

Lemma cell_allH r c : r < SIZE -> c < SIZE -> cell allH r c = "H"%string.
Proof.
  unfold SIZE. intros Hr Hc.
  do 4 (destruct r as [|r]; [do 4 (destruct c as [|c]; [reflexivity|]); lia|]).
  lia.
Qed.

Lemma allH_square : square allH.
Proof. split; [reflexivity|repeat constructor]. Qed.

Lemma solve_full_board_witness :
  solve (boardOf allH) true (stateOf allH) = (Ok true, stateOf allH).
Proof.
  apply (solve_full_board (stateOf allH) (boardOf allH) allH true).
  - apply repr_stateOf.
  - apply allH_square.
  - intros r c Hr Hc. rewrite cell_allH by auto. discriminate.
Defined.

(** X3.  [countSolutions] does not check the cells it is given either: on
    a board with no empty cell it returns 1, whether or not the grid
    satisfies the constraints. *)
Theorem countSolutions_full_board s b g :
  repr (heap s) b g -> square g ->
  (forall r c, r < SIZE -> c < SIZE -> cell g r c <> EMPTY) ->
  exists s', countSolutions b s = (Ok 1, s').
Proof.
  intros Hrep Hs Hfull.
  destruct (countSolutions_refines s b g Hrep Hs) as (s' & Hrun & _).
  exists s'. rewrite Hrun. do 2 f_equal.
  unfold countSolutions_model. cbn [solveInternal_model].
  now rewrite firstEmpty_model_full.
Qed.

Lemma countSolutions_full_board_witness :
  exists s', countSolutions (boardOf allH) (stateOf allH) = (Ok 1, s').
Proof.
  apply (countSolutions_full_board (stateOf allH) (boardOf allH) allH).
  - apply repr_stateOf.
  - apply allH_square.
  - intros r c Hr Hc. rewrite cell_allH by auto. discriminate.
Defined.

(** X4.  [solveInternal] undoes every write it makes, also when the early
    exit cuts the search: on a board of four distinct rows whose filled
    cells satisfy the constraints, entered with [count] at most 1, it
    leaves the board holding the grid it held, leaves the random source
    alone, and hands back [count] plus the number of completions of the
    grid, stopped at 2. *)
Theorem solveInternal_restores s b g count :
  repr (heap s) b g -> NoDup b -> isGrid g -> noConflict g -> count <= 1 ->
  exists s',
    solveInternal b count s
      = (Ok (Nat.min 2 (count + List.length (completions g))), s') /\
    repr (heap s') b g /\ gen s' = gen s /\
    NoDup (completions g) /\
    (forall G, In G (completions g) <-> completion g G).
Proof.
  intros Hrep Hnd Hg Hnc Hcount.
  assert (Hf : emptyCount g < S (SIZE * SIZE)).
  { pose proof (emptyCount_bound g). lia. }
  destruct (solveInternal_fuel_refines (S (SIZE * SIZE)) b Hnd s g count Hrep
              (proj1 Hg) Hf) as (s' & Hrun & Hgen & Hrep' & _).
  exists s'. split.
  - unfold solveInternal. rewrite Hrun.
    rewrite solveInternal_model_spec; auto. apply Hg.
  - split; [exact Hrep'|]. split; [exact Hgen|]. split.
    + now apply completions_NoDup.
    + intros G. now apply completions_spec.
Qed.

Lemma solveInternal_restores_witness :
  exists s',
    solveInternal (boardOf onePuzzle) 1 (stateOf onePuzzle)
      = (Ok (Nat.min 2 (1 + List.length (completions onePuzzle))), s') /\
    repr (heap s') (boardOf onePuzzle) onePuzzle /\
    gen s' = gen (stateOf onePuzzle) /\
    NoDup (completions onePuzzle) /\
    (forall G, In G (completions onePuzzle) <-> completion onePuzzle G).
Proof.
  apply (solveInternal_restores (stateOf onePuzzle) (boardOf onePuzzle) onePuzzle 1).
  - apply repr_stateOf.
  - apply boardOf_NoDup.
  - apply onePuzzle_isGrid.
  - apply onePuzzle_noConflict.
  - lia.
Defined.

(** X5.  Emptying a cell never lowers the count: on a board of four
    distinct rows whose filled cells satisfy the constraints, what
    [countSolutions] returns after [board[r][c] = EMPTY] is at least what
    it returned before.  So a removal that the digging loop refuses would
    be refused at any later time as well. *)
Theorem countSolutions_blank_monotone s b g r c :
  repr (heap s) b g -> NoDup b -> isGrid g -> noConflict g ->
  r < SIZE -> c < SIZE ->
  exists n s0 s1 n1 s2,
    countSolutions b s = (Ok n, s0) /\
    writeCell b r c (JString EMPTY) s = (Ok tt, s1) /\
    countSolutions b s1 = (Ok n1, s2) /\
    n <= n1.
Proof.
  intros Hrep Hnd Hg Hnc Hr Hc.
  assert (Hs : square g) by apply Hg.
  destruct (countSolutions_refines s b g Hrep Hs) as (s0 & Hrun0 & _).
  destruct (writeCell_repr s b g r c EMPTY Hrep Hnd Hs Hr Hc)
    as (s1 & Hw & _ & Hrep1 & _).
  assert (Hs1 : square (setCell g r c EMPTY)) by now apply square_setCell.
  destruct (countSolutions_refines s1 b _ Hrep1 Hs1) as (s2 & Hrun2 & _).
  exists (countSolutions_model g), s0, s1,
         (countSolutions_model (setCell g r c EMPTY)), s2.
  repeat split; auto.
  rewrite !countSolutions_model_spec by auto.
  assert (List.length (completions g)
          <= List.length (completions (setCell g r c EMPTY))); [|lia].
  apply NoDup_incl_length.
  - now apply completions_NoDup.
  - now apply completions_blank_incl.
Qed.

Lemma countSolutions_blank_monotone_witness :
  exists n s0 s1 n1 s2,
    countSolutions (boardOf onePuzzle) (stateOf onePuzzle) = (Ok n, s0) /\
    writeCell (boardOf onePuzzle) 1 1 (JString EMPTY) (stateOf onePuzzle)
      = (Ok tt, s1) /\
    countSolutions (boardOf onePuzzle) s1 = (Ok n1, s2) /\
    n <= n1.
Proof.
  apply (countSolutions_blank_monotone (stateOf onePuzzle) (boardOf onePuzzle)
           onePuzzle 1 1).
  - apply repr_stateOf.
  - apply boardOf_NoDup.
  - apply onePuzzle_isGrid.
  - apply onePuzzle_noConflict.
  - unfold SIZE; lia.
  - unfold SIZE; lia.
Defined.

(** X6.  The filled cells of a 4x4 board satisfy the constraints exactly
    when [isValid] accepts every filled cell with the value it holds. *)
Theorem isValid_everywhere_iff_noConflict s b g :
  repr (heap s) b g -> square g ->
  (noConflict g <->
   forall r c, r < SIZE -> c < SIZE -> cell g r c <> EMPTY ->
               isValid b r c (cell g r c) s = (Ok true, s)).
Proof.
  intros Hrep Hs. split.
  - intros Hnc r c Hr Hc Hne.
    rewrite (isValid_refines s b g r c _ Hrep (proj1 Hs) Hr). do 2 f_equal.
    apply isValid_model_true; auto;
      intros r' c' Hr' Hc' Hp; now apply Hnc.
  - intros H r c r' c' Hr Hc Hr' Hc' Hp Hne.
    specialize (H r c Hr Hc Hne).
    rewrite (isValid_refines s b g r c _ Hrep (proj1 Hs) Hr) in H.
    injection H as H.
    rewrite isValid_model_true in H by auto. now apply H.
Qed.

Lemma isValid_everywhere_iff_noConflict_witness :
  noConflict onePuzzle <->
  forall r c, r < SIZE -> c < SIZE -> cell onePuzzle r c <> EMPTY ->
              isValid (boardOf onePuzzle) r c (cell onePuzzle r c) (stateOf onePuzzle)
                = (Ok true, stateOf onePuzzle).
Proof.
  apply (isValid_everywhere_iff_noConflict (stateOf onePuzzle) (boardOf onePuzzle)).
  - apply repr_stateOf.
  - apply onePuzzle_isGrid.
Defined.

(** X7.  On a board that holds a solved grid, [isValid] accepts at each
    cell the letter the cell holds and refuses the three other letters. *)
Theorem isValid_on_solved s b g r c v :
  repr (heap s) b g -> solvedGrid g -> r < SIZE -> c < SIZE -> In v LETTERS ->
  isValid b r c v s = (Ok (String.eqb v (cell g r c)), s).
Proof.
  intros Hrep Hg Hr Hc Hv.
  assert (Hs : square g) by apply Hg.
  rewrite (isValid_refines s b g r c v Hrep (proj1 Hs) Hr). do 2 f_equal.
  destruct (String.eqb_spec v (cell g r c)) as [->|Hne].
  - apply isValid_model_true; [exact Hs|exact Hr|exact Hc|].
    intros r' c' Hr' Hc' Hp.
    apply (solvedGrid_noConflict g Hg r c r' c'); auto.
    now apply solvedGrid_full.
  - apply isValid_model_false; auto.
    destruct (solvedGrid_row_has g r v Hg Hr Hv) as (c' & Hc' & E).
    exists r, c'. repeat split; auto. congruence.
Qed.

Lemma isValid_on_solved_witness :
  isValid (boardOf firstSolution) 2 1 "L" (stateOf firstSolution)
    = (Ok (String.eqb "L" (cell firstSolution 2 1)), stateOf firstSolution).
Proof.
  apply (isValid_on_solved (stateOf firstSolution) (boardOf firstSolution)
           firstSolution 2 1 "L").
  - apply repr_stateOf.
  - apply firstSolution_solved.
  - unfold SIZE; lia.
  - unfold SIZE; lia.
  - simpl; tauto.
Defined.

(** X8.  Whatever board [solve] is given and whatever it returns or
    throws, it allocates nothing and writes to no array but the rows of
    that board; without randomization it leaves the random source as it
    was. *)
Theorem solve_touches_only_its_board s b randomized :
  unchangedOutside b (heap s) (heap (snd (solve b randomized s))) /\
  tape (gen (snd (solve b randomized s))) = tape (gen s) /\
  (if randomized then True else gen (snd (solve b randomized s)) = gen s).
Proof.
  unfold solve.
  destruct (touchesOnly_solve_fuel (S (SIZE * SIZE)) b randomized s) as [T U].
  split; [exact U|]. split; [exact T|].
  destruct randomized; [exact I|].
  apply (writesOnly_solve_fuel_plain (S (SIZE * SIZE)) b s).
Qed.

(** X9.  For any bounds with [minClues <= maxClues <= 16],
    [generatePuzzle] returns a puzzle with at least [minClues] clues; it
    has at most [maxClues], unless the loop went through every cell with
    removals still wanted, and then no clue that is left can be removed
    without letting in a second completion. *)
Theorem generatePuzzle_clue_bounds minClues maxClues s :
  (minClues <= maxClues)%Z -> (maxClues <= Z.of_nat (SIZE * SIZE))%Z ->
  exists puzzle solution s' gp,
    generatePuzzle minClues maxClues s = (Ok (puzzle, solution), s') /\
    repr (heap s') puzzle gp /\
    (minClues <= Z.of_nat (clueCount gp))%Z /\
    ((Z.of_nat (clueCount gp) <= maxClues)%Z \/
     forall r c, r < SIZE -> c < SIZE -> cell gp r c <> EMPTY ->
                 twoCompletions (setCell gp r c EMPTY)).
Proof.
  intros Hmm Hmax.
  destruct (generatePuzzle_dig_spec minClues maxClues s)
    as (bp & bs & s' & sol & positions & j & Hrun & Hrepp & Hreps & HS & Hperm & Hj).
  specialize (Hj ltac:(lia)).
  set (k := (Z.of_nat (SIZE * SIZE) - (j + minClues))%Z) in *.
  set (gp := fst (digHoles_model positions sol k)) in *.
  assert (Hpos : forall p, In p positions -> fst p < SIZE /\ snd p < SIZE).
  { intros [r c] Hin. apply in_allPositions. eapply Permutation_in; eauto. }
  assert (Hp0 : puzzleOf sol sol) by now apply puzzleOf_solution.
  destruct (digHoles_model_clues positions sol k (proj1 HS)) as [Hk Hclues].
  { eapply Permutation_NoDup; [apply Permutation_sym; exact Hperm|].
    apply allPositions_NoDup. }
  { intros p Hin. destruct (Hpos p Hin) as [Hr Hc]. repeat split; auto.
    now apply solvedGrid_full. }
  { unfold k. lia. }
  fold gp in Hclues.
  rewrite (clueCount_full sol) in Hclues by (intros; now apply solvedGrid_full).
  destruct (digHoles_model_blocked sol positions HS sol k Hpos Hp0) as [_ Hblocked].
  fold gp in Hblocked.
  exists bp, bs, s', gp.
  split; [unfold generatePuzzle; now rewrite (bind_Ok _ _ _ _ _ Hrun)|].
  split; [exact Hrepp|].
  split; [unfold k in *; lia|].
  destruct (Z.ltb_spec 0 (snd (digHoles_model positions sol k))) as [Hpos'|Hzero].
  - right. intros r c Hr Hc Hne. apply Hblocked; auto.
    eapply Permutation_in; [apply Permutation_sym; exact Hperm|].
    now apply in_allPositions.
  - left. unfold k in *. lia.
Qed.

Lemma generatePuzzle_clue_bounds_witness :
  exists puzzle solution s' gp,
    generatePuzzle 4 10 (stateOf emptyGrid) = (Ok (puzzle, solution), s') /\
    repr (heap s') puzzle gp /\
    (4 <= Z.of_nat (clueCount gp))%Z /\
    ((Z.of_nat (clueCount gp) <= 10)%Z \/
     forall r c, r < SIZE -> c < SIZE -> cell gp r c <> EMPTY ->
                 twoCompletions (setCell gp r c EMPTY)).
Proof.
  apply (generatePuzzle_clue_bounds 4 10 (stateOf emptyGrid)).
  - lia.
  - simpl; lia.
Defined.

(** X10.  When [minClues] is 16 or more (and [maxClues] no less), there
    is nothing to remove: the loop stops at once and the puzzle that
    [generatePuzzle] returns is a copy of the solution, with no empty
    cell. *)
Theorem generatePuzzle_nothing_to_remove minClues maxClues s :
  (Z.of_nat (SIZE * SIZE) <= minClues)%Z -> (minClues <= maxClues)%Z ->
  exists puzzle solution s' gs,
    generatePuzzle minClues maxClues s = (Ok (puzzle, solution), s') /\
    repr (heap s') puzzle gs /\ repr (heap s') solution gs /\
    solvedGrid gs /\ clueCount gs = SIZE * SIZE.
Proof.
  intros Hmin Hmm.
  destruct (generatePuzzle_dig_spec minClues maxClues s)
    as (bp & bs & s' & sol & positions & j & Hrun & Hrepp & Hreps & HS & Hperm & Hj).
  specialize (Hj ltac:(lia)).
  rewrite digHoles_model_nothing in Hrepp by lia. cbn [fst] in Hrepp.
  exists bp, bs, s', sol.
  split; [unfold generatePuzzle; now rewrite (bind_Ok _ _ _ _ _ Hrun)|].
  split; [exact Hrepp|]. split; [exact Hreps|]. split; [exact HS|].
  apply clueCount_full. intros r c Hr Hc. now apply solvedGrid_full.
Qed.

Lemma generatePuzzle_nothing_to_remove_witness :
  exists puzzle solution s' gs,
    generatePuzzle 16 20 (stateOf emptyGrid) = (Ok (puzzle, solution), s') /\
    repr (heap s') puzzle gs /\ repr (heap s') solution gs /\
    solvedGrid gs /\ clueCount gs = SIZE * SIZE.
Proof.
  apply (generatePuzzle_nothing_to_remove 16 20 (stateOf emptyGrid)).
  - simpl; lia.
  - lia.
Defined.

(** X11.  The puzzle and the solution that [generatePuzzle] returns are
    made of eight different row arrays, all of them allocated by the call:
    the two boards share no row, so writing to one never shows in the
    other, and every array that existed before the call is unchanged.  The
    call draws from the random source and does nothing else to it. *)
Theorem generatePuzzle_fresh_boards minClues maxClues s :
  exists puzzle solution s',
    generatePuzzle minClues maxClues s = (Ok (puzzle, solution), s') /\
    NoDup (puzzle ++ solution) /\
    List.length puzzle = SIZE /\ List.length solution = SIZE /\
    (forall l, In l (puzzle ++ solution) ->
               List.length (heap s) <= l < List.length (heap s')) /\
    heapGrows (heap s) (heap s') /\
    tape (gen s') = tape (gen s).
Proof.
  destruct (generatePuzzle_dig_full minClues maxClues s)
    as (bp & bs & s' & sol & positions & j & Hrun & Hrepp & Hreps & HS & Hperm & _
        & Hndp & Hnds & Hdisj & Hfresh & Hgrow & Htape).
  exists bp, bs, s'.
  split; [unfold generatePuzzle; now rewrite (bind_Ok _ _ _ _ _ Hrun)|].
  split.
  { apply NoDup_app; [exact Hndp|exact Hnds|exact Hdisj]. }
  split.
  { rewrite (repr_length _ _ _ Hrepp).
    apply (digHoles_model_inv sol positions sol).
    - intros [r c] Hin. apply in_allPositions. eapply Permutation_in; eauto.
    - now apply puzzleOf_solution. }
  split.
  { rewrite (repr_length _ _ _ Hreps). apply HS. }
  split; [|split; [exact Hgrow|exact Htape]].
  intros l Hin. apply in_app_or in Hin. split; [now apply Hfresh|].
  destruct Hin as [Hin|Hin];
    [exact (repr_bound _ _ _ _ Hrepp Hin)|exact (repr_bound _ _ _ _ Hreps Hin)].
Qed.

(* ====================================================================== *)
(** * The game: GameManager and what it shows                             *)
(* ====================================================================== *)

(** X12.  [checkWin] returns true exactly when the player's grid is the
    stored solution, cell for cell, and it changes nothing. *)
Theorem checkWin_decides w gu gs :
  repr (heap (js w)) (userGrid (me w)) gu ->
  repr (heap (js w)) (solution (me w)) gs ->
  square gu -> square gs ->
  exists b, GameManager.checkWin w = (Ok b, w) /\ (b = true <-> gu = gs).
Proof.
  intros Hu Hs Hgu Hgs. exists (checkWin_model gu gs). split.
  - apply checkWin_run; auto; [apply Hgu|apply Hgs].
  - now apply checkWin_model_true.
Qed.

Lemma checkWin_decides_witness :
  exists b, GameManager.checkWin oneGame = (Ok b, oneGame) /\
            (b = true <-> onePuzzle = firstSolution).
Proof.
  apply (checkWin_decides oneGame onePuzzle firstSolution).
  - exact (play_user _ _ _ _ oneGame_playing).
  - exact (play_solution _ _ _ _ oneGame_playing).
  - apply onePuzzle_isGrid.
  - apply firstSolution_solved.
Defined.

(** X13.  [handleInput] does nothing at all, whatever value it is
    handed, when no cell is selected or when the selected cell is a clue
    of the puzzle: a clue cannot be overwritten. *)
Theorem handleInput_keeps_clues w val gp :
  repr (heap (js w)) (puzzle (me w)) gp -> square gp ->
  (selectedCell (me w) = None \/
   exists r c, selectedCell (me w) = Some (r, c) /\ r < SIZE /\ c < SIZE /\
               cell gp r c <> EMPTY) ->
  GameManager.handleInput val w = (Ok tt, w).
Proof. apply handleInput_ignored. Qed.

Lemma handleInput_keeps_clues_witness :
  GameManager.handleInput (JString "H")
    (mkWorld (js oneGame) (setSelectedCell (Some (1, 1)) (me oneGame)) (env oneGame))
  = (Ok tt,
     mkWorld (js oneGame) (setSelectedCell (Some (1, 1)) (me oneGame)) (env oneGame)).
Proof.
  apply (handleInput_keeps_clues _ (JString "H") onePuzzle).
  - exact (play_puzzle _ _ _ _ oneGame_playing).
  - apply onePuzzle_isGrid.
  - right. exists 1, 1. split; [reflexivity|]. unfold SIZE.
    split; [lia|]. split; [lia|]. discriminate.
Defined.





(** X16.  Any way of filling the grid that obeys the rules wins.
    [checkWin] only compares with the solution that was stored, but the
    puzzle has no other completion and the clues cannot be overwritten:
    when the write of [handleInput] leaves a grid with each letter once
    in every row, column and block, that grid is the stored solution and
    the win is shown. *)
Theorem valid_fill_wins w gp gs gu r c v :
  playing w gp gs gu -> selectedCell (me w) = Some (r, c) -> cell gp r c = EMPTY ->
  solvedGrid (setCell gu r c v) ->
  exists w' calls,
    GameManager.handleInput (JString v) w = (Ok tt, w') /\
    callsBetween w w' calls /\
    setCell gu r c v = gs /\
    In (ShowWinModal (UIManager.timeText (seconds (me w)))) calls /\
    In StartConfetti calls.
Proof.
  intros Hplay Hsel He Hsolved.
  destruct (handleInput_run w gp gs gu r c v Hplay Hsel He)
    as (w' & Run & P & Hme & _ & _ & Hcalls & _).
  assert (E : setCell gu r c v = gs).
  { apply (puzzleOf_unique gs gp (setCell gu r c v)
             (play_solved _ _ _ _ P) (play_puzzleOf _ _ _ _ P)).
    split; [exact Hsolved|]. intros r' c' Hr' Hc' Hne.
    now apply (play_clues _ _ _ _ P). }
  pose proof (proj2 (checkWin_model_true (setCell gu r c v) gs
                       (play_square _ _ _ _ P) (proj1 (play_solved _ _ _ _ P))) E) as Hwin.
  rewrite Hwin in Hcalls.
  eexists w', _. split; [exact Run|]. split; [exact Hcalls|]. split; [exact E|].
  unfold winCalls. split.
  - right. now left.
  - now left.
Qed.

Lemma valid_fill_wins_witness :
  exists w' calls,
    GameManager.handleInput (JString "H") almostDone = (Ok tt, w') /\
    callsBetween almostDone w' calls /\
    setCell oneLeft 0 0 "H" = firstSolution /\
    In (ShowWinModal (UIManager.timeText (seconds (me almostDone)))) calls /\
    In StartConfetti calls.
Proof.
  apply (valid_fill_wins almostDone onePuzzle firstSolution oneLeft 0 0 "H").
  - exact almostDone_playing.
  - reflexivity.
  - reflexivity.
  - exact firstSolution_solved.
Defined.

(** X17.  With hints left and an empty cell in the player's grid,
    [useHint] picks an empty cell, selects it and writes there the letter
    that the solution has at that place; the grid has one empty cell
    less, one hint is spent, and the new count goes to storage under
    today's date. *)
Theorem useHint_fills_a_cell w gp gs gu :
  playing w gp gs gu -> (0 < hintsLeft (me w))%Z -> emptyCount gu <> 0 ->
  exists r c w',
    r < SIZE /\ c < SIZE /\ cell gu r c = EMPTY /\
    GameManager.useHint w = (Ok tt, w') /\
    playing w' gp gs (setCell gu r c (cell gs r c)) /\
    emptyCount (setCell gu r c (cell gs r c)) < emptyCount gu /\
    selectedCell (me w') = Some (r, c) /\
    hintsLeft (me w') = (hintsLeft (me w) - 1)%Z /\
    hints (env w') = Some (today (env w), (hintsLeft (me w) - 1)%Z) /\
    In (UpdateHintDisplay (hintsLeft (me w) - 1)) (shown (env w')).
Proof.
  intros Hplay Hh Hne.
  destruct (useHint_run w gp gs gu Hplay Hh Hne)
    as (r & c & w' & Hr & Hc & He & Run & P & Hme & _ & _ & Hcalls & _ & _ & _ & Hhi & _).
  exists r, c, w'. split; [exact Hr|]. split; [exact Hc|]. split; [exact He|].
  split; [exact Run|]. split; [exact P|]. split.
  { apply emptyCount_place; auto; [exact (play_square _ _ _ _ Hplay)|].
    exact (solvedGrid_full gs r c (play_solved _ _ _ _ Hplay) Hr Hc). }
  rewrite Hme. split; [reflexivity|]. split; [reflexivity|]. split; [exact Hhi|].
  unfold callsBetween in Hcalls. rewrite Hcalls. now left.
Qed.

Lemma useHint_fills_a_cell_witness :
  exists r c w',
    r < SIZE /\ c < SIZE /\ cell onePuzzle r c = EMPTY /\
    GameManager.useHint oneGame = (Ok tt, w') /\
    playing w' onePuzzle firstSolution (setCell onePuzzle r c (cell firstSolution r c)) /\
    emptyCount (setCell onePuzzle r c (cell firstSolution r c)) < emptyCount onePuzzle /\
    selectedCell (me w') = Some (r, c) /\
    hintsLeft (me w') = (hintsLeft (me oneGame) - 1)%Z /\
    hints (env w') = Some (today (env oneGame), (hintsLeft (me oneGame) - 1)%Z) /\
    In (UpdateHintDisplay (hintsLeft (me oneGame) - 1)) (shown (env w')).
Proof.
  apply (useHint_fills_a_cell oneGame onePuzzle firstSolution onePuzzle).
  - exact oneGame_playing.
  - reflexivity.
  - vm_compute. discriminate.
Defined.

(** X18.  [useHint] spends no hint when there is none left, or when the
    player's grid has no empty cell: the boards, the fields and the
    stored count stay as they are, and the only thing shown is the alert
    in the first case. *)
Theorem useHint_spends_nothing w gp gs gu :
  playing w gp gs gu -> ((hintsLeft (me w) <= 0)%Z \/ emptyCount gu = 0) ->
  exists w',
    GameManager.useHint w = (Ok tt, w') /\
    js w' = js w /\ me w' = me w /\ hints (env w') = hints (env w) /\
    callsBetween w w' (if (hintsLeft (me w) <=? 0)%Z then [AlertNoHints] else []).
Proof.
  intros Hplay H. destruct (Z.leb_spec (hintsLeft (me w)) 0) as [Hh|Hh].
  - rewrite (useHint_none_left w Hh). eexists. split; [reflexivity|].
    repeat split; reflexivity.
  - destruct H as [H|H]; [lia|].
    rewrite (useHint_nothing_empty w gp gs gu Hplay Hh H).
    exists w. repeat split; reflexivity.
Qed.

Lemma useHint_spends_nothing_witness :
  exists w',
    GameManager.useHint
      (mkWorld (js oneGame) (setHintsLeft 0 (me oneGame)) (env oneGame)) = (Ok tt, w') /\
    js w' = js oneGame /\ me w' = setHintsLeft 0 (me oneGame) /\
    hints (env w') = hints (env oneGame) /\
    callsBetween (mkWorld (js oneGame) (setHintsLeft 0 (me oneGame)) (env oneGame)) w'
      (if (0 <=? 0)%Z then [AlertNoHints] else []).
Proof.
  apply (useHint_spends_nothing
           (mkWorld (js oneGame) (setHintsLeft 0 (me oneGame)) (env oneGame))
           onePuzzle firstSolution onePuzzle).
  - apply (playing_fields oneGame); try reflexivity; [exact oneGame_playing|].
    exact (play_selected _ _ _ _ oneGame_playing).
  - left. cbn. lia.
Defined.

(** X19.  When every entry of the player is the letter of the solution,
    a hint never shakes a cell, the entries are still all right after it,
    and the hint that fills the last empty cell wins the game.  (A hint
    can shake: it writes the right letter, and [isValid] then finds the
    player's wrong entry next to it.) *)
Theorem useHint_on_right_entries w gp gs gu :
  playing w gp gs gu -> (0 < hintsLeft (me w))%Z -> emptyCount gu <> 0 ->
  agrees gu gs ->
  exists r c w' calls,
    GameManager.useHint w = (Ok tt, w') /\
    callsBetween w w' calls /\
    agrees (setCell gu r c (cell gs r c)) gs /\
    (forall x y, ~ In (TriggerShake x y) calls) /\
    (emptyCount gu = 1 ->
     setCell gu r c (cell gs r c) = gs /\
     In (ShowWinModal (UIManager.timeText (seconds (me w)))) calls).
Proof.
  intros Hplay Hh Hne Hag.
  destruct (useHint_run w gp gs gu Hplay Hh Hne)
    as (r & c & w' & Hr & Hc & He & Run & P & Hme & _ & _ & Hcalls & _).
  pose proof (play_solved _ _ _ _ Hplay) as HS.
  pose proof (play_square _ _ _ _ Hplay) as Hsq.
  set (gu' := setCell gu r c (cell gs r c)) in *.
  assert (Hletter : cell gs r c <> EMPTY) by now apply solvedGrid_full.
  assert (Hag' : agrees gu' gs).
  { intros r' c' Hr' Hc' Hn. unfold gu' in *. rewrite cell_setCell in * by auto.
    destruct ((r' =? r) && (c' =? c)) eqn:E; [|now apply Hag].
    apply andb_true_iff in E as [E1 E2].
    apply Nat.eqb_eq in E1, E2. now subst. }
  assert (Hok : isValid_model gu' r c (cell gs r c) = true).
  { apply isValid_model_true; [exact (play_square _ _ _ _ P)|exact Hr|exact Hc|].
    intros r' c' Hr' Hc' Hp E.
    assert (Hn : cell gu' r' c' <> EMPTY) by congruence.
    rewrite <- (Hag' r' c' Hr' Hc' Hn) in E.
    exact (solvedGrid_noConflict gs HS r c r' c' Hr Hc Hr' Hc' Hp Hletter E). }
  rewrite Hok in Hcalls. cbn [negb andb] in Hcalls. rewrite andb_false_r in Hcalls.
  exists r, c, w'. eexists. split; [exact Run|]. split; [exact Hcalls|].
  split; [exact Hag'|]. split.
  { intros x y [Hin|Hin]; [discriminate|].
    apply in_app_or in Hin as [Hin|[Hin|[]]]; [|discriminate].
    destruct (checkWin_model gu' gs); [|contradiction].
    unfold winCalls in Hin. destruct (improves _ _); simpl in Hin;
      intuition discriminate. }
  intros H1.
  assert (Hfull : forall r' c', r' < SIZE -> c' < SIZE -> cell gu' r' c' <> EMPTY).
  { apply emptyCount_zero.
    pose proof (emptyCount_place gu r c (cell gs r c) Hsq Hr Hc He Hletter).
    fold gu' in H. lia. }
  assert (E : gu' = gs).
  { apply grid_ext; [exact (play_square _ _ _ _ P)|apply HS|].
    intros r' c' Hr' Hc'. symmetry. apply Hag'; auto. }
  split; [exact E|].
  rewrite (proj2 (checkWin_model_true gu' gs (play_square _ _ _ _ P) (proj1 HS)) E).
  right. apply in_or_app. left. unfold winCalls. right. now left.
Qed.

Lemma useHint_on_right_entries_witness :
  exists r c w' calls,
    GameManager.useHint almostDone = (Ok tt, w') /\
    callsBetween almostDone w' calls /\
    agrees (setCell oneLeft r c (cell firstSolution r c)) firstSolution /\
    (forall x y, ~ In (TriggerShake x y) calls) /\
    (emptyCount oneLeft = 1 ->
     setCell oneLeft r c (cell firstSolution r c) = firstSolution /\
     In (ShowWinModal (UIManager.timeText (seconds (me almostDone)))) calls).
Proof.
  apply (useHint_on_right_entries almostDone onePuzzle firstSolution oneLeft).
  - exact almostDone_playing.
  - reflexivity.
  - vm_compute. discriminate.
  - intros r c Hr Hc Hne. unfold SIZE in *.
    destruct r as [|[|[|[|r]]]]; try lia;
      destruct c as [|[|[|[|c]]]]; try lia; try reflexivity;
      exfalso; apply Hne; reflexivity.
Defined.

(** X20.  Whatever the page was like, [initGame] returns with a game in
    order: the three boards are twelve new row arrays, the puzzle has at
    least six clues and the solution as its one completion, the player's
    grid is a copy of the puzzle, no cell is selected, the clock is at
    zero, and every array that existed before is unchanged.  If at most
    the interval of [timerInterval] was running, exactly one runs
    after. *)
Theorem initGame_starts_a_game w :
  exists w' gp gs,
    GameManager.initGame w = (Ok tt, w') /\
    playing w' gp gs gp /\ 6 <= clueCount gp /\
    seconds (me w') = 0%Z /\ selectedCell (me w') = None /\
    hintsLeft (me w') = hintsLeft (me w) /\
    heapGrows (heap (js w)) (heap (js w')) /\
    (forall l, In l (puzzle (me w') ++ solution (me w') ++ userGrid (me w')) ->
               List.length (heap (js w)) <= l) /\
    (oneTimer w ->
     exists id, intervals (env w') = [id] /\ timerInterval (me w') = Some id) /\
    In (RenderGrid (renderCells gp gp)) (shown (env w')).
Proof.
  destruct (initGame_run w)
    as (w' & gp & gs & Run & P & Hcl & _ & Hsec & Hsel & Hh & Ht & Hi & _ & _ & _ & _ & _
        & Hcalls & Hgrow & _ & Hfresh).
  exists w', gp, gs. split; [exact Run|]. split; [exact P|]. split; [exact Hcl|].
  split; [exact Hsec|]. split; [exact Hsel|]. split; [exact Hh|].
  split; [exact Hgrow|]. split; [exact Hfresh|]. split.
  - intros Hone. exists (nextTimer (env w)). split; [|exact Ht].
    now rewrite Hi, (oneTimer_cleared w Hone).
  - unfold callsBetween in Hcalls. rewrite Hcalls. right. now left.
Qed.





(** X23.  [saveBestScore] keeps the smallest time: after the call the
    stored best is the given time when nothing was stored, and else the
    smaller of the two; an equal time rewrites nothing and shows
    nothing. *)
Theorem saveBestScore_keeps_minimum time w :
  exists w',
    GameManager.saveBestScore time w = (Ok tt, w') /\
    js w' = js w /\ me w' = me w /\
    best (env w') = Some (match best (env w) with
                          | None => time
                          | Some b => Z.min b time
                          end) /\
    (best (env w) = Some time -> w' = w).
Proof.
  rewrite saveBestScore_run. eexists. split; [reflexivity|].
  unfold improves. destruct (best (env w)) as [b|] eqn:E.
  - destruct (Z.ltb_spec time b).
    + cbn. repeat split; try (f_equal; lia). intros [= ->]. lia.
    + repeat split; auto. rewrite E. f_equal. lia.
  - cbn. repeat split. discriminate.
Qed.

(** X24.  The hints survive a reload on the same day and are reset on
    another day: after [saveHints], [loadHints] on a day [date] sets
    [hintsLeft] to what was saved when [date] is the day of the save, and
    else to [MAX_HINTS], which it then stores under the new date. *)
Theorem hints_last_one_day w date :
  exists w1 w2,
    GameManager.saveHints w = (Ok tt, w1) /\
    GameManager.loadHints (onDay date w1) = (Ok tt, w2) /\
    hintsLeft (me w2) =
      (if String.eqb (today (env w)) date then hintsLeft (me w) else MAX_HINTS) /\
    hints (env w2) = Some (date, hintsLeft (me w2)) /\
    js w2 = js w.
Proof.
  eexists. destruct (loadHints_run (onDay date
    (mkWorld (js w) (me w)
       (mkBrowser (shown (env w)) (intervals (env w)) (nextTimer (env w)) (best (env w))
          (Some (today (env w), hintsLeft (me w))) (today (env w)) (canVibrate (env w))))))
    as (w2 & Run & Hjs & _ & _ & _ & _ & _ & _ & _ & Hhi & Hh).
  exists w2. split; [reflexivity|]. split; [exact Run|].
  split; [exact Hh|]. split; [exact Hhi|exact Hjs].
Qed.



(** X26.  For a time below one hundred minutes the text of the timer,
    of the best score and of the win panel is five characters: two
    digits of minutes, a colon, two digits of seconds. *)
Theorem timeText_is_a_clock n :
  (0 <= n < 6000)%Z ->
  UIManager.timeText n = clockText n /\ String.length (UIManager.timeText n) = 5.
Proof.
  intros Hn. rewrite (timeText_clock n Hn). split; reflexivity.
Qed.

Lemma timeText_is_a_clock_witness :
  UIManager.timeText 754 = clockText 754 /\ String.length (UIManager.timeText 754) = 5.
Proof. apply (timeText_is_a_clock 754). lia. Defined.


(** X27.  With [maxClues] below 16 (and [minClues] no more than
    [maxClues]), [generatePuzzle] removes at least one cell: a solved
    grid with one cell emptied has one completion only, so the first cell
    that the loop tries is removed.  The puzzle is never the full
    solution. *)
Theorem generatePuzzle_removes_a_clue minClues maxClues s :
  (minClues <= maxClues)%Z -> (maxClues < Z.of_nat (SIZE * SIZE))%Z ->
  exists puzzle solution s' gp gs,
    generatePuzzle minClues maxClues s = (Ok (puzzle, solution), s') /\
    repr (heap s') puzzle gp /\ repr (heap s') solution gs /\
    clueCount gp < SIZE * SIZE /\ emptyCount gp <> 0 /\ gp <> gs.
Proof.
  intros Hmm Hmax.
  destruct (generatePuzzle_dig_spec minClues maxClues s)
    as (bp & bs & s' & sol & positions & j & Hrun & Hrepp & Hreps & HS & Hperm & Hj).
  specialize (Hj ltac:(lia)).
  set (k := (Z.of_nat (SIZE * SIZE) - (j + minClues))%Z) in *.
  set (gp := fst (digHoles_model positions sol k)) in *.
  assert (Hpos : forall p, In p positions -> fst p < SIZE /\ snd p < SIZE).
  { intros [r c] Hin. apply in_allPositions. eapply Permutation_in; eauto. }
  assert (Hnd : NoDup positions).
  { eapply Permutation_NoDup; [apply Permutation_sym; exact Hperm|].
    apply allPositions_NoDup. }
  destruct (digHoles_model_clues positions sol k (proj1 HS) Hnd) as [Hk Hclues].
  { intros p Hin. destruct (Hpos p Hin) as [Hr Hc]. repeat split; auto.
    now apply solvedGrid_full. }
  { unfold k. lia. }
  fold gp in Hclues.
  rewrite (clueCount_full sol) in Hclues by (intros; now apply solvedGrid_full).
  assert (Hrem : (snd (digHoles_model positions sol k) < k)%Z).
  { apply digHoles_model_starts; auto.
    - intros ->. apply Permutation_length in Hperm. discriminate.
    - unfold k. lia. }
  assert (Hopen : clueCount gp < SIZE * SIZE) by lia.
  exists bp, bs, s', gp, sol.
  split; [unfold generatePuzzle; now rewrite (bind_Ok _ _ _ _ _ Hrun)|].
  split; [exact Hrepp|]. split; [exact Hreps|]. split; [exact Hopen|].
  split; [now apply clueCount_open|].
  intros E. rewrite E, (clueCount_full sol) in Hopen
    by (intros; now apply solvedGrid_full). lia.
Qed.

Lemma generatePuzzle_removes_a_clue_witness :
  exists puzzle solution s' gp gs,
    generatePuzzle 15 15 (stateOf emptyGrid) = (Ok (puzzle, solution), s') /\
    repr (heap s') puzzle gp /\ repr (heap s') solution gs /\
    clueCount gp < SIZE * SIZE /\ emptyCount gp <> 0 /\ gp <> gs.
Proof.
  apply (generatePuzzle_removes_a_clue 15 15 (stateOf emptyGrid)).
  - lia.
  - simpl; lia.
Defined.

(** X28.  A new game is never won before it starts: the puzzle that
    [initGame] sets up has an empty cell, so a hint has somewhere to go,
    and [checkWin] on the new page returns false. *)
Theorem new_game_is_open w :
  exists w' gp gs,
    GameManager.initGame w = (Ok tt, w') /\
    playing w' gp gs gp /\ emptyCount gp <> 0 /\ gp <> gs /\
    GameManager.checkWin w' = (Ok false, w').
Proof.
  destruct (initGame_run w) as (w' & gp & gs & Run & P & _ & Hopen & _).
  pose proof (play_solved _ _ _ _ P) as HS.
  assert (Hne : gp <> gs).
  { intros E. rewrite E, (clueCount_full gs) in Hopen; [lia|].
    intros r c Hr Hc. exact (solvedGrid_full gs r c HS Hr Hc). }
  exists w', gp, gs. split; [exact Run|]. split; [exact P|].
  split; [now apply clueCount_open|]. split; [exact Hne|].
  rewrite (checkWin_run w' gp gs (play_user _ _ _ _ P) (play_solution _ _ _ _ P)
             (proj1 (play_square _ _ _ _ P)) (proj1 (proj1 (play_solved _ _ _ _ P)))).
  destruct (checkWin_model gp gs) eqn:E; [|reflexivity].
  exfalso. apply Hne.
  now apply (checkWin_model_true gp gs (play_square _ _ _ _ P)
               (proj1 (play_solved _ _ _ _ P))).
Qed.

(** X29.  The clock stops at a win: after the [handleInput] that
    completes the grid, [seconds] is what it was, no interval is left
    running, and no tick of any timer changes the page until a new game is
    started. *)
Theorem clock_stops_at_a_win w gp gs gu r c v :
  playing w gp gs gu -> oneTimer w ->
  selectedCell (me w) = Some (r, c) -> cell gp r c = EMPTY ->
  setCell gu r c v = gs ->
  exists w',
    GameManager.handleInput (JString v) w = (Ok tt, w') /\
    seconds (me w') = seconds (me w) /\ intervals (env w') = [] /\
    forall ids, listeners (map GameManager.Interval ids) w' = (Ok tt, w').
Proof.
  intros Hplay Hone Hsel He Hwin.
  destruct (handleInput_run w gp gs gu r c v Hplay Hsel He)
    as (w' & Run & P & Hme & _ & _ & _ & Hint & _).
  rewrite (proj2 (checkWin_model_true (setCell gu r c v) gs
                    (play_square _ _ _ _ P) (proj1 (play_solved _ _ _ _ P))) Hwin)
    in Hint.
  rewrite (oneTimer_cleared w Hone) in Hint.
  exists w'. split; [exact Run|]. split; [now rewrite Hme|]. split; [exact Hint|].
  intros ids. now apply interval_idle.
Qed.

Lemma clock_stops_at_a_win_witness :
  exists w',
    GameManager.handleInput (JString "H") almostDone = (Ok tt, w') /\
    seconds (me w') = seconds (me almostDone) /\ intervals (env w') = [] /\
    forall ids, listeners (map GameManager.Interval ids) w' = (Ok tt, w').
Proof.
  apply (clock_stops_at_a_win almostDone onePuzzle firstSolution oneLeft 0 0 "H").
  - exact almostDone_playing.
  - exact almostDone_oneTimer.
  - reflexivity.
  - reflexivity.
  - reflexivity.
Defined.
